(** * rapids-examples: the notebooks' own functions and the task façade

    The notebooks of this repository are glue over external engines.  The
    functions they define themselves are embedded here from the notebook
    cells:

    - [NYCTaxi-E2E.ipynb]: [clean], [day_of_the_week_kernel], [add_features],
      [drop_empty_partitions] and the train / test split around them;
    - [umap-cuml.ipynb]: the stencil kernel [smooth_gpu] and its wrapper
      [smooth].

    The scheduler behind [client.submit], [wait] and [fire_and_forget] is a
    library the notebooks only call; module [Facade] models it from the
    written specification. *)

From stdpp Require Import base list strings gmap pretty sorting.
From Stdlib Require Import ZArith Lia Ascii QArith Qround Floats Uint63.

Local Open Scope Z_scope.

(** ** NYCTaxi-E2E.ipynb: feature kernels and partition filtering *)

Module Taxi.

(** *** [day_of_the_week_kernel] *)

Section DayOfWeek.

(** [math.floor(m*2.6)]: a float64 product followed by a floor.  Its value
    is an integer; which one is left to this parameter. *)
Variable floor_2_6 : Z → Z.

(** Python's [month[i] < 3] used as a number. *)
Definition bool_to_int (b : bool) : Z := if b then 1 else 0.

(** The body of the loop for one row [i]:
<<
      if month[i] <3: shift = month[i]
      else:           shift = 0
      Y = year[i] - (month[i] < 3)
      y = Y - 2000
      c = 20
      d = day[i]
      m = month[i] + shift + 1
      day_of_week[i] = (d + math.floor(m*2.6) + y + (y//4) + (c//4) -2*c)%7
>>
    [//] and [%] on integers are floor division and its remainder, which
    for the positive divisors [4] and [7] are [Z.div] and [Z.modulo]. *)
Definition day_of_week_row (day_i month_i year_i : Z) : Z :=
  let shift := if month_i <? 3 then month_i else 0 in
  let Y := year_i - bool_to_int (month_i <? 3) in
  let y := Y - 2000 in
  let c := 20 in
  let d := day_i in
  let m := month_i + shift + 1 in
  (d + floor_2_6 m + y + (y / 4) + (c / 4) - 2 * c) mod 7.

(** [day_of_week[i] = v]: a store into the output column. [None] stands
    for an index outside the column. *)
Definition store (out : list Z) (i : nat) (v : Z) : option (list Z) :=
  if decide (i < length out)%nat then Some (<[i := v]> out) else None.

(** [for i, (d_1, m_1, y_1) in enumerate(zip(day, month, year))]: the loop
    runs over the indices of the zipped columns, starting at [i]; the body
    reads [day[i]], [month[i]], [year[i]]. *)
Fixpoint kernel_loop (i : nat) (zipped : list (Z * (Z * Z)))
    (day month year day_of_week : list Z) : option (list Z) :=
  match zipped with
  | [] => Some day_of_week
  | _ :: rest =>
      d ← day !! i;
      mo ← month !! i;
      yr ← year !! i;
      out ← store day_of_week i (day_of_week_row d mo yr);
      kernel_loop (S i) rest day month year out
  end.

Definition day_of_the_week_kernel (day month year day_of_week : list Z)
    : option (list Z) :=
  kernel_loop 0 (zip day (zip month year)) day month year day_of_week.

(** The three columns [add_features] derives from [pickup_datetime] and
    feeds to the kernel, one entry per row of the partition. *)
Record date_row := DateRow { row_day : Z; row_month : Z; row_year : Z }.

(** [df.apply_rows(day_of_the_week_kernel, incols=['day','month','year'],
    outcols=dict(day_of_week=np.float32))]: the output column is allocated
    with one slot per row ([alloc] is what the fresh slots hold) and the
    kernel runs over the partition's columns. *)
Definition apply_rows_day_of_week (alloc : Z) (df : list date_row)
    : option (list Z) :=
  day_of_the_week_kernel (row_day <$> df) (row_month <$> df)
    (row_year <$> df) (replicate (length df) alloc).

(** [df['is_weekend'] = (df['day_of_week']<2).astype(np.int32)] *)
Definition is_weekend (day_of_week : list Z) : list Z :=
  (λ w, bool_to_int (w <? 2)) <$> day_of_week.

End DayOfWeek.

(** [math.floor(m*2.6)] computed exactly over the rationals, [2.6 = 13/5];
  used to run the kernel on dates. *)
Definition floor_2_6_exact (m : Z) : Z := (13 * m) / 5.

(** *** [drop_empty_partitions] and the train / test split *)

Section Partitions.

(** A distributed dataframe is its list of partitions; a partition is its
    rows. *)
Context {row : Type}.

Local Abbreviation ddf := (list (list row)).

(** [df.map_partitions(len).compute()] *)
Definition partition_lengths (df : ddf) : list nat := length <$> df.

(** [df.partitions[mask]] with a list of booleans: the partitions at the
    positions where the mask is [True]. *)
Fixpoint partitions_getitem (parts : ddf) (mask : list bool) : ddf :=
  match parts, mask with
  | p :: parts', b :: mask' =>
      if b then p :: partitions_getitem parts' mask'
      else partitions_getitem parts' mask'
  | _, _ => []
  end.

(**
<<
  def drop_empty_partitions(df):
      lengths = df.map_partitions(len).compute()
      nonempty = [length > 0 for length in lengths]
      return df.partitions[nonempty]
>> *)
Definition drop_empty_partitions (df : ddf) : ddf :=
  let lengths := partition_lengths df in
  let nonempty := (λ len, (0 <? len)%nat) <$> lengths in
  partitions_getitem df nonempty.

(** [df.query(pred)] filters the rows of each partition and keeps every
    partition, also those left without rows. *)
Definition query (pred : row → bool) (df : ddf) : ddf :=
  List.filter pred <$> df.

(** Column selection ([X[['fare_amount']]],
    [X[X.columns.difference(['fare_amount'])]]) acts row by row. *)
Definition select {row' : Type} (proj : row → row') (df : ddf)
    : list (list row') :=
  (λ part : list row, proj <$> part) <$> df.

Variable day : row → Z.

(** [X_train = taxi_df.query('day < 25').persist()]; [Y_train] and the
    final [X_train] are column selections of it.  Both are passed to
    [dxgb_gpu.train]. *)
Definition X_train_rows (taxi_df : ddf) : ddf :=
  query (λ r, day r <? 25) taxi_df.

(** [X_test = taxi_df.query('day >= 25').persist()] followed by
    [X_test = drop_empty_partitions(X_test)]; [Y_test] and the final
    [X_test] are column selections of it.  [X_test] is passed to
    [dxgb_gpu.predict]. *)
Definition X_test_rows (taxi_df : ddf) : ddf :=
  drop_empty_partitions (query (λ r, 25 <=? day r) taxi_df).

(** The dataframes the notebook hands to the gradient-boosting library, as
    the row counts of their partitions: [X_train] and [Y_train] go to
    [dxgb_gpu.train], [X_test] goes to [dxgb_gpu.predict]. *)
Definition handed_to_trainer {X Y : Type} (features : row → X)
    (target : row → Y) (taxi_df : ddf) : list (list nat) :=
  [ length <$> select features (X_train_rows taxi_df);
    length <$> select target (X_train_rows taxi_df);
    length <$> select features (X_test_rows taxi_df) ].

End Partitions.

(** *** [clean] *)

(** Column dtypes of the dataframe library, and their names as [str(dtype)]
    prints them. *)
Inductive time_unit := unit_s | unit_ms | unit_us | unit_ns.

Inductive dtype :=
| object | bool_ | int8 | int16 | int32 | int64
| uint8 | uint16 | uint32 | uint64 | float32 | float64
| datetime64 (u : time_unit) | category.

#[global] Instance time_unit_eq_dec : EqDecision time_unit.
Proof. solve_decision. Defined.

#[global] Instance dtype_eq_dec : EqDecision dtype.
Proof. solve_decision. Defined.

Definition dtype_str (dt : dtype) : string :=
  match dt with
  | object => "object" | bool_ => "bool"
  | int8 => "int8" | int16 => "int16" | int32 => "int32" | int64 => "int64"
  | uint8 => "uint8" | uint16 => "uint16" | uint32 => "uint32"
  | uint64 => "uint64" | float32 => "float32" | float64 => "float64"
  | datetime64 unit_s => "datetime64[s]" | datetime64 unit_ms => "datetime64[ms]"
  | datetime64 unit_us => "datetime64[us]" | datetime64 unit_ns => "datetime64[ns]"
  | category => "category"
  end.

(** Python's [needle in hay] on strings. *)
Definition contains (needle hay : string) : bool :=
  if String.index 0 needle hay is Some _ then true else false.

(** [str.strip()] and [str.lower()] as they act on a string of ASCII
    characters: [strip] removes the characters 9 to 13 and 28 to 32 at both
    ends, [lower] maps [A-Z] to [a-z].  On other strings Python's methods
    follow the Unicode tables; [clean] below takes the two methods as
    parameters, and these two functions stand for them where a frame with
    ASCII headers is run. *)
Definition is_space (c : ascii) : bool :=
  let k := nat_of_ascii c in
  ((9 <=? k) && (k <=? 13) || (28 <=? k) && (k <=? 32))%nat.

Fixpoint lstrip (cs : list ascii) : list ascii :=
  match cs with
  | c :: cs' => if is_space c then lstrip cs' else cs
  | [] => []
  end.

Definition ascii_strip (s : string) : string :=
  String.string_of_list_ascii
    (rev (lstrip (rev (lstrip (String.list_ascii_of_string s))))).

Definition lower_ascii (c : ascii) : ascii :=
  let k := nat_of_ascii c in
  if ((65 <=? k) && (k <=? 90))%nat then ascii_of_nat (k + 32) else c.

Definition ascii_lower (s : string) : string :=
  String.string_of_list_ascii (lower_ascii <$> String.list_ascii_of_string s).

(** The notebook's two dictionaries. *)
Definition remap : gmap string string :=
  <["ratecodeid" := "rate_code"]>
  (<["tpep_dropoff_datetime" := "dropoff_datetime"]>
  (<["tpep_pickup_datetime" := "pickup_datetime"]> ∅)).

Definition must_haves : gmap string string :=
  list_to_map
    [ ("pickup_datetime", "datetime64[ms]");
      ("dropoff_datetime", "datetime64[ms]");
      ("passenger_count", "int32");
      ("trip_distance", "float32");
      ("pickup_longitude", "float32");
      ("pickup_latitude", "float32");
      ("rate_code", "int32");
      ("dropoff_longitude", "float32");
      ("dropoff_latitude", "float32");
      ("fare_amount", "float32") ].

Section Clean.

(** What a cell of a column holds is the dataframe library's business: the
    element type, the conversion [astype] applies to each element, and the
    elements that the Python scalars ['-1'] and [-1] become in a column. *)
Context {elem : Type}.
Variable cast : dtype → dtype → elem → elem.
Variable str_elem : string → elem.
Variable int_elem : dtype → Z → elem.

(** A column: its dtype and its cells, [None] for a null. *)
Record column := Column { col_dtype : dtype; col_cells : list (option elem) }.

(** A dataframe partition: its columns in order, by name. *)
Local Abbreviation dataframe := (list (string * column)).

Definition columns (df : dataframe) : list string := df.*1.

(** [df[col]]; [None] is the [KeyError] of a missing column. *)
Fixpoint getitem (df : dataframe) (col : string) : option column :=
  match df with
  | [] => None
  | (n, c) :: rest => if decide (n = col) then Some c else getitem rest col
  end.

(** [df[col] = c]: replaces the column of that name where it stands, or
    appends a new one. *)
Fixpoint setitem (df : dataframe) (col : string) (c : column) : dataframe :=
  match df with
  | [] => [(col, c)]
  | (n, c0) :: rest =>
      if decide (n = col) then (n, c) :: rest
      else (n, c0) :: setitem rest col c
  end.

(** [df.drop(col)]: the frame without that column; a missing column is an
    error. *)
Definition drop (df : dataframe) (col : string) : option dataframe :=
  _ ← getitem df col;
  Some (filter (λ p, p.1 ≠ col) df).

(** [df.rename(mapper)]: the frame is rebuilt column by column under the
    mapped labels, a label absent from the mapper staying as it is. *)
Definition rename (mapper : gmap string string) (df : dataframe)
    : dataframe :=
  foldl (λ out p, setitem out (default p.1 (mapper !! p.1)) p.2) [] df.

(** [series.astype(dt)]: nulls stay nulls. *)
Definition astype (dt : dtype) (c : column) : column :=
  Column dt ((λ x : option elem, cast (col_dtype c) dt <$> x) <$> col_cells c).

(** [series.str.fillna(s)] and [series.fillna(k)]. *)
Definition str_fillna (s : string) (c : column) : column :=
  Column (col_dtype c) ((λ x, Some (default (str_elem s) x)) <$> col_cells c).

Definition fillna (k : Z) (c : column) : column :=
  Column (col_dtype c)
    ((λ x, Some (default (int_elem (col_dtype c) k) x)) <$> col_cells c).

(** [df[col].dtype] and [df[col] = f(df[col])]. *)
Definition dtype_of (df : dataframe) (col : string) : option dtype :=
  col_dtype <$> getitem df col.

Definition update (df : dataframe) (col : string) (f : column → column)
    : option dataframe :=
  c ← getitem df col;
  Some (setitem df col (f c)).

Definition datetime_columns : list string :=
  ["pickup_datetime"; "dropoff_datetime"].

(** The body of [for col in df_part.columns:] for one [col]. *)
Definition clean_column (must_haves : gmap string string)
    (df_part : dataframe) (col : string) : option dataframe :=
  (* if col not in must_haves: df_part = df_part.drop(col); continue *)
  if bool_decide (must_haves !! col = None) then drop df_part col
  else
    dt ← dtype_of df_part col;
    (* if df_part[col].dtype == 'object' and col in [...]: ...; continue *)
    if bool_decide (dt = object) && bool_decide (col ∈ datetime_columns) then
      update df_part col (astype (datetime64 unit_ms))
    else
      dt ← dtype_of df_part col;
      if bool_decide (dt = object) then
        df_part ← update df_part col (str_fillna "-1");
        update df_part col (astype float32)
      else
        dt ← dtype_of df_part col;
        df_part ← (if contains "int" (dtype_str dt)
                   then update df_part col (astype int32)
                   else Some df_part);
        dt ← dtype_of df_part col;
        df_part ← (if contains "float" (dtype_str dt)
                   then update df_part col (astype float32)
                   else Some df_part);
        update df_part col (fillna (-1)).

(** The loop runs over the column labels the frame had when it started. *)
Fixpoint clean_loop (must_haves : gmap string string) (cols : list string)
    (df_part : dataframe) : option dataframe :=
  match cols with
  | [] => Some df_part
  | col :: rest =>
      df_part ← clean_column must_haves df_part col;
      clean_loop must_haves rest df_part
  end.

(** [col.strip()] and [col.lower()] are the methods of Python's strings,
    which follow the Unicode tables: they are parameters. *)
Variables strip lower : string → string.

(** [{col:col.strip().lower() for col in list(df_part.columns)}] *)
Definition strip_lower_map (cols : list string) : gmap string string :=
  foldl (λ tmp col, <[col := lower (strip col)]> tmp) ∅ cols.

(**
<<
    def clean(df_part, remap, must_haves):
        tmp = {col:col.strip().lower() for col in list(df_part.columns)}
        df_part = df_part.rename(tmp)
        df_part = df_part.rename(remap)
        for col in df_part.columns:
            ...
        return df_part
>> *)
Definition clean (df_part : dataframe) (remap must_haves : gmap string string)
    : option dataframe :=
  let tmp := strip_lower_map (columns df_part) in
  let df_part := rename tmp df_part in
  let df_part := rename remap df_part in
  clean_loop must_haves (columns df_part) df_part.

(** What one pass of the loop body makes of a column [c] named [col] that
    it keeps: the branches of [clean_column] without the frame around
    them. *)
Definition convert_column (col : string) (c : column) : column :=
  if bool_decide (col_dtype c = object) then
    if bool_decide (col ∈ datetime_columns)
    then astype (datetime64 unit_ms) c
    else astype float32 (str_fillna "-1" c)
  else
    let c := if contains "int" (dtype_str (col_dtype c))
             then astype int32 c else c in
    let c := if contains "float" (dtype_str (col_dtype c))
             then astype float32 c else c in
    fillna (-1) c.

Definition keep_column (must_haves : gmap string string)
    (p : string * column) : option (string * column) :=
  if bool_decide (must_haves !! p.1 = None) then None
  else Some (p.1, convert_column p.1 p.2).

(** The dtype a kept column ends with, from the dtype it had. *)
Definition cleaned_dtype (n : string) (dt : dtype) : dtype :=
  if bool_decide (dt = object) then
    if bool_decide (n ∈ datetime_columns) then datetime64 unit_ms else float32
  else if contains "int" (dtype_str dt) then int32
  else if contains "float" (dtype_str dt) then float32
  else dt.

(** The element a null becomes: the string ['-1'] cast to float32 in a
    string column, the integer [-1] in any other. *)
Definition minus_one (n : string) (dt : dtype) : elem :=
  if bool_decide (dt = object) then cast object float32 (str_elem "-1")
  else int_elem (cleaned_dtype n dt) (-1).

End Clean.

(** *** [math.floor(m*2.6)] as the kernel computes it *)

(** An integer as a float64, the conversion of [m] in [m*2.6]. *)
Definition float_of_int (m : Z) : float :=
  if m <? 0 then PrimFloat.opp (PrimFloat.of_uint63 (Uint63.of_Z (- m)))
  else PrimFloat.of_uint63 (Uint63.of_Z m).

(** [math.floor] of a float64; [None] for a nan or an infinity, on which it
    raises. *)
Definition float_floor (x : float) : option Z :=
  match Prim2SF x with
  | S754_zero _ => Some 0
  | S754_finite s m e =>
      let n := if s then Z.neg m else Z.pos m in
      Some (if 0 <=? e then n * 2 ^ e else n / 2 ^ (- e))
  | _ => None
  end.

(** [math.floor(m*2.6)]: the literal [2.6] is the float64
    [0x1.4cccccccccccdp+1]; the product of two finite floats of this size is
    finite, so the floor is defined. *)
Definition floor_2_6_float (m : Z) : Z :=
  default 0
    (float_floor (PrimFloat.mul (float_of_int m) 0x1.4cccccccccccdp+1%float)).

(** *** The calendar, to compare the kernel with *)

Definition is_leap (y : Z) : bool :=
  (y mod 4 =? 0) && (negb (y mod 100 =? 0) || (y mod 400 =? 0)).

Definition days_in_month (y m : Z) : Z :=
  if m =? 2 then (if is_leap y then 29 else 28)
  else if (m =? 4) || (m =? 6) || (m =? 9) || (m =? 11) then 30
  else 31.

(** The date after [(y, m, d)]. *)
Definition next_day (date : Z * Z * Z) : Z * Z * Z :=
  let '(y, m, d) := date in
  if d <? days_in_month y m then (y, m, d + 1)
  else if m <? 12 then (y, m + 1, 1)
  else (y + 1, 1, 1).

(** The date [k] days after Saturday 1 January 2000.  Its weekday is
    [k mod 7], counted from Saturday: 0 Saturday, 1 Sunday, 2 Monday,
    3 Tuesday, 4 Wednesday, 5 Thursday, 6 Friday. *)
Definition nth_day (k : nat) : Z * Z * Z := Nat.iter k next_day (2000, 1, 1).

(** The number of days from 1 January 2000 to 31 December 2099. *)
Definition century : nat := Z.to_nat 36525.

(** What the kernel's value is for a date of weekday [w], by month: the
    weekday itself from March on, one day back in January, two days on in
    February. *)
Definition kernel_weekday (m w : Z) : Z :=
  if m =? 1 then (w - 1) mod 7
  else if m =? 2 then (w + 2) mod 7
  else w.

(** The comparison of the kernel with the calendar over [n] consecutive
    days, [date] being the [k]-th day. *)
Fixpoint check_days (n : nat) (k : Z) (date : Z * Z * Z) : bool :=
  match n with
  | O => true
  | S n' =>
      let '(y, m, d) := date in
      (day_of_week_row floor_2_6_float d m y =? kernel_weekday m (k mod 7))
      && check_days n' (k + 1) (next_day date)
  end.

(** *** The [diff] column of [add_features] *)

(** [series.astype('int32')] on integers: the low 32 bits, signed. *)
Definition wrap32 (z : Z) : Z := (z + 2 ^ 31) mod 2 ^ 32 - 2 ^ 31.

(** One row of
<<
    df['diff'] = df['dropoff_datetime'].astype('int32')
                 - df['pickup_datetime'].astype('int32')
>>
    on the two timestamps, in milliseconds since the epoch; the difference
    of two int32 columns is an int32 column. *)
Definition trip_diff (dropoff pickup : Z) : Z :=
  wrap32 (wrap32 dropoff - wrap32 pickup).

(** *** [add_features] on the frame's columns *)

Section AddFeatures.

(** The operations on whole columns are the dataframe library's: the
    accessors of a datetime column, the cast to [int32], the difference of
    two columns, [s // .01 * .01], the two [apply_rows] kernels run over
    their input columns, and the comparison [s < 2].  Each of them can
    raise on a column it is not made for (the [.dt] accessors on a column
    that holds no datetimes, the arithmetic on a column of strings, the
    kernels on nulls); [None] is that error.  Which columns the cast to
    [int32] accepts is the library's; where it does not raise it is
    [astype]. *)
Context {elem : Type}.
Variable cast : dtype → dtype → elem → elem.
Variables dt_hour dt_year dt_month dt_day :
  @column elem → option (@column elem).
Variable int32_castable : @column elem → bool.
Variable series_sub : @column elem → @column elem → option (@column elem).
Variable round_hundredth : @column elem → option (@column elem).
Variable haversine_rows :
  @column elem → @column elem → @column elem → @column elem →
  option (@column elem).
Variable day_of_week_rows :
  @column elem → @column elem → @column elem → option (@column elem).
Variable less_than_2 : @column elem → option (@column elem).

Local Abbreviation dataframe := (list (string * @column elem)).

(** [series.astype('int32')] *)
Definition astype_int32 (c : @column elem) : option (@column elem) :=
  if int32_castable c then Some (astype cast int32 c) else None.

(** [df.apply_rows(haversine_distance_kernel, incols=[...],
    outcols=dict(h_distance=np.float32), kwargs=dict())]: the input columns
    are looked up and the result is a copy of the frame with the output
    column set. *)
Definition apply_rows_haversine (df : dataframe) : option dataframe :=
  a ← getitem df "pickup_latitude";
  b ← getitem df "pickup_longitude";
  c ← getitem df "dropoff_latitude";
  d ← getitem df "dropoff_longitude";
  out ← haversine_rows a b c d;
  Some (setitem df "h_distance" out).

(** [df.apply_rows(day_of_the_week_kernel, incols=['day', 'month', 'year'],
    outcols=dict(day_of_week=np.float32), kwargs=dict())] *)
Definition apply_rows_weekday (df : dataframe) : option dataframe :=
  a ← getitem df "day";
  b ← getitem df "month";
  c ← getitem df "year";
  out ← day_of_week_rows a b c;
  Some (setitem df "day_of_week" out).

(** [add_features(df)].  The assignments [df[name] = ...] before the first
    [df = df.drop(...)] change the frame the caller passed; from the first
    [drop] on, [df] is a new frame.  The result is the returned frame
    together with the caller's frame as the call leaves it; [None] is the
    [KeyError] of a missing column or the error of a library operation. *)
Definition add_features (df : dataframe) : option (dataframe * dataframe) :=
  (* df['hour'] = df['pickup_datetime'].dt.hour, and year, month, day *)
  c ← getitem df "pickup_datetime";
  v ← dt_hour c;
  let df := setitem df "hour" v in
  c ← getitem df "pickup_datetime";
  v ← dt_year c;
  let df := setitem df "year" v in
  c ← getitem df "pickup_datetime";
  v ← dt_month c;
  let df := setitem df "month" v in
  c ← getitem df "pickup_datetime";
  v ← dt_day c;
  let df := setitem df "day" v in
  (* df['diff'] = df['dropoff_datetime'].astype('int32')
                  - df['pickup_datetime'].astype('int32') *)
  a ← getitem df "dropoff_datetime";
  a ← astype_int32 a;
  b ← getitem df "pickup_datetime";
  b ← astype_int32 b;
  v ← series_sub a b;
  let df := setitem df "diff" v in
  (* df['pickup_latitude_r'] = df['pickup_latitude']//.01*.01, ... *)
  c ← getitem df "pickup_latitude";
  v ← round_hundredth c;
  let df := setitem df "pickup_latitude_r" v in
  c ← getitem df "pickup_longitude";
  v ← round_hundredth c;
  let df := setitem df "pickup_longitude_r" v in
  c ← getitem df "dropoff_latitude";
  v ← round_hundredth c;
  let df := setitem df "dropoff_latitude_r" v in
  c ← getitem df "dropoff_longitude";
  v ← round_hundredth c;
  let df := setitem df "dropoff_longitude_r" v in
  let passed := df in
  (* df = df.drop('pickup_datetime'); df = df.drop('dropoff_datetime') *)
  df ← drop df "pickup_datetime";
  df ← drop df "dropoff_datetime";
  df ← apply_rows_haversine df;
  df ← apply_rows_weekday df;
  (* df['is_weekend'] = (df['day_of_week']<2).astype(np.int32) *)
  c ← getitem df "day_of_week";
  v ← less_than_2 c;
  v ← astype_int32 v;
  let df := setitem df "is_weekend" v in
  Some (df, passed).

(** The columns [add_features] reads from the frame it is given, those it
    sets on that frame, and those it sets on the frame it returns only. *)
Definition required_columns : list string :=
  ["pickup_datetime"; "dropoff_datetime"; "pickup_latitude";
   "pickup_longitude"; "dropoff_latitude"; "dropoff_longitude"].

Definition assigned_columns : list string :=
  ["hour"; "year"; "month"; "day"; "diff"; "pickup_latitude_r";
   "pickup_longitude_r"; "dropoff_latitude_r"; "dropoff_longitude_r"].

Definition derived_columns : list string :=
  ["h_distance"; "day_of_week"; "is_weekend"].

(** The columns [add_features] computes, from the six columns it reads:
    the nine it assigns before the datetime columns are dropped, then the
    three it assigns after; [None] when a library operation raises on
    them. *)
Definition new_columns (pd dd plat plon dlat dlon : @column elem)
    : option (list (string * @column elem)) :=
  hour ← dt_hour pd;
  year ← dt_year pd;
  month ← dt_month pd;
  day ← dt_day pd;
  a ← astype_int32 dd;
  b ← astype_int32 pd;
  diff ← series_sub a b;
  plat_r ← round_hundredth plat;
  plon_r ← round_hundredth plon;
  dlat_r ← round_hundredth dlat;
  dlon_r ← round_hundredth dlon;
  h_distance ← haversine_rows plat plon dlat dlon;
  day_of_week ← day_of_week_rows day month year;
  below ← less_than_2 day_of_week;
  is_weekend ← astype_int32 below;
  Some [ ("hour", hour); ("year", year); ("month", month); ("day", day);
         ("diff", diff); ("pickup_latitude_r", plat_r);
         ("pickup_longitude_r", plon_r); ("dropoff_latitude_r", dlat_r);
         ("dropoff_longitude_r", dlon_r); ("h_distance", h_distance);
         ("day_of_week", day_of_week); ("is_weekend", is_weekend) ].

(** [df[name] = column], one assignment after the other. *)
Definition assign (df : dataframe) (cols : list (string * @column elem))
    : dataframe :=
  foldl (λ df nc, setitem df nc.1 nc.2) df cols.

End AddFeatures.

(** A raw column label after the two renamings of [clean], for the string
    methods [strip] and [lower]. *)
Definition cleaned_label (strip lower : string → string)
    (remap : gmap string string) (raw : string) : string :=
  let n := lower (strip raw) in default n (remap !! n).

(** A one-row frame with the columns of a cleaned partition, the cells as
    integers. *)
Definition one_trip : list (string * @column Z) :=
  [ ("pickup_datetime", Column (datetime64 unit_ms) [Some 1388534400000]);
    ("dropoff_datetime", Column (datetime64 unit_ms) [Some 1388535000000]);
    ("passenger_count", Column int32 [Some 1]);
    ("pickup_longitude", Column float32 [Some (-74)]);
    ("pickup_latitude", Column float32 [Some 40]);
    ("dropoff_longitude", Column float32 [Some (-73)]);
    ("dropoff_latitude", Column float32 [Some 41]) ].

(** *** The outlier filter *)

(** A cell of a numeric column as the comparison sees it: a float is not a
    number, an infinity or a finite value; an integer is a finite value. *)
Inductive float_cell := Nan | Inf (negative : bool) | Fin (q : Q).

(** [cell > k] and [cell < k] for an integer literal [k]; a comparison with
    a nan is false. *)
Definition cell_gt (c : float_cell) (k : Z) : bool :=
  match c with
  | Nan => false
  | Inf negative => negb negative
  | Fin q => negb (Qle_bool q (inject_Z k))
  end.

Definition cell_lt (c : float_cell) (k : Z) : bool :=
  match c with
  | Nan => false
  | Inf negative => negative
  | Fin q => negb (Qle_bool (inject_Z k) q)
  end.

(** [query_frags]: each fragment ['col > low and col < high'] as its column
    and its two bounds. *)
Definition query_frags : list (string * Z * Z) :=
  [ ("fare_amount", 0, 500);
    ("passenger_count", 0, 6);
    ("pickup_longitude", -75, -73);
    ("dropoff_longitude", -75, -73);
    ("pickup_latitude", 40, 42);
    ("dropoff_latitude", 40, 42) ].

Definition in_range (row : string → float_cell) (frag : string * Z * Z)
    : bool :=
  let '(col, low, high) := frag in
  cell_gt (row col) low && cell_lt (row col) high.

(** The row filter of [taxi_df.query(' and '.join(query_frags))]. *)
Definition passes_query (row : string → float_cell) : bool :=
  forallb (in_range row) query_frags.

(** The numeric cells of a trip inside all bounds. *)
Definition one_row (col : string) : float_cell :=
  if decide (col ∈ ["pickup_longitude"; "dropoff_longitude"])
  then Fin (inject_Z (-74))
  else if decide (col ∈ ["pickup_latitude"; "dropoff_latitude"])
  then Fin (inject_Z 41)
  else Fin (inject_Z 2).

(** *** The feature columns *)

(** [cols.difference(other)] on an index of labels: the labels of [cols]
    not in [other], each once, sorted. *)
Definition difference (cols other : list string) : list string :=
  merge_sort String.le (remove_dups (filter (λ c, c ∉ other) cols)).

(** [X.columns.difference(['fare_amount'])], the columns selected for
    [X_train] and for [X_test]. *)
Definition feature_columns (cols : list string) : list string :=
  difference cols ["fare_amount"].

End Taxi.

(** ** umap-cuml.ipynb: the smoothing stencil *)

Module Signal.

Section Smooth.

(** The element type of the arrays and the two operations of it the kernel
    uses, [+] and [// 9], are those of the array's dtype. *)
Context {T : Type}.
Variable add : T → T → T.
Variable floordiv : T → Z → T.

(** A 2-D device array: its shape [(n, m)] and its elements by index. *)
Record array2 := Array2 { shape : Z * Z; item : Z → Z → T }.

(** [a[i, j] = v] *)
Definition setitem (a : array2) (i j : Z) (v : T) : array2 :=
  Array2 (shape a)
    (λ i' j', if (i' =? i) && (j' =? j) then v else item a i' j').

(** The kernel body, for the thread whose [numba.cuda.grid(2)] is [(i, j)]:
<<
    n, m = x.shape
    if 1 <= i < n - 1 and 1 <= j < m - 1:
        out[i, j] = (x[i - 1, j - 1] + x[i - 1, j] + x[i - 1, j + 1] +
                     x[i    , j - 1] + x[i    , j] + x[i    , j + 1] +
                     x[i + 1, j - 1] + x[i + 1, j] + x[i + 1, j + 1]) // 9
>> *)
Definition stencil (x : array2) (i j : Z) : T :=
  floordiv
    (add (add (add (add (add (add (add (add
       (item x (i - 1) (j - 1)) (item x (i - 1) j)) (item x (i - 1) (j + 1)))
       (item x i (j - 1))) (item x i j)) (item x i (j + 1)))
       (item x (i + 1) (j - 1))) (item x (i + 1) j)) (item x (i + 1) (j + 1)))
    9.

Definition interior (x : array2) (i j : Z) : bool :=
  let '(n, m) := shape x in
  (1 <=? i) && (i <? n - 1) && (1 <=? j) && (j <? m - 1).

Definition smooth_gpu_thread (x out : array2) (ij : Z * Z) : array2 :=
  let '(i, j) := ij in
  if interior x i j then setitem out i j (stencil x i j) else out.

(** A launch of the kernel runs the body once per thread of the grid; the
    threads read [x] and write [out], two distinct arrays in [smooth].  The
    launch configuration is not part of [smooth_gpu(x, out)]: the thread
    indices that run are the parameter [grid]. *)
Definition smooth_gpu (grid : list (Z * Z)) (x out : array2) : array2 :=
  foldl (smooth_gpu_thread x) out grid.

(** [cupy.empty_like(x)]: the shape of [x] over memory that is not
    initialised; [uninit] is what that memory holds. *)
Definition empty_like (uninit : Z → Z → T) (x : array2) : array2 :=
  Array2 (shape x) uninit.

(**
<<
    def smooth(x):
        out = cupy.empty_like(x)
        smooth_gpu(x, out)
        return out
>> *)
Definition smooth (grid : list (Z * Z)) (uninit : Z → Z → T) (x : array2)
    : array2 :=
  let out := empty_like uninit x in
  smooth_gpu grid x out.

(** The indices inside the array. *)
Definition in_bounds (x : array2) (i j : Z) : bool :=
  let '(n, m) := shape x in
  (0 <=? i) && (i <? n) && (0 <=? j) && (j <? m).

End Smooth.

(** The kernel's arithmetic on real-valued images, with exact fractions in
    the place of the floats: [+] and the floor division [// 9]. *)
Definition q_floordiv (q : Q) (k : Z) : Q :=
  inject_Z (Qfloor (q / inject_Z k)).

(** The 3x3 neighbourhood average, as the specification words what the
    kernel writes. *)
Definition spec_neighbourhood_average (x : @array2 Q) (i j : Z) : Q :=
  (item x (i - 1) (j - 1) + item x (i - 1) j + item x (i - 1) (j + 1) +
   item x i (j - 1) + item x i j + item x i (j + 1) +
   item x (i + 1) (j - 1) + item x (i + 1) j + item x (i + 1) (j + 1)) / 9.

End Signal.

(** * Arrays of the numeric library, as the notebooks use them *)

Module Np.

Section Arrays.

Context {T : Type}.

(** A 2-D array: its number of columns and its rows.  An array with no row
    still has a number of columns. *)
Record matrix := Matrix { ncols : nat; rows : list (list T) }.

Definition well_formed (m : matrix) : Prop :=
  Forall (λ r, length r = ncols m) (rows m).

(** [np.vstack(ms)] of 2-D arrays: [None] is the [ValueError] of an empty
    list or of arrays that differ in their number of columns. *)
Definition vstack (ms : list matrix) : option matrix :=
  match ms with
  | [] => None
  | m :: rest =>
      if forallb (λ m', ncols m' =? ncols m)%nat rest
      then Some (Matrix (ncols m) (concat (rows <$> ms)))
      else None
  end.

(** [np.hstack(vs)] of 1-D arrays: [None] is the [ValueError] of an empty
    list. *)
Definition hstack (vs : list (list T)) : option (list T) :=
  match vs with
  | [] => None
  | _ => Some (concat vs)
  end.

(** [m[:, i]]: [None] is the [IndexError] of a column that is not there. *)
Definition column (m : matrix) (i : nat) : option (list T) :=
  if (i <? ncols m)%nat then mapM (λ r : list T, r !! i) (rows m) else None.

(** [a.reshape(n, cols)] of a 1-D array: [None] is the [ValueError] of a
    size that is not [n * cols]. *)
Definition reshape (a : list T) (n cols : nat) : option matrix :=
  if decide (length a = n * cols)%nat
  then Some (Matrix cols ((λ r, take cols (drop (r * cols) a)) <$> seq 0 n))
  else None.

(** [np.frombuffer(buf, dtype=np.uint8, offset=k)]: [None] is the
    [ValueError] of an offset beyond the end of the buffer. *)
Definition frombuffer (buf : list T) (offset : nat) : option (list T) :=
  if (offset <=? length buf)%nat then Some (drop offset buf) else None.

(** [(('fea%d'%i, m[:,i]) for i in range(m.shape[1]))], the records a
    dataframe is built from. *)
Definition record_data (m : matrix) : option (list (string * list T)) :=
  mapM (λ i, c ← column m i; Some ("fea" +:+ pretty i, c)) (seq 0 (ncols m)).

End Arrays.

End Np.

(** * [ridge-cuml-dask.ipynb]: the duplicated training set *)

Module Ridge.

Section Dup.

Context {T : Type}.

(** [np.array(np.vstack([X_train]*k))] and [np.array(np.hstack([y_train]*k))]
    for [k = int(1e5)], [int(1e2)] and [int(1e3)]. *)
Definition dup_data (k : nat) (X_train : @Np.matrix T) : option Np.matrix :=
  Np.vstack (replicate k X_train).

Definition dup_train (k : nat) (y_train : list T) : option (list T) :=
  Np.hstack (replicate k y_train).

End Dup.

End Ridge.

(** * [umap-cuml.ipynb]: loading the images, naming the files *)

Module Umap.

(** [os.path.join(path, name)] on a POSIX system. *)
Definition starts_with_slash (s : string) : bool :=
  match s with
  | String "/" _ => true
  | _ => false
  end.

Fixpoint ends_with_slash (s : string) : bool :=
  match s with
  | "" => false
  | String c "" => if decide (c = "/"%char) then true else false
  | String _ s' => ends_with_slash s'
  end.

Definition path_join (path name : string) : string :=
  if starts_with_slash name then name
  else if decide (path = "") then name
  else if ends_with_slash path then path +:+ name
  else path +:+ "/" +:+ name.

Section LoadMnist.

(** [gzip.open(p, 'rb').read()]: the decompressed content of the file;
    [None] when the file is missing or is not a gzip file. *)
Variable read_gz : string → option (list Byte.byte).

(**
<<
    def load_mnist(path, kind='train'):
        labels_path = os.path.join(path, '%s-labels-idx1-ubyte.gz' % kind)
        images_path = os.path.join(path, '%s-images-idx3-ubyte.gz' % kind)
        with gzip.open(labels_path, 'rb') as lbpath:
            labels = np.frombuffer(lbpath.read(), dtype=np.uint8, offset=8)
        with gzip.open(images_path, 'rb') as imgpath:
            images = np.frombuffer(imgpath.read(), dtype=np.uint8,
                                   offset=16).reshape(len(labels), 784)
        return images, labels
>> *)
Definition load_mnist (path kind : string)
    : option (@Np.matrix Byte.byte * list Byte.byte) :=
  let labels_path := path_join path (kind +:+ "-labels-idx1-ubyte.gz") in
  let images_path := path_join path (kind +:+ "-images-idx3-ubyte.gz") in
  buf ← read_gz labels_path;
  labels ← Np.frombuffer buf 8;
  buf ← read_gz images_path;
  flat ← Np.frombuffer buf 16;
  images ← Np.reshape flat (length labels) 784;
  Some (images, labels).

End LoadMnist.

(** A directory with one labelled image: a label file of an 8-byte header
    and one label, an image file of a 16-byte header and 784 pixels. *)
Definition one_image (p : string) : option (list Byte.byte) :=
  if decide (p = "data/train-labels-idx1-ubyte.gz")
  then Some (replicate 8 Byte.x00 ++ [Byte.x07])
  else if decide (p = "data/train-images-idx3-ubyte.gz")
  then Some (replicate 16 Byte.x00 ++ replicate 784 Byte.x80)
  else None.

(** A pixel of [np.array(..., dtype=np.float64) / 255.0]. *)
Definition pixel (b : Byte.byte) : float :=
  PrimFloat.div
    (PrimFloat.of_uint63 (Uint63.of_Z (Z.of_N (Byte.to_N b)))) 255%float.

(**
<<
    data = np.array(np.vstack([train, test]), dtype=np.float64) / 255.0
    target = np.array(np.hstack([train_labels, test_labels]))
>> *)
Definition data (train test : @Np.matrix Byte.byte) : option (@Np.matrix float) :=
  m ← Np.vstack [train; test];
  Some (Np.Matrix (Np.ncols m)
          ((λ r : list Byte.byte, pixel <$> r) <$> Np.rows m)).

Definition target (train_labels test_labels : list Byte.byte)
    : option (list Byte.byte) :=
  Np.hstack [train_labels; test_labels].

(** The name of the file the [i]-th round of the loop saves to,
    ["file-" + str(i) + "-.dat"]. *)
Definition save_filename (i : Z) : string :=
  "file-" +:+ pretty i +:+ "-.dat".

(** [for i in range(n): ... save(img, "file-" + str(i) + "-.dat")]: the
    file names of the rounds. *)
Definition for_loop_filenames (n : nat) : list string :=
  save_filename <$> seqZ 0 (Z.of_nat n).

End Umap.

(** ** The task submission façade

    [client.submit], [wait] and [fire_and_forget] are calls into the
    scheduler library; the notebooks hold no code of it.  This module is the
    façade as the specification's data model and component design describe
    it. *)

Module Facade.

(** Modelled from the spec: a Task handle; the specification makes identity
    per submission, so the handle is the submission's rank. *)
Abbreviation handle := nat.

Section Model.

(** The values tasks return and the errors captured from them. *)
Context {V E : Type}.

(** Modelled from the spec: an argument of a submission, "already-resolved
    or still-pending": a literal value or the handle of another Task. *)
Inductive arg := Lit (v : V) | Ref (h : handle).

(** Modelled from the spec: the Task lifecycle, "created on submission,
    transitions to running when a worker claims it, transitions to finished
    (value available) or failed (error captured) when the worker returns".
    A running task holds the inputs its worker was given. *)
Inductive status :=
| Created
| Running (inputs : list V)
| Finished (v : V)
| Failed (e : E).

(** Modelled from the spec: the Task, "a function reference plus its
    arguments"; a failing invocation of [fn] is [inr] of the error.
    [detached] is set by [fire_and_forget] and read by the pool's garbage
    collection ([root] below). *)
Record task := Task {
  fn : list V → V + E;
  args : list arg;
  st : status;
  detached : bool }.

(** Modelled from the spec: what the pool did, newest first: a worker
    claimed a task and started running it, a worker returned from it
    (successfully or not), a task was marked failed without being run
    because a dependency had failed. *)
Inductive event :=
| Started (h : handle)
| Returned (h : handle) (ok : bool)
| Propagated (h : handle).

(** Modelled from the spec: the worker pool's view of the submitted tasks,
    by handle, and the record of its steps. *)
Record pool := Pool { tasks : list task; log : list event }.

(** Modelled from the spec: the pool before any submission. *)
Definition init : pool := Pool [] [].

(** Modelled from the spec: the dependency edges of a task, "a Task whose
    argument is another Task's handle". *)
Definition handles (l : list arg) : list handle :=
  omap (λ a, match a with Ref h => Some h | Lit _ => None end) l.

Definition deps (t : task) : list handle := handles (args t).

(** Modelled from the spec: the dependency edges of the task with handle
    [h], none for a handle that names no task. *)
Definition deps_at (p : pool) (h : handle) : list handle :=
  from_option deps [] (tasks p !! h).

(** Modelled from the spec: where the task with handle [h] is in its
    lifecycle. *)
Definition status_of (p : pool) (h : handle) : option status :=
  st <$> tasks p !! h.

(** Modelled from the spec: "finished or failed", the two states a task
    does not leave. *)
Definition terminal (s : status) : bool :=
  match s with Finished _ | Failed _ => true | _ => false end.

(** Modelled from the spec: an argument is resolved once it is a literal or
    the handle of a task that "has finished successfully". *)
Definition resolve (p : pool) (a : arg) : option V :=
  match a with
  | Lit v => Some v
  | Ref d => match status_of p d with Some (Finished v) => Some v | _ => None end
  end.

(** Modelled from the spec: the error captured at a failed task. *)
Definition failure_of (p : pool) (d : handle) : option E :=
  match status_of p d with Some (Failed e) => Some e | _ => None end.

(** Modelled from the spec: "failure propagates"; the specification does not
    say which error a task with several failed dependencies takes, here it
    is that of the first failed one among its arguments. *)
Definition first_failure (p : pool) (ds : list handle) : option E :=
  head (omap (failure_of p) ds).

(** Modelled from the spec: a transition of task [h] to status [s],
    entered in the record. *)
Definition set_status (h : handle) (s : status) (ev : event) (p : pool)
    : pool :=
  Pool (alter (λ t, Task (fn t) (args t) s (detached t)) h (tasks p))
       (ev :: log p).

(** Modelled from the spec: one step of the pool on task [h], when it can
    take one.  A created task whose dependency failed is marked failed and
    not run; a created task whose arguments are all resolved is claimed by a
    worker; a running task returns with the value or the error of its
    function.  A created task with a pending dependency, and a finished or
    failed task, take no step. *)
Definition step_at (h : handle) (p : pool) : option pool :=
  t ← tasks p !! h;
  match st t with
  | Created =>
      match first_failure p (deps t) with
      | Some e => Some (set_status h (Failed e) (Propagated h) p)
      | None =>
          inputs ← mapM (resolve p) (args t);
          Some (set_status h (Running inputs) (Started h) p)
      end
  | Running inputs =>
      match fn t inputs with
      | inl v => Some (set_status h (Finished v) (Returned h true) p)
      | inr e => Some (set_status h (Failed e) (Returned h false) p)
      end
  | Finished _ | Failed _ => None
  end.

(** Modelled from the spec: the pool runs on its own; a schedule lists the
    tasks its workers turn to, in order.  Turning to a task that can take no
    step changes nothing. *)
Definition try_step (p : pool) (h : handle) : pool :=
  default p (step_at h p).

(** Modelled from the spec: the pool after its workers went through a
    schedule. *)
Definition run (schedule : list handle) (p : pool) : pool :=
  foldl try_step p schedule.

(** Modelled from the spec: [submit(fn, *args)] "returns a Task handle
    immediately (non-blocking)" and enqueues the task; each submission makes
    a new task. *)
Definition submit (f : list V → V + E) (l : list arg) (p : pool)
    : handle * pool :=
  (length (tasks p), Pool (tasks p ++ [Task f l Created false]) (log p)).

(** Modelled from the spec: [fire_and_forget(task)] "detaches a Task from
    caller-side reference tracking": it marks the task, and a marked task
    is retained by the pool's garbage collection whatever the caller's
    references ([root] below). *)
Definition fire_and_forget (h : handle) (p : pool) : pool :=
  Pool (alter (λ t, Task (fn t) (args t) (st t) true) h (tasks p)) (log p).

(** Modelled from the spec: the summary [wait] returns, "distinguishing
    which finished vs failed". *)
Record summary := Summary {
  finished : list (handle * V);
  failed : list handle }.

(** Modelled from the spec: task [h] is finished or failed. *)
Definition settled (p : pool) (h : handle) : bool :=
  from_option terminal false (status_of p h).

(** Modelled from the spec: the condition [wait] blocks on, "all given
    Task handles are finished or failed". *)
Definition all_terminal (hs : list handle) (p : pool) : bool :=
  forallb (settled p) hs.

(** Modelled from the spec: the summary of the given handles, the finished
    ones with their values and the failed ones. *)
Definition summarize (hs : list handle) (p : pool) : summary :=
  Summary
    (omap (λ h, match status_of p h with
                | Some (Finished v) => Some (h, v)
                | _ => None
                end) hs)
    (List.filter (λ h, bool_decide (is_Some (failure_of p h))) hs).

(** Modelled from the spec: [wait(tasks)] "blocks the calling control flow
    until all given Task handles are finished or failed" and returns the
    summary.  While the caller is blocked the pool goes through [schedule];
    [None] is a caller still blocked when the schedule ends. *)
Fixpoint wait (schedule : list handle) (hs : list handle) (p : pool)
    : option (summary * pool) :=
  if all_terminal hs p then Some (summarize hs p, p)
  else match schedule with
       | [] => None
       | h :: rest => wait rest hs (try_step p h)
       end.

(** Modelled from the spec: a schedule that turns twice to every task of
    [hs], in order: once to claim it and once to return from it. *)
Definition twice (hs : list handle) : list handle :=
  h ← hs; [h; h].

(** Modelled from the spec: a schedule on which the workers turn to the
    submitted tasks that are in [U] and to no other; with every task in
    [U], a schedule that runs the pool to completion. *)
Definition schedule_within (U : handle → bool) (p : pool) : list handle :=
  twice (List.filter U (seq 0 (length (tasks p)))).

Definition drain_schedule (p : pool) : list handle :=
  schedule_within (λ _, true) p.

(** The body of the notebook's loop (umap-cuml.ipynb), with the four
    functions and the file name as parameters:
<<
    img = client.submit(gather_from_detector, pure=False)
    img = client.submit(smooth, img)
    img = client.submit(np.fft.fft2, img)
    future = client.submit(save, img, "file-" + str(i) + "-.dat")
    fire_and_forget(future)
>>
    The keyword [pure=False] of the first call has no counterpart in the
    [submit] of the specification, which makes a new task at every call. *)
Definition pipeline_iteration (gather smooth fft2 save : list V → V + E)
    (filename : V) (p : pool) : handle * pool :=
  let '(img, p) := submit gather [] p in
  let '(img, p) := submit smooth [Ref img] p in
  let '(img, p) := submit fft2 [Ref img] p in
  let '(future, p) := submit save [Ref img; Lit filename] p in
  (future, fire_and_forget future p).

(** *** What the tasks compute, apart from any schedule *)

(** The value of an argument, given the values [outs] of the tasks submitted
    so far. *)
Definition resolve_out (outs : list (option V)) (a : arg) : option V :=
  match a with
  | Lit v => Some v
  | Ref d => mjoin (outs !! d)
  end.

(** The value of a task: its function applied to the values of its
    arguments, when they all have one and the call does not fail. *)
Definition eval_task (outs : list (option V)) (t : task) : option V :=
  inputs ← mapM (resolve_out outs) (args t);
  match fn t inputs with inl v => Some v | inr _ => None end.

(** The value of every task in submission order, [None] for a task that
    fails or is never run. *)
Definition outcomes (ts : list task) : list (option V) :=
  foldl (λ outs t, outs ++ [eval_task outs t]) [] ts.

(** The value of the task with handle [h]. *)
Definition outcome (ts : list task) (h : handle) : option V :=
  mjoin (outcomes ts !! h).

(** The summary of the handles [hs] that these values give. *)
Definition expected (hs : list handle) (ts : list task) : summary :=
  Summary
    (omap (λ h, pair h <$> outcome ts h) hs)
    (List.filter (λ h, bool_decide (outcome ts h = None)) hs).

(** [depends ts c a]: task [c] depends on task [a], directly or through
    other tasks. *)
Inductive depends (ts : list task) : handle → handle → Prop :=
| depends_direct c t a :
    ts !! c = Some t → a ∈ deps t → depends ts c a
| depends_trans c t b a :
    ts !! c = Some t → b ∈ deps t → depends ts b a → depends ts c a.

(** The same as a test: a dependency path from [c] to [a] of at most [fuel]
    edges; handles go down along a path, so [c + 1] edges are enough. *)
Fixpoint depends_within (fuel : nat) (ts : list task) (c a : handle) : bool :=
  match fuel with
  | O => false
  | S fuel' =>
      existsb (λ b, bool_decide (b = a) || depends_within fuel' ts b a)
        (from_option deps [] (ts !! c))
  end.

Definition depends_b (ts : list task) (c a : handle) : bool :=
  depends_within (S c) ts c a.


(** Two tasks with the same function and arguments. *)
Definition same_code (t t' : task) : Prop :=
  fn t = fn t' ∧ args t = args t'.

(** The same task with another function. *)
Definition with_fn (f : list V → V + E) (t : task) : task :=
  Task f (args t) (st t) (detached t).

(** *** The states the façade can be in *)

(** The pools that the caller's [submit] and [fire_and_forget] calls and
    the pool's own steps lead to.  A submission can only pass handles it
    was given, those of tasks submitted before. *)
Inductive reachable : pool → Prop :=
| reachable_init : reachable init
| reachable_submit p f l :
    reachable p →
    Forall (λ d, d < length (tasks p))%nat (handles l) →
    reachable (submit f l p).2
| reachable_detach p h :
    reachable p → reachable (fire_and_forget h p)
| reachable_step p h p' :
    reachable p → step_at h p = Some p' → reachable p'.

(** The pool's record is in order: a task is started at most once and after
    all its dependencies returned successfully, and it returns after it was
    started. *)
Fixpoint chronological (dps : handle → list handle) (l : list event) : Prop :=
  match l with
  | [] => True
  | ev :: older =>
      chronological dps older ∧
      match ev with
      | Started c =>
          (Started c ∉ older) ∧ ∀ d, d ∈ dps c → Returned d true ∈ older
      | Returned c _ => Started c ∈ older
      | Propagated c => Started c ∉ older
      end
  end.

(** Arguments name tasks submitted earlier. *)
Definition backward (ts : list task) : Prop :=
  ∀ h t, ts !! h = Some t → Forall (λ d, d < h)%nat (deps t).

(** What the status of task [h] says about the pool. *)
Definition task_inv (p : pool) (h : handle) (t : task) : Prop :=
  match st t with
  | Created => Started h ∉ log p
  | Running inputs =>
      mapM (resolve p) (args t) = Some inputs ∧ Started h ∈ log p
  | Finished v =>
      ∃ inputs, mapM (resolve p) (args t) = Some inputs ∧
        fn t inputs = inl v ∧ Started h ∈ log p ∧ Returned h true ∈ log p
  | Failed e =>
      (∃ inputs, mapM (resolve p) (args t) = Some inputs ∧
         fn t inputs = inr e ∧ Started h ∈ log p) ∨
      ((Started h ∉ log p) ∧
       ∃ d e', d ∈ deps t ∧ status_of p d = Some (Failed e'))
  end.

(** The invariant of the reachable pools. *)
Record pool_inv (p : pool) : Prop := PoolInv {
  inv_backward : backward (tasks p);
  inv_task : ∀ h t, tasks p !! h = Some t → task_inv p h t;
  inv_log : chronological (deps_at p) (log p);
  inv_started : ∀ h, Started h ∈ log p → (h < length (tasks p))%nat }.

(** The four steps the pool can take. *)
Inductive step_case (h : handle) (p : pool) (t : task) : pool → Prop :=
| case_propagate e :
    st t = Created → first_failure p (deps t) = Some e →
    step_case h p t (set_status h (Failed e) (Propagated h) p)
| case_claim inputs :
    st t = Created → first_failure p (deps t) = None →
    mapM (resolve p) (args t) = Some inputs →
    step_case h p t (set_status h (Running inputs) (Started h) p)
| case_return inputs v :
    st t = Running inputs → fn t inputs = inl v →
    step_case h p t (set_status h (Finished v) (Returned h true) p)
| case_raise inputs e :
    st t = Running inputs → fn t inputs = inr e →
    step_case h p t (set_status h (Failed e) (Returned h false) p).

(** Finished and failed tasks are so for good: [p'] has every task that is
    finished or failed in [p] in the same status. *)
Definition settled_kept (p p' : pool) : Prop :=
  ∀ d s, status_of p d = Some s → terminal s = true → status_of p' d = Some s.

(** *** The caller's references and garbage collection *)

(** Modelled from the spec: the façade with its caller's side: the pool,
    the handles the caller still references, and the tasks the pool has
    garbage-collected.  A Task is "garbage-collected once no caller still
    references its handle (unless explicitly detached/fire-and-forgotten, in
    which case it is retained until completion regardless of
    references)". *)
Record client := Client {
  cpool : pool;
  held : list handle;
  collected : list handle }.


(** Modelled from the spec: the tasks the pool retains on their own
    account: those a caller references, and those detached that are not
    finished or failed yet. *)
Definition root (c : client) (h : handle) : bool :=
  bool_decide (h ∈ held c) ||
  from_option (λ t, detached t && negb (terminal (st t))) false
    (tasks (cpool c) !! h).

(** Modelled from the spec: the tasks the pool retains: the roots, and the
    tasks a root depends on, directly or through other tasks.  The
    specification speaks of the callers' references only; a task that is an
    argument of a retained task is retained too, since the retained task
    "may not start until that upstream Task has finished". *)
Definition kept (c : client) (h : handle) : bool :=
  root c h ||
  existsb (λ r, root c r && depends_b (tasks (cpool c)) r h)
    (seq 0 (length (tasks (cpool c)))).

(** Modelled from the spec: garbage collection: the pool forgets every
    task it does not retain.  A task forgotten before a worker claimed it is
    never run: "a task, once submitted, runs to completion or failure" is
    read as said of the tasks the pool retains. *)
Definition sweep (c : client) : client :=
  Client (cpool c) (held c)
    (List.filter (λ h, negb (kept c h)) (seq 0 (length (tasks (cpool c))))
       ++ collected c).

(** Modelled from the spec: the caller lets go of the handle [h], as when
    the variable that held it is bound to something else. *)
Definition forget (h : handle) (c : client) : client :=
  Client (cpool c)
    (List.filter (λ g, negb (bool_decide (g = h))) (held c)) (collected c).

(** Modelled from the spec: the caller lets go of [h] and the pool collects
    what is no longer retained. *)
Definition release (h : handle) (c : client) : client :=
  sweep (forget h c).

(** Modelled from the spec: [submit] as the caller sees it: the caller
    references the handle it is given. *)
Definition client_submit (f : list V → V + E) (l : list arg) (c : client)
    : handle * client :=
  let '(h, p) := submit f l (cpool c) in
  (h, Client p (h :: held c) (collected c)).

(** Modelled from the spec: [fire_and_forget] as the caller sees it: the
    call changes neither the caller's references nor what is collected. *)
Definition client_fire_and_forget (h : handle) (c : client) : client :=
  Client (fire_and_forget h (cpool c)) (held c) (collected c).





(** The body of the notebook's loop again, with the caller's references:
    each assignment to [img] lets go of the handle [img] held before. *)
Definition client_pipeline_iteration
    (gather smooth fft2 save : list V → V + E) (filename : V) (c : client)
    : handle * client :=
  let '(img0, c) := client_submit gather [] c in
  let '(img1, c) := client_submit smooth [Ref img0] c in
  let c := release img0 c in
  let '(img2, c) := client_submit fft2 [Ref img1] c in
  let c := release img1 c in
  let '(future, c) := client_submit save [Ref img2; Lit filename] c in
  (future, client_fire_and_forget future c).



End Model.

#[global] Instance event_eq_dec : EqDecision event.
Proof. solve_decision. Defined.

(** How many times the record has a worker start task [h]. *)
Definition times_started (h : handle) (l : list event) : nat :=
  length (filter (λ ev, ev = Started h) l).

(** The two functions of the specification's example scenario,
    [f(x) = x + 1] and [g(y) = y * 2]; a call with another number of
    arguments raises. *)
Definition inc (xs : list Z) : Z + string :=
  match xs with [x] => inl (x + 1) | _ => inr "TypeError" end.

Definition double (ys : list Z) : Z + string :=
  match ys with [y] => inl (y * 2) | _ => inr "TypeError" end.

(** A function that raises on input 0, as in the specification's second
    scenario. *)
Definition raise_on_zero (xs : list Z) : Z + string :=
  match xs with
  | [x] => if x =? 0 then inr "ValueError" else inl x
  | _ => inr "TypeError"
  end.

(** One iteration of the pipeline on integers standing for the images. *)
Definition demo_pipeline : handle * pool :=
  pipeline_iteration (λ _, inl 7) inc double (λ _, inl 0) 0 init.



(** A failing task, a task that depends on it, and a sibling. *)
Definition demo_failure : pool :=
  (submit inc [Lit 1]
     (submit double [Ref 0%nat]
        (submit raise_on_zero [Lit 0] init).2).2).2.

End Facade.

(** * Verification *)

(** ** The day-of-week kernel *)

Section DayOfWeekFacts.

Import Taxi.

Variable floor_2_6 : Z → Z.

Lemma day_of_week_row_range d mo yr :
  0 ≤ day_of_week_row floor_2_6 d mo yr < 7.
Proof. unfold day_of_week_row. apply Z.mod_pos_bound. lia. Qed.

Lemma store_Some out i v :
  (i < length out)%nat → store out i v = Some (<[i := v]> out).
Proof. intros Hi. unfold store. by rewrite decide_True. Qed.

(** The loop started at index [i] leaves the slots below [i] and past the
    zipped columns alone and fills the ones in between. *)
Lemma kernel_loop_spec zipped : ∀ i day month year out,
  (i + length zipped ≤ length day)%nat →
  (i + length zipped ≤ length month)%nat →
  (i + length zipped ≤ length year)%nat →
  (i + length zipped ≤ length out)%nat →
  ∃ out',
    kernel_loop floor_2_6 i zipped day month year out = Some out' ∧
    length out' = length out ∧
    ∀ k : nat,
      if decide (i ≤ k < i + length zipped)%nat
      then ∃ d mo yr, day !! k = Some d ∧ month !! k = Some mo ∧
             year !! k = Some yr ∧
             out' !! k = Some (day_of_week_row floor_2_6 d mo yr)
      else out' !! k = out !! k.
Proof.
  induction zipped as [|z zipped IH]; intros i day month year out Hd Hm Hy Ho.
  - exists out. repeat split; [done..|]. intros k.
    rewrite decide_False; [done|]. simpl. lia.
  - simpl in *.
    destruct (lookup_lt_is_Some_2 day i) as [d Hdi]; [lia|].
    destruct (lookup_lt_is_Some_2 month i) as [mo Hmi]; [lia|].
    destruct (lookup_lt_is_Some_2 year i) as [yr Hyi]; [lia|].
    rewrite Hdi, Hmi, Hyi. simpl.
    rewrite store_Some by lia. simpl.
    destruct (IH (S i) day month year
                (<[i := day_of_week_row floor_2_6 d mo yr]> out))
      as (out' & Hrun & Hlen & Hslots);
      rewrite ?length_insert; [lia..|].
    exists out'. rewrite Hrun. split; [done|]. split.
    { by rewrite Hlen, length_insert. }
    intros k. specialize (Hslots k).
    destruct (decide (k = i)) as [->|Hne].
    + rewrite decide_True by lia.
      rewrite decide_False in Hslots by lia.
      exists d, mo, yr. repeat split; [done..|].
      rewrite Hslots. apply list_lookup_insert_eq. lia.
    + destruct (decide (S i ≤ k < S i + length zipped)%nat).
      * rewrite decide_True by lia. done.
      * rewrite decide_False by lia.
        rewrite Hslots. by apply list_lookup_insert_ne.
Qed.

(** C10. On every partition, [apply_rows] with [day_of_the_week_kernel]
    returns a [day_of_week] column with one entry per row, every entry is one
    of 0, 1, 2, 3, 4, 5, 6 whatever the day, month and year are (the final
    [% 7] is non-negative also when the sum is negative), and every entry of
    the [is_weekend] column derived from it is 0 or 1. *)
Theorem day_of_week_range (alloc : Z) (df : list date_row) :
  ∃ day_of_week,
    apply_rows_day_of_week floor_2_6 alloc df = Some day_of_week ∧
    length day_of_week = length df ∧
    Forall (λ w, w ∈ [0; 1; 2; 3; 4; 5; 6]) day_of_week ∧
    Forall (λ f, f = 0 ∨ f = 1) (is_weekend day_of_week).
Proof.
  unfold apply_rows_day_of_week, day_of_the_week_kernel.
  set (day := row_day <$> df). set (month := row_month <$> df).
  set (year := row_year <$> df).
  assert (length (zip day (zip month year)) = length df) as Hz.
  { subst day month year. rewrite !length_zip, !length_fmap. lia. }
  destruct (kernel_loop_spec (zip day (zip month year)) 0 day month year
              (replicate (length df) alloc))
    as (out' & Hrun & Hlen & Hslots);
    rewrite ?Hz; subst day month year;
    rewrite ?length_fmap, ?length_replicate; [lia..|].
  exists out'. split; [done|]. rewrite length_replicate in Hlen.
  split; [done|]. split.
  - apply Forall_lookup. intros k w Hk.
    specialize (Hslots k). rewrite decide_True in Hslots.
    2:{ apply lookup_lt_Some in Hk. lia. }
    destruct Hslots as (d & mo & yr & _ & _ & _ & Hw).
    rewrite Hk in Hw. injection Hw as ->.
    pose proof (day_of_week_row_range d mo yr) as Hr.
    set (v := day_of_week_row floor_2_6 d mo yr) in *.
    assert (v = 0 ∨ v = 1 ∨ v = 2 ∨ v = 3 ∨ v = 4 ∨ v = 5 ∨ v = 6) as Hv
      by lia.
    rewrite !elem_of_cons. lia.
  - unfold is_weekend. apply Forall_fmap, Forall_true. intros w. simpl.
    unfold bool_to_int. destruct (w <? 2); auto.
Qed.

End DayOfWeekFacts.

(** The kernel on three dates: 2014-01-01, 2015-06-27 and 2016-02-29. *)
Example day_of_week_run :
  Taxi.apply_rows_day_of_week Taxi.floor_2_6_exact 0
    [Taxi.DateRow 1 1 2014; Taxi.DateRow 27 6 2015; Taxi.DateRow 29 2 2016]
  = Some [3; 0; 4].
Proof. reflexivity. Qed.

(** ** Empty partitions *)

Section PartitionFacts.

Import Taxi.

Context {row : Type}.

Lemma partitions_getitem_mask (f : list row → bool) (df : list (list row)) :
  partitions_getitem df (f <$> df) = List.filter f df.
Proof.
  induction df as [|p df IH]; [done|].
  rewrite fmap_cons. cbn [partitions_getitem List.filter].
  destruct (f p); by rewrite IH.
Qed.

Lemma drop_empty_partitions_filter (df : list (list row)) :
  drop_empty_partitions df = filter (λ p, (0 < length p)%nat) df.
Proof.
  unfold drop_empty_partitions, partition_lengths.
  rewrite <- list_fmap_compose.
  rewrite (partitions_getitem_mask (λ p, (0 <? length p)%nat)).
  induction df as [|p df IH]; [done|].
  simpl. rewrite filter_cons.
  destruct (Nat.ltb_spec 0 (length p)).
  - rewrite decide_True by done. by rewrite IH.
  - rewrite decide_False by lia. done.
Qed.

Lemma select_lengths {row' : Type} (proj : row → row') (df : list (list row)) :
  length <$> select proj df = length <$> df.
Proof.
  unfold select. rewrite <- list_fmap_compose.
  apply list_fmap_ext. intros _ p _. simpl. apply length_fmap.
Qed.

(** C3, as the notebook has it. [drop_empty_partitions df] is exactly the
    partitions of [df] that have at least one row, in their original order.
    The test set, which goes to the trainer's [predict], is passed through
    it and so has no empty partition; [X_train] and [Y_train], which go to
    [train], are the query result as it is. *)
Theorem drop_empty_partitions_spec (df : list (list row)) :
  drop_empty_partitions df = filter (λ p, (0 < length p)%nat) df ∧
  ∀ (day : row → Z) (X : Type) (features : row → X),
    Forall (λ n, (0 < n)%nat)
      (length <$> select features (X_test_rows day df)) ∧
    length <$> select features (X_train_rows day df)
      = (λ p, length (List.filter (λ r, day r <? 25) p)) <$> df.
Proof.
  split; [apply drop_empty_partitions_filter|].
  intros day X features. rewrite !select_lengths. split.
  - unfold X_test_rows. rewrite drop_empty_partitions_filter.
    apply Forall_fmap, Forall_forall. intros p Hp.
    by apply list_elem_of_filter in Hp as [Hp _].
  - unfold X_train_rows, query. by rewrite <- list_fmap_compose.
Qed.

End PartitionFacts.

(** C3 as stated fails on the training path: a partition whose rows are all
    of day 25 or later is empty after [query('day < 25')] and reaches
    [dxgb_gpu.train] as it is. *)
Lemma train_input_keeps_empty_partition :
  ¬ ∀ taxi_df : list (list Z),
      Forall (Forall (λ n, (0 < n)%nat))
        (Taxi.handed_to_trainer id id id taxi_df).
Proof.
  intros H. specialize (H [[25]]).
  apply Forall_cons in H as [H _].
  apply Forall_cons in H as [H _].
  simpl in H. lia.
Qed.

Example drop_empty_partitions_run :
  Taxi.drop_empty_partitions [[1; 2]; []; [3]; []] = [[1; 2]; [3]].
Proof. reflexivity. Qed.

(** ** The smoothing stencil *)

Section SmoothFacts.

Import Signal.

Context {T : Type}.
Variable add : T → T → T.
Variable floordiv : T → Z → T.

Local Abbreviation stencil := (Signal.stencil add floordiv).
Local Abbreviation smooth_gpu := (Signal.smooth_gpu add floordiv).
Local Abbreviation smooth := (Signal.smooth add floordiv).

Lemma smooth_gpu_thread_shape (x out : array2) ij :
  shape (smooth_gpu_thread add floordiv x out ij) = shape out.
Proof.
  destruct ij as [i j]. unfold smooth_gpu_thread.
  by destruct (interior x i j).
Qed.

Lemma smooth_gpu_thread_item (x out : array2) ij i j :
  item (smooth_gpu_thread add floordiv x out ij) i j =
    if interior x i j && bool_decide (ij = (i, j))
    then stencil x i j else item out i j.
Proof.
  destruct ij as [i0 j0]. unfold smooth_gpu_thread.
  destruct (decide ((i0, j0) = (i, j))) as [Heq|Hne].
  - injection Heq as -> ->. rewrite bool_decide_true by done.
    rewrite andb_true_r. destruct (interior x i j); [|done].
    simpl. by rewrite !Z.eqb_refl.
  - rewrite bool_decide_false by done. rewrite andb_false_r.
    destruct (interior x i0 j0); [|done]. simpl.
    destruct (Z.eqb_spec i i0) as [->|]; [|done].
    destruct (Z.eqb_spec j j0) as [->|]; [|done].
    by destruct Hne.
Qed.

Lemma smooth_gpu_shape grid : ∀ x out : array2,
  shape (smooth_gpu grid x out) = shape out.
Proof.
  induction grid as [|t grid IH]; intros x out; [done|].
  unfold Signal.smooth_gpu in *. simpl.
  by rewrite IH, smooth_gpu_thread_shape.
Qed.

(** After a launch, an element holds the stencil value if it is interior
    and one of the threads had its index, and what [out] held otherwise. *)
Lemma smooth_gpu_item grid : ∀ (x out : array2) i j,
  item (smooth_gpu grid x out) i j =
    if interior x i j && bool_decide ((i, j) ∈ grid)
    then stencil x i j else item out i j.
Proof.
  induction grid as [|t grid IH]; intros x out i j.
  - rewrite bool_decide_false by apply not_elem_of_nil.
    by rewrite andb_false_r.
  - unfold Signal.smooth_gpu in *. simpl. rewrite IH.
    rewrite smooth_gpu_thread_item.
    destruct (interior x i j); simpl; [|done].
    repeat case_bool_decide; try done; exfalso;
      first [ by (subst; eauto using list_elem_of_here, list_elem_of_further)
            | match goal with
              | H : _ ∈ _ :: _ |- _ =>
                  apply elem_of_cons in H as [?|?]; [congruence|done]
              end ].
Qed.

(** C9. For every input array [x], every content of the uninitialised
    allocation and every launch grid, the array [smooth x] returns has the
    shape of [x]; its element at [(i, j)] is the 3x3 neighbourhood sum
    floor-divided by 9 when [(i, j)] is interior ([1 <= i < n-1] and
    [1 <= j < m-1]) and a thread with that index ran, and is in every other
    case, so on the whole border, the value the allocation held. *)
Theorem smooth_writes_interior_only
    (grid : list (Z * Z)) (uninit : Z → Z → T) (x : array2) (i j : Z) :
  shape (smooth grid uninit x) = shape x ∧
  item (smooth grid uninit x) i j =
    if interior x i j && bool_decide ((i, j) ∈ grid)
    then stencil x i j else uninit i j.
Proof.
  unfold Signal.smooth. split.
  - by rewrite smooth_gpu_shape.
  - by rewrite smooth_gpu_item.
Qed.

End SmoothFacts.

(** C9 as stated fails on the value written: on an image that is 1/2
    everywhere the neighbourhood average is 1/2, and the kernel writes the
    floor of it, 0. *)
Lemma smooth_interior_is_floored :
  ¬ ∀ (x : Signal.array2) (grid : list (Z * Z)) (uninit : Z → Z → Q) i j,
      Signal.interior x i j = true → (i, j) ∈ grid →
      (Signal.item (Signal.smooth Qplus Signal.q_floordiv grid uninit x) i j
       == Signal.spec_neighbourhood_average x i j)%Q.
Proof.
  intros H.
  specialize (H (Signal.Array2 (3, 3) (λ _ _, 1 # 2)%Q) [(1, 1)]
                (λ _ _, 0%Q) 1 1 eq_refl ltac:(constructor)).
  vm_compute in H. discriminate H.
Qed.

(** A 3x3 integer image under a launch that covers it: only the centre is
    written. *)
Example smooth_run :
  let x := Signal.Array2 (3, 3) (λ i j, 3 * i + j + 1) in
  let grid := [(0,0); (0,1); (0,2); (1,0); (1,1); (1,2); (2,0); (2,1); (2,2)] in
  let out := Signal.smooth Z.add Z.div grid (λ _ _, -7) x in
  (λ ij, Signal.item out ij.1 ij.2) <$> grid
    = [-7; -7; -7; -7; 5; -7; -7; -7; -7].
Proof. reflexivity. Qed.

(** ** [clean] *)

Section CleanFacts.

Import Taxi.

Context {elem : Type}.
Variable cast : dtype → dtype → elem → elem.
Variable str_elem : string → elem.
Variable int_elem : dtype → Z → elem.
Variables strip lower : string → string.

Local Abbreviation dataframe := (list (string * @column elem)).
Local Abbreviation convert_column :=
  (Taxi.convert_column cast str_elem int_elem).
Local Abbreviation keep_column := (Taxi.keep_column cast str_elem int_elem).
Local Abbreviation clean_column := (Taxi.clean_column cast str_elem int_elem).
Local Abbreviation clean_loop := (Taxi.clean_loop cast str_elem int_elem).
Local Abbreviation clean := (Taxi.clean cast str_elem int_elem strip lower).
Local Abbreviation strip_lower_map := (Taxi.strip_lower_map strip lower).
Local Abbreviation minus_one := (Taxi.minus_one cast str_elem int_elem).

(** *** Frames as ordered dictionaries *)

Lemma columns_setitem (df : dataframe) n c :
  columns (setitem df n c) =
    if decide (n ∈ columns df) then columns df else columns df ++ [n].
Proof.
  unfold columns. induction df as [|[n0 c0] df IH]; [done|].
  cbn [setitem].
  destruct (decide (n0 = n)) as [->|Hne]; rewrite !fmap_cons; cbn [fst].
  - rewrite decide_True; [done|]. apply list_elem_of_here.
  - rewrite IH. destruct (decide (n ∈ df.*1)) as [Hin|Hout].
    + rewrite decide_True; [done|]. by apply list_elem_of_further.
    + rewrite decide_False; [done|].
      rewrite elem_of_cons. intros [?|?]; congruence.
Qed.

Lemma setitem_NoDup (df : dataframe) n c :
  NoDup (columns df) → NoDup (columns (setitem df n c)).
Proof.
  intros Hnd. rewrite columns_setitem.
  destruct (decide (n ∈ columns df)); [done|].
  apply NoDup_app. split; [done|]. split.
  - intros x Hx Hx'. apply list_elem_of_singleton in Hx'. by subst.
  - apply NoDup_singleton.
Qed.

Lemma rename_NoDup mapper (df : dataframe) : NoDup (columns (rename mapper df)).
Proof.
  unfold rename.
  assert (∀ out : dataframe, NoDup (columns out) →
    NoDup (columns (foldl
      (λ out p, setitem out (default p.1 (mapper !! p.1)) p.2) out df)))
    as Hgen.
  { induction df as [|p df IH]; intros out Hout; [done|].
    simpl. by apply IH, setitem_NoDup. }
  apply Hgen, NoDup_nil_2.
Qed.

Lemma filter_other_columns (df : dataframe) n :
  n ∉ columns df → filter (λ p, p.1 ≠ n) df = df.
Proof.
  unfold columns. induction df as [|[n0 c0] df IH]; intros Hn; [done|].
  rewrite fmap_cons, not_elem_of_cons in Hn. destruct Hn as [Hne Hn].
  simpl in Hne. rewrite filter_cons. simpl.
  rewrite decide_True by congruence. by rewrite IH.
Qed.

Section Focus.

(** A frame with the column [n] in focus, between the columns already
    visited ([visited]) and those still to come ([rest]). *)
Variables (visited rest : dataframe) (n : string) (c : @column elem).
Hypothesis n_fresh : n ∉ columns visited.

Lemma getitem_focus : getitem (visited ++ (n, c) :: rest) n = Some c.
Proof using n_fresh.
  clear -n_fresh. unfold columns in n_fresh.
  induction visited as [|[n0 c0] df IH]; simpl.
  - by rewrite decide_True.
  - rewrite fmap_cons, not_elem_of_cons in n_fresh.
    destruct n_fresh as [Hne Hn]. simpl in Hne.
    rewrite decide_False by congruence. by apply IH.
Qed.

Lemma setitem_focus c' :
  setitem (visited ++ (n, c) :: rest) n c' = visited ++ (n, c') :: rest.
Proof using n_fresh.
  clear -n_fresh. unfold columns in n_fresh.
  induction visited as [|[n0 c0] df IH]; simpl.
  - by rewrite decide_True.
  - rewrite fmap_cons, not_elem_of_cons in n_fresh.
    destruct n_fresh as [Hne Hn]. simpl in Hne.
    rewrite decide_False by congruence. by rewrite IH.
Qed.

Lemma dtype_of_focus :
  dtype_of (visited ++ (n, c) :: rest) n = Some (col_dtype c).
Proof using n_fresh. unfold dtype_of. by rewrite getitem_focus. Qed.

Lemma update_focus f :
  update (visited ++ (n, c) :: rest) n f = Some (visited ++ (n, f c) :: rest).
Proof using n_fresh.
  unfold update. rewrite getitem_focus. simpl. by rewrite setitem_focus.
Qed.

Lemma drop_focus :
  n ∉ columns rest →
  drop (visited ++ (n, c) :: rest) n = Some (visited ++ rest).
Proof using n_fresh.
  intros Hrest. unfold drop. rewrite getitem_focus. simpl.
  rewrite filter_app, filter_cons. simpl.
  rewrite decide_False by (intros ?; congruence).
  by rewrite !filter_other_columns.
Qed.

End Focus.

(** *** The loop *)

Lemma clean_column_focus must_haves (visited rest : dataframe) n c :
  n ∉ columns visited → n ∉ columns rest →
  clean_column must_haves (visited ++ (n, c) :: rest) n
    = Some (visited ++ option_list (keep_column must_haves (n, c)) ++ rest).
Proof.
  intros Hv Hr. unfold Taxi.clean_column, Taxi.keep_column.
  simpl. case_bool_decide as Hmust.
  { by rewrite drop_focus. }
  unfold Taxi.convert_column.
  assert (contains "float" (dtype_str int32) = false) as Hint32
    by reflexivity.
  rewrite !dtype_of_focus by done. simpl.
  destruct (bool_decide (col_dtype c = object)); simpl.
  - destruct (bool_decide (n ∈ datetime_columns)); simpl;
      repeat (rewrite ?update_focus by done; simpl); done.
  - destruct (contains "int" (dtype_str (col_dtype c))); simpl;
      repeat (rewrite ?update_focus, ?dtype_of_focus by done; simpl);
      rewrite ?Hint32; simpl;
      [|destruct (contains "float" (dtype_str (col_dtype c))); simpl];
      repeat (rewrite ?update_focus by done; simpl); done.
Qed.

Lemma columns_kept must_haves (p : string * @column elem) n :
  n ∈ columns (option_list (keep_column must_haves p)) → n = p.1.
Proof.
  unfold Taxi.keep_column. case_bool_decide; simpl.
  - by intros ?%elem_of_nil.
  - by intros ?%list_elem_of_singleton.
Qed.

Lemma clean_loop_focus must_haves (rest : dataframe) : ∀ visited : dataframe,
  NoDup (columns rest) →
  (∀ n, n ∈ columns rest → n ∉ columns visited) →
  clean_loop must_haves (columns rest) (visited ++ rest)
    = Some (visited ++ omap (keep_column must_haves) rest).
Proof.
  induction rest as [|[n c] rest IH]; intros visited Hnd Hfresh; [done|].
  unfold columns in *. rewrite fmap_cons in *. simpl in Hnd, Hfresh |- *.
  apply NoDup_cons in Hnd as [Hn Hnd].
  rewrite clean_column_focus; [|apply Hfresh, list_elem_of_here|done].
  simpl. rewrite app_assoc, IH; [|done|].
  - rewrite <- app_assoc. f_equal.
    by destruct (keep_column must_haves (n, c)).
  - intros n' Hn'. rewrite fmap_app, elem_of_app. intros [Hin|Hin].
    + by eapply Hfresh; [apply list_elem_of_further|].
    + apply columns_kept in Hin. simpl in Hin. by subst.
Qed.

(** [clean] never raises, and its result is the renamed frame with the
    columns outside [must_haves] removed and the others converted. *)
Lemma clean_omap (df_part : dataframe) (remap must_haves : gmap string string) :
  clean df_part remap must_haves
    = Some (omap (keep_column must_haves)
              (rename remap
                 (rename (strip_lower_map (columns df_part)) df_part))).
Proof.
  unfold Taxi.clean.
  apply (clean_loop_focus must_haves _ []); [apply rename_NoDup|].
  intros n _. apply not_elem_of_nil.
Qed.

(** *** What a kept column becomes *)

Lemma convert_column_dtype n (c : @column elem) :
  col_dtype (convert_column n c) = cleaned_dtype n (col_dtype c).
Proof.
  unfold Taxi.convert_column, cleaned_dtype.
  destruct (bool_decide (col_dtype c = object)).
  - by destruct (bool_decide (n ∈ datetime_columns)).
  - destruct (contains "int" (dtype_str (col_dtype c))); [done|].
    by destruct (contains "float" (dtype_str (col_dtype c))).
Qed.

Lemma cleaned_dtype_32bit n dt :
  cleaned_dtype n dt ∉
    [object; int8; int16; int64; uint8; uint16; uint32; uint64; float64].
Proof.
  unfold cleaned_dtype.
  destruct (bool_decide (n ∈ datetime_columns));
    destruct dt as [| | | | | | | | | | | |[]|]; vm_compute;
    intros H; repeat (apply elem_of_cons in H as [H|H]; [discriminate|]);
    by apply elem_of_nil in H.
Qed.

Lemma convert_column_length n (c : @column elem) :
  length (col_cells (convert_column n c)) = length (col_cells c).
Proof.
  unfold Taxi.convert_column.
  repeat (first [case_bool_decide | case_match]); simpl;
    by rewrite !length_fmap.
Qed.

Lemma convert_column_nulls n (c : @column elem) :
  ¬ (col_dtype c = object ∧ n ∈ datetime_columns) →
  Forall is_Some (col_cells (convert_column n c)) ∧
  ∀ k : nat, col_cells c !! k = Some None →
    col_cells (convert_column n c) !! k
      = Some (Some (minus_one n (col_dtype c))).
Proof.
  intros Hnot. unfold Taxi.minus_one, cleaned_dtype, Taxi.convert_column.
  destruct c as [dt cells]. simpl in *.
  case_bool_decide as Hobj.
  - subst dt. rewrite bool_decide_false by tauto.
    simpl. split.
    + rewrite <- list_fmap_compose. apply Forall_fmap, Forall_true.
      intros x. simpl. eauto.
    + intros k Hk. rewrite <- list_fmap_compose, list_lookup_fmap, Hk.
      done.
  - destruct (contains "int" (dtype_str dt)); simpl.
    + change (contains "float" (dtype_str int32)) with false. simpl. split.
      * rewrite <- list_fmap_compose. apply Forall_fmap, Forall_true.
        intros x. simpl. eauto.
      * intros k Hk. rewrite <- list_fmap_compose, list_lookup_fmap, Hk.
        done.
    + destruct (contains "float" (dtype_str dt)); simpl.
      * split.
        -- rewrite <- list_fmap_compose. apply Forall_fmap, Forall_true.
           intros x. simpl. eauto.
        -- intros k Hk. rewrite <- list_fmap_compose, list_lookup_fmap, Hk.
           done.
      * split.
        -- apply Forall_fmap, Forall_true. intros x. simpl. eauto.
        -- intros k Hk. by rewrite list_lookup_fmap, Hk.
Qed.

Lemma columns_omap_keep must_haves (df : dataframe) :
  columns (omap (keep_column must_haves) df)
    = filter (λ n, is_Some (must_haves !! n)) (columns df).
Proof.
  unfold columns, Taxi.keep_column.
  induction df as [|[n c] df IH]; [done|].
  rewrite fmap_cons, filter_cons. simpl.
  case_bool_decide as Hmust; simpl.
  - rewrite decide_False; [done|]. rewrite Hmust. by intros [? ?].
  - rewrite decide_True; [f_equal; apply IH|].
    by destruct (must_haves !! n); [eauto|].
Qed.

(** C8, as the code has it. [clean] returns a frame for every partition.
    With [renamed] the partition after the two renamings, the result has the
    columns of [renamed] whose name is a key of [must_haves], in order, and
    no other.  A kept column that was a string column becomes
    [datetime64[ms]] when it is named [pickup_datetime] or
    [dropoff_datetime] and [float32] otherwise; one of an integer dtype
    becomes [int32], one of a floating dtype [float32], and one of any other
    dtype (an already parsed datetime, a boolean) keeps its dtype.  So no
    kept column is a string column or has an integer or floating dtype other
    than [int32] and [float32].  Except in the string columns converted to
    datetimes, no null is left: every null has become -1. *)
Theorem clean_spec (df_part : dataframe) (remap must_haves : gmap string string) :
  let renamed :=
    rename remap (rename (strip_lower_map (columns df_part)) df_part) in
  ∃ out,
    clean df_part remap must_haves = Some out ∧
    columns out = filter (λ n, is_Some (must_haves !! n)) (columns renamed) ∧
    ∀ n c', (n, c') ∈ out →
      is_Some (must_haves !! n) ∧
      ∃ c, (n, c) ∈ renamed ∧
        col_dtype c' = cleaned_dtype n (col_dtype c) ∧
        (col_dtype c' ∉
           [object; int8; int16; int64; uint8; uint16; uint32; uint64;
            float64]) ∧
        length (col_cells c') = length (col_cells c) ∧
        (¬ (col_dtype c = object ∧ n ∈ datetime_columns) →
           Forall is_Some (col_cells c') ∧
           ∀ k : nat, col_cells c !! k = Some None →
             col_cells c' !! k = Some (Some (minus_one n (col_dtype c)))).
Proof.
  intros renamed. eexists. split; [apply clean_omap|].
  fold renamed. split; [apply columns_omap_keep|].
  intros n c' Hin.
  apply list_elem_of_omap in Hin as ([n0 c] & Hin & Hkeep).
  unfold Taxi.keep_column in Hkeep. simpl in Hkeep.
  case_bool_decide as Hmust; [done|].
  injection Hkeep as <- <-. split.
  { by destruct (must_haves !! n0); [eauto|]. }
  exists c. split; [done|]. rewrite convert_column_dtype.
  split; [done|]. split; [apply cleaned_dtype_32bit|].
  split; [apply convert_column_length|].
  apply convert_column_nulls.
Qed.

End CleanFacts.

(** C8 as stated fails on a partition whose [pickup_datetime] column is
    already a parsed datetime column of another unit and whose
    [passenger_count] column is boolean: both are kept as they are. *)
Lemma clean_keeps_other_dtypes :
  let df_part :=
    [ ("pickup_datetime", Taxi.Column (Taxi.datetime64 Taxi.unit_ns) [Some 5]);
      ("passenger_count", Taxi.Column Taxi.bool_ [Some 1]) ] in
  ¬ ∀ out,
      Taxi.clean (λ _ _ x, x) (λ _, 0) (λ _ k, k)
        Taxi.ascii_strip Taxi.ascii_lower df_part
        Taxi.remap Taxi.must_haves = Some out →
      ∀ n c, (n, c) ∈ out →
        if bool_decide (n ∈ Taxi.datetime_columns)
        then Taxi.col_dtype c = Taxi.datetime64 Taxi.unit_ms
        else Taxi.col_dtype c = Taxi.int32 ∨ Taxi.col_dtype c = Taxi.float32.
Proof.
  intros df_part H.
  specialize (H _ eq_refl "pickup_datetime"
                (Taxi.Column (Taxi.datetime64 Taxi.unit_ns) [Some 5])).
  by specialize (H ltac:(apply list_elem_of_here)).
Qed.

Example clean_run :
  Taxi.clean (λ _ _ x, x) (λ _, 0) (λ _ k, k)
    Taxi.ascii_strip Taxi.ascii_lower
    [ (" Fare_Amount ", Taxi.Column Taxi.float64 [Some 7; None]);
      ("VendorID", Taxi.Column Taxi.int64 [Some 1; Some 2]);
      ("RateCodeID", Taxi.Column Taxi.int64 [None; Some 2]);
      ("tpep_pickup_datetime", Taxi.Column Taxi.object [Some 3; None]);
      ("trip_distance", Taxi.Column Taxi.object [None; Some 4]) ]
    Taxi.remap Taxi.must_haves
  = Some
    [ ("fare_amount", Taxi.Column Taxi.float32 [Some 7; Some (-1)]);
      ("rate_code", Taxi.Column Taxi.int32 [Some (-1); Some 2]);
      ("pickup_datetime",
       Taxi.Column (Taxi.datetime64 Taxi.unit_ms) [Some 3; None]);
      ("trip_distance", Taxi.Column Taxi.float32 [Some 0; Some 4]) ].
Proof. vm_compute. reflexivity. Qed.

(** ** The façade *)

Section FacadeFacts.

Import Facade.

Context {V E : Type}.

Local Abbreviation pool := (@pool V E).
Local Abbreviation task := (@task V E).
Local Abbreviation status := (@status V E).

Implicit Types (p : pool) (t : task) (h c d : handle) (ev : event).

(** *** The effect of a status change *)

Lemma set_status_lookup h s ev p h' :
  tasks (set_status h s ev p) !! h' =
    if decide (h = h')
    then (λ t, Task (fn t) (args t) s (detached t)) <$> tasks p !! h
    else tasks p !! h'.
Proof. unfold set_status. simpl. apply list_lookup_alter. Qed.

Lemma set_status_length h s ev p :
  length (tasks (set_status h s ev p)) = length (tasks p).
Proof. unfold set_status. simpl. apply length_alter. Qed.

Lemma set_status_status_eq h s ev p t :
  tasks p !! h = Some t → status_of (set_status h s ev p) h = Some s.
Proof.
  intros Ht. unfold status_of. rewrite set_status_lookup, decide_True by done.
  by rewrite Ht.
Qed.

Lemma set_status_status_ne h s ev p h' :
  h ≠ h' → status_of (set_status h s ev p) h' = status_of p h'.
Proof.
  intros Hne. unfold status_of. by rewrite set_status_lookup, decide_False.
Qed.

Lemma set_status_deps h s ev p h' :
  deps_at (set_status h s ev p) h' = deps_at p h'.
Proof.
  unfold deps_at. rewrite set_status_lookup.
  case_decide as Heq; [|done]. subst h'. by destruct (tasks p !! h).
Qed.

Lemma step_at_cases h p p' :
  step_at h p = Some p' →
  ∃ t, tasks p !! h = Some t ∧ step_case h p t p'.
Proof.
  unfold step_at. intros Hstep.
  destruct (tasks p !! h) as [t|] eqn:Ht; [|done]. simpl in Hstep.
  exists t. split; [done|].
  destruct (st t) as [|inputs|v|e] eqn:Hst; [| |done|done].
  - destruct (first_failure p (deps t)) as [e|] eqn:Hff.
    + injection Hstep as <-. by eapply case_propagate.
    + destruct (mapM (resolve p) (args t)) as [inputs|] eqn:Hin; [|done].
      injection Hstep as <-. by eapply case_claim.
  - destruct (fn t inputs) as [v|e] eqn:Hfn; injection Hstep as <-.
    + by eapply case_return.
    + by eapply case_raise.
Qed.

Lemma step_case_not_terminal h p t p' :
  step_case h p t p' → terminal (st t) = false.
Proof. by intros [? -> _| ? -> _ _| ? ? -> _| ? ? -> _]. Qed.

(** *** Settled tasks stay settled *)

Lemma settled_kept_set_status h s ev p t :
  tasks p !! h = Some t → terminal (st t) = false →
  settled_kept p (set_status h s ev p).
Proof.
  intros Ht Hnt d s' Hd Hs'.
  rewrite set_status_status_ne; [done|]. intros <-.
  unfold status_of in Hd. rewrite Ht in Hd. simpl in Hd.
  injection Hd as <-. congruence.
Qed.

Lemma settled_kept_submit f l p : settled_kept p (submit f l p).2.
Proof.
  intros d s Hd _. unfold status_of in *. simpl.
  destruct (tasks p !! d) as [t|] eqn:Ht; [|done].
  by rewrite (lookup_app_l_Some _ _ _ _ Ht).
Qed.

Lemma detach_status h p d :
  status_of (fire_and_forget h p) d = status_of p d.
Proof.
  unfold status_of, fire_and_forget. simpl. rewrite list_lookup_alter.
  case_decide as Heq; [|done]. subst d. by destruct (tasks p !! h).
Qed.

Lemma resolve_kept p p' a v :
  settled_kept p p' → resolve p a = Some v → resolve p' a = Some v.
Proof.
  intros Hk. destruct a as [w|d]; [done|]. simpl.
  destruct (status_of p d) as [[| |w|]|] eqn:Hd; try done.
  intros [= ->]. by rewrite (Hk _ _ Hd).
Qed.

Lemma inputs_kept p p' (l : list arg) inputs :
  settled_kept p p' →
  mapM (resolve p) l = Some inputs → mapM (resolve p') l = Some inputs.
Proof.
  intros Hk. rewrite !mapM_Some. intros Hall.
  eapply Forall2_impl; [exact Hall|].
  intros a v. by apply resolve_kept.
Qed.

(** Resolved arguments mean finished dependencies. *)
Lemma inputs_finished p t inputs d :
  mapM (resolve p) (args t) = Some inputs → d ∈ deps t →
  ∃ v, status_of p d = Some (Finished v).
Proof.
  intros Hin Hd. unfold deps, handles in Hd.
  apply list_elem_of_omap in Hd as (a & Ha & Hd).
  destruct a as [|d']; [done|]. injection Hd as ->.
  apply mapM_Some in Hin.
  destruct (proj1 (list_elem_of_lookup _ _) Ha) as [i Hi].
  destruct (Forall2_lookup_l _ _ _ _ _ Hin Hi) as (v & _ & Hres).
  simpl in Hres. destruct (status_of p d) as [[| |w|]|]; try done. eauto.
Qed.

Lemma first_failure_Some p ds e :
  first_failure p ds = Some e →
  ∃ d, d ∈ ds ∧ status_of p d = Some (Failed e).
Proof.
  unfold first_failure. intros Hhead.
  assert (e ∈ omap (failure_of p) ds) as Hin.
  { destruct (omap (failure_of p) ds); [done|].
    injection Hhead as ->. apply list_elem_of_here. }
  apply list_elem_of_omap in Hin as (d & Hd & Hf).
  exists d. split; [done|]. unfold failure_of in Hf.
  by destruct (status_of p d) as [[| | |e']|]; simplify_eq.
Qed.

Lemma first_failure_None p ds d e :
  first_failure p ds = None → d ∈ ds → status_of p d ≠ Some (Failed e).
Proof.
  unfold first_failure. intros Hhead Hd Hst.
  assert (e ∈ omap (failure_of p) ds) as Hin.
  { apply list_elem_of_omap. exists d. split; [done|].
    unfold failure_of. by rewrite Hst. }
  destruct (omap (failure_of p) ds); [by apply elem_of_nil in Hin|done].
Qed.

Lemma task_inv_kept p p' h t :
  settled_kept p p' →
  (Started h ∈ log p' → Started h ∈ log p) →
  (∀ ev, ev ∈ log p → ev ∈ log p') →
  task_inv p h t → task_inv p' h t.
Proof.
  intros Hk Hback Hfwd. unfold task_inv.
  destruct (st t) as [|inputs|v|e].
  - eauto.
  - intros [Hin Hs]. split; eauto using inputs_kept.
  - intros (inputs & Hin & Hfn & Hs & Hr).
    exists inputs. repeat split; eauto using inputs_kept.
  - intros [(inputs & Hin & Hfn & Hs)|(Hs & d & e' & Hd & Hst)].
    + left. exists inputs. repeat split; eauto using inputs_kept.
    + right. split; [eauto|]. exists d, e'. split; [done|].
      by apply (Hk _ _ Hst).
Qed.

Lemma chronological_ext dps dps' (l : list event) :
  (∀ c, Started c ∈ l → dps c = dps' c) →
  chronological dps l → chronological dps' l.
Proof.
  induction l as [|ev l IH]; intros Hext; [done|].
  simpl. intros [Hl Hev]. split.
  - apply IH; [|done]. intros c Hc. by apply Hext, list_elem_of_further.
  - destruct ev as [c|c ok|c]; [|done..].
    destruct Hev as [Hnew Hdeps]. split; [done|].
    rewrite <- (Hext c) by apply list_elem_of_here. done.
Qed.

(** *** The invariant of reachable pools *)

Lemma pool_inv_init : pool_inv (@init V E).
Proof.
  split; simpl; [intros h t Ht; by rewrite lookup_nil in Ht.. | done |].
  by intros h ?%elem_of_nil.
Qed.

Lemma pool_inv_submit f (l : list arg) p :
  pool_inv p →
  Forall (λ d, d < length (tasks p))%nat (handles l) →
  pool_inv (submit f l p).2.
Proof.
  intros [Hback Htask Hlog Hstarted] Hl. split; simpl.
  - intros h t [Ht|[Hlen Ht]]%lookup_app_Some; [by eapply Hback|].
    apply list_lookup_singleton_Some in Ht as [Hh <-].
    unfold deps. simpl. eapply Forall_impl; [exact Hl|].
    intros d Hd. simpl in Hd. lia.
  - intros h t [Ht|[Hlen Ht]]%lookup_app_Some.
    + eapply task_inv_kept; [apply settled_kept_submit|done|done|].
      by apply Htask.
    + apply list_lookup_singleton_Some in Ht as [Hh <-].
      unfold task_inv. simpl. intros Hs%Hstarted. lia.
  - eapply chronological_ext; [|exact Hlog].
    intros c Hc%Hstarted. unfold deps_at. simpl.
    by rewrite lookup_app_l.
  - intros h Hs%Hstarted. rewrite length_app. lia.
Qed.

Lemma pool_inv_detach h p : pool_inv p → pool_inv (fire_and_forget h p).
Proof.
  intros [Hback Htask Hlog Hstarted].
  assert (settled_kept p (fire_and_forget h p)) as Hk.
  { intros d s Hd _. by rewrite detach_status. }
  split; simpl.
  - intros h' t'. rewrite list_lookup_alter. case_decide as Heq.
    + subst h'. destruct (tasks p !! h) as [t|] eqn:Ht; [|done].
      intros [= <-]. by apply (Hback h t).
    + apply Hback.
  - intros h' t'. rewrite list_lookup_alter. case_decide as Heq.
    + subst h'. destruct (tasks p !! h) as [t|] eqn:Ht; [|done].
      intros [= <-].
      by apply (task_inv_kept p (fire_and_forget h p) h t Hk), Htask.
    + intros Ht'. by apply (task_inv_kept p), Htask.
  - eapply chronological_ext; [|exact Hlog].
    intros c _. unfold deps_at. simpl. rewrite list_lookup_alter.
    case_decide as Heq; [|done]. subst c. by destruct (tasks p !! h).
  - intros h' Hs%Hstarted. by rewrite length_alter.
Qed.

Lemma pool_inv_set_status p h t s ev :
  pool_inv p → tasks p !! h = Some t → terminal (st t) = false →
  (∀ c, ev = Started c → c = h) →
  task_inv (set_status h s ev p) h (Task (fn t) (args t) s (detached t)) →
  chronological (deps_at p) (ev :: log p) →
  pool_inv (set_status h s ev p).
Proof.
  intros [Hback Htask Hlog Hstarted] Ht Hnt Hev Hnew Hchron.
  pose proof (settled_kept_set_status h s ev p t Ht Hnt) as Hk.
  split.
  - intros h' t'. rewrite set_status_lookup. case_decide as Heq.
    + subst h'. rewrite Ht. intros [= <-]. by apply (Hback h t).
    + apply Hback.
  - intros h' t'. rewrite set_status_lookup. case_decide as Heq.
    + subst h'. rewrite Ht. by intros [= <-].
    + intros Ht'. eapply task_inv_kept; [exact Hk| | |by apply Htask].
      * simpl. intros [Hs|Hs]%elem_of_cons; [|done].
        symmetry in Hs. apply Hev in Hs. congruence.
      * intros ev' Hev'. by apply list_elem_of_further.
  - eapply chronological_ext; [|exact Hchron].
    intros c _. by rewrite set_status_deps.
  - intros c. rewrite set_status_length. simpl.
    intros [Hs|Hs]%elem_of_cons; [|by apply Hstarted].
    symmetry in Hs. apply Hev in Hs. subst c. by eapply lookup_lt_Some.
Qed.

Lemma finished_returned p d v :
  pool_inv p → status_of p d = Some (Finished v) → Returned d true ∈ log p.
Proof.
  intros Hinv Hd. unfold status_of in Hd.
  destruct (tasks p !! d) as [td|] eqn:Htd; [|done].
  simpl in Hd. injection Hd as Hst.
  pose proof (inv_task p Hinv d td Htd) as Hi.
  unfold task_inv in Hi. rewrite Hst in Hi. by destruct Hi as (? & ? & ? & ? & ?).
Qed.

Lemma pool_inv_step p h t p' :
  pool_inv p → tasks p !! h = Some t → step_case h p t p' → pool_inv p'.
Proof.
  intros Hinv Ht Hcase.
  pose proof (step_case_not_terminal _ _ _ _ Hcase) as Hnt.
  pose proof (inv_task p Hinv h t Ht) as Hi. unfold task_inv in Hi.
  pose proof (inv_log p Hinv) as Hlog.
  destruct Hcase as [e Hst Hff|inputs Hst Hff Hin|inputs v Hst Hfn|inputs e Hst Hfn];
    rewrite Hst in Hi;
    (apply (pool_inv_set_status p h t); [done|done|done| | |]);
    try (intros c [=]; done); unfold task_inv; simpl.
  - right. split.
    { rewrite not_elem_of_cons. by split. }
    destruct (first_failure_Some _ _ _ Hff) as (d & Hd & Hsd).
    exists d, e. split; [done|].
    by apply (settled_kept_set_status h _ _ p t Ht Hnt).
  - done.
  - split; [|apply list_elem_of_here].
    eapply inputs_kept; [|exact Hin].
    by apply (settled_kept_set_status h _ _ p t).
  - split; [done|]. split; [done|].
    intros d Hd. unfold deps_at in Hd. rewrite Ht in Hd. simpl in Hd.
    destruct (inputs_finished p t inputs d Hin Hd) as [v Hv].
    by eapply finished_returned.
  - destruct Hi as [Hin Hs]. exists inputs. split.
    { eapply inputs_kept; [|exact Hin].
      by apply (settled_kept_set_status h _ _ p t). }
    split; [done|]. split; [by apply list_elem_of_further|].
    apply list_elem_of_here.
  - by destruct Hi.
  - destruct Hi as [Hin Hs]. left. exists inputs. split.
    { eapply inputs_kept; [|exact Hin].
      by apply (settled_kept_set_status h _ _ p t). }
    split; [done|]. by apply list_elem_of_further.
  - by destruct Hi.
Qed.

Lemma reachable_inv p : reachable p → pool_inv p.
Proof.
  induction 1 as [|p f l _ IH Hl|p h _ IH|p h p' _ IH Hstep].
  - apply pool_inv_init.
  - by apply pool_inv_submit.
  - by apply pool_inv_detach.
  - apply step_at_cases in Hstep as (t & Ht & Hcase).
    by eapply pool_inv_step.
Qed.

Lemma reachable_try_step p h : reachable p → reachable (try_step p h).
Proof.
  intros Hp. unfold try_step.
  destruct (step_at h p) as [p'|] eqn:Hstep; [|done].
  by eapply reachable_step.
Qed.

Lemma reachable_run schedule : ∀ p, reachable p → reachable (run schedule p).
Proof.
  unfold run. induction schedule as [|h schedule IH]; intros p Hp; [done|].
  simpl. by apply IH, reachable_try_step.
Qed.

(** *** Dependencies of started and finished tasks *)

Lemma started_deps_finished p c t d :
  pool_inv p → tasks p !! c = Some t → Started c ∈ log p → d ∈ deps t →
  ∃ v, status_of p d = Some (Finished v).
Proof.
  intros Hinv Ht Hs Hd.
  pose proof (inv_task p Hinv c t Ht) as Hi. unfold task_inv in Hi.
  destruct (st t) as [|inputs|v|e].
  - done.
  - destruct Hi as [Hin _]. by eapply inputs_finished.
  - destruct Hi as (inputs & Hin & _). by eapply inputs_finished.
  - destruct Hi as [(inputs & Hin & _)|[Hns _]]; [|done].
    by eapply inputs_finished.
Qed.

Lemma finished_started p c v :
  pool_inv p → status_of p c = Some (Finished v) → Started c ∈ log p.
Proof.
  intros Hinv Hc. unfold status_of in Hc.
  destruct (tasks p !! c) as [t|] eqn:Ht; [|done].
  simpl in Hc. injection Hc as Hst.
  pose proof (inv_task p Hinv c t Ht) as Hi. unfold task_inv in Hi.
  rewrite Hst in Hi. by destruct Hi as (? & ? & ? & ? & ?).
Qed.

Lemma started_depends_finished p c a :
  pool_inv p → Started c ∈ log p → depends (tasks p) c a →
  ∃ v, status_of p a = Some (Finished v).
Proof.
  intros Hinv Hs Hdep.
  induction Hdep as [c t a Ht Ha|c t b a Ht Hb _ IH].
  - by eapply started_deps_finished.
  - destruct (started_deps_finished p c t b) as [v Hv]; [done..|].
    apply IH. by eapply finished_started.
Qed.

(** *** The order of the record *)

Lemma chronological_suffix dps (newer older : list event) :
  chronological dps (newer ++ older) → chronological dps older.
Proof.
  induction newer as [|ev newer IH]; [done|]. simpl. intros [Hl _]. auto.
Qed.

Lemma returned_after_started dps (l : list event) b ok :
  chronological dps l → Returned b ok ∈ l →
  ∃ newer older, l = newer ++ Started b :: older.
Proof.
  intros Hl Hin. apply list_elem_of_split in Hin as (l1 & l2 & ->).
  apply chronological_suffix in Hl. simpl in Hl. destruct Hl as [_ Hs].
  apply list_elem_of_split in Hs as (l3 & l4 & ->).
  exists (l1 ++ Returned b ok :: l3), l4. by rewrite <- app_assoc.
Qed.

Lemma started_after_deps dps (newer older : list event) c d :
  chronological dps (newer ++ Started c :: older) → d ∈ dps c →
  Returned d true ∈ older.
Proof.
  intros Hl Hd. apply chronological_suffix in Hl. simpl in Hl.
  destruct Hl as (_ & _ & Hdeps). auto.
Qed.

(** C1. In every pool that submissions, detachments and steps of the
    workers lead to: when task [c] was submitted with the handle of [b]
    among its arguments and [b] with the handle of [a], then at the point
    of the record where a worker starts [c], both [a] and [b] have already
    returned successfully. *)
Theorem chain_runs_in_order p a b c tb tc (newer older : list event) :
  reachable p →
  tasks p !! b = Some tb → a ∈ deps tb →
  tasks p !! c = Some tc → b ∈ deps tc →
  log p = newer ++ Started c :: older →
  Returned a true ∈ older ∧ Returned b true ∈ older.
Proof.
  intros Hinv%reachable_inv Htb Ha Htc Hb Hlog.
  pose proof (inv_log p Hinv) as Hchron. rewrite Hlog in Hchron.
  assert (Returned b true ∈ older) as Hbret.
  { eapply started_after_deps; [exact Hchron|].
    unfold deps_at. by rewrite Htc. }
  split; [|done].
  apply chronological_suffix in Hchron. simpl in Hchron.
  destruct Hchron as (Holder & _).
  destruct (returned_after_started _ _ _ _ Holder Hbret)
    as (l1 & l2 & ->).
  apply elem_of_app. right. apply list_elem_of_further.
  eapply started_after_deps; [exact Holder|].
  unfold deps_at. by rewrite Htb.
Qed.

(** *** What the tasks compute *)

Lemma ref_deps t d : Ref d ∈ args t ↔ d ∈ deps t.
Proof.
  unfold deps, handles. rewrite list_elem_of_omap. split.
  - intros Hin. by exists (Ref d).
  - intros ([v|d'] & Hin & Heq); [done|]. by injection Heq as ->.
Qed.

Lemma outcomes_snoc (ts : list task) t :
  outcomes (ts ++ [t]) = outcomes ts ++ [eval_task (outcomes ts) t].
Proof. unfold outcomes. by rewrite foldl_app. Qed.

Lemma outcomes_length (ts : list task) : length (outcomes ts) = length ts.
Proof.
  induction ts as [|t ts IH] using rev_ind; [done|].
  rewrite outcomes_snoc, !length_app, IH. done.
Qed.

Lemma eval_task_ext (outs outs' : list (option V)) t t' :
  fn t = fn t' → args t = args t' →
  (∀ d, d ∈ deps t → mjoin (outs !! d) = mjoin (outs' !! d)) →
  eval_task outs t = eval_task outs' t'.
Proof.
  intros Hfn Hargs Hext. unfold eval_task. rewrite <- Hfn, <- Hargs.
  rewrite (Forall_mapM_ext (resolve_out outs) (resolve_out outs')); [done|].
  apply Forall_forall. intros [v|d] Hin; [done|]. simpl.
  by apply Hext, ref_deps.
Qed.

Lemma outcomes_lookup (ts : list task) h t :
  backward ts → ts !! h = Some t →
  outcomes ts !! h = Some (eval_task (outcomes ts) t).
Proof.
  revert h t. induction ts as [|x ts IH] using rev_ind; intros h t Hb Ht.
  { by rewrite lookup_nil in Ht. }
  assert (backward ts) as Hb'.
  { intros h' t' Ht'. apply (Hb h' t'). by apply lookup_app_l_Some. }
  pose proof (Hb h t Ht) as Hdeps. rewrite Forall_forall in Hdeps.
  rewrite outcomes_snoc.
  apply lookup_app_Some in Ht as [Ht|[Hlen Ht]].
  - pose proof (lookup_lt_Some _ _ _ Ht) as Hlt.
    rewrite lookup_app_l by (rewrite outcomes_length; lia).
    rewrite (IH h t Hb' Ht). f_equal. apply eval_task_ext; [done..|].
    intros d Hd%Hdeps.
    by rewrite lookup_app_l by (rewrite outcomes_length; lia).
  - apply list_lookup_singleton_Some in Ht as [Hh <-].
    assert (h = length ts) as -> by lia.
    rewrite list_lookup_middle by (by rewrite outcomes_length).
    f_equal. apply eval_task_ext; [done..|].
    intros d Hd%Hdeps.
    by rewrite lookup_app_l by (rewrite outcomes_length; lia).
Qed.

Lemma outcome_eval (ts : list task) h t :
  backward ts → ts !! h = Some t →
  outcome ts h = eval_task (outcomes ts) t.
Proof.
  intros Hb Ht. unfold outcome. by rewrite (outcomes_lookup ts h t).
Qed.

(** A finished task holds the value the tasks compute for it, and a
    failed task is one they compute no value for, whatever the schedule
    was. *)
Lemma settled_outcome p :
  pool_inv p → ∀ h t, tasks p !! h = Some t →
  match st t with
  | Finished v => outcome (tasks p) h = Some v
  | Failed _ => outcome (tasks p) h = None
  | _ => True
  end.
Proof.
  intros Hinv h. induction h as [h IH] using lt_wf_ind. intros t Ht.
  pose proof (inv_backward p Hinv) as Hb.
  pose proof (Hb h t Ht) as Hdeps. rewrite Forall_forall in Hdeps.
  pose proof (inv_task p Hinv h t Ht) as Hi. unfold task_inv in Hi.
  assert (∀ inputs, mapM (resolve p) (args t) = Some inputs →
            mapM (resolve_out (outcomes (tasks p))) (args t) = Some inputs)
    as Hsame.
  { intros inputs Hin. rewrite <- Hin. apply Forall_mapM_ext, Forall_forall.
    intros [v|d] Ha; [done|]. apply ref_deps in Ha. simpl.
    destruct (inputs_finished p t inputs d Hin Ha) as [v Hv].
    rewrite Hv. unfold status_of in Hv.
    destruct (tasks p !! d) as [td|] eqn:Htd; [|done].
    simpl in Hv. injection Hv as Hst.
    specialize (IH d (Hdeps d Ha) td Htd). by rewrite Hst in IH. }
  rewrite (outcome_eval _ h t Hb Ht). unfold eval_task.
  destruct (st t) as [|inputs|v|e]; [done|done| |].
  - destruct Hi as (inputs & Hin & Hfn & _).
    rewrite (Hsame _ Hin). simpl. by rewrite Hfn.
  - destruct Hi as [(inputs & Hin & Hfn & _)|(_ & d & e' & Hd & Hst)].
    + rewrite (Hsame _ Hin). simpl. by rewrite Hfn.
    + rewrite (proj2 (mapM_None _ _)); [done|].
      apply Exists_exists. exists (Ref d). split; [by apply ref_deps|].
      simpl. unfold status_of in Hst.
      destruct (tasks p !! d) as [td|] eqn:Htd; [|done].
      simpl in Hst. injection Hst as Hst.
      specialize (IH d (Hdeps d Hd) td Htd). by rewrite Hst in IH.
Qed.

(** *** Steps of the pool *)

Lemma try_step_cases p h :
  try_step p h = p ∨
  ∃ t, tasks p !! h = Some t ∧ step_case h p t (try_step p h).
Proof.
  unfold try_step. destruct (step_at h p) as [p'|] eqn:Hstep; [|by left].
  right. by apply step_at_cases.
Qed.

Lemma step_case_shape h p t p' :
  step_case h p t p' → ∃ s ev, p' = set_status h s ev p.
Proof. destruct 1; eauto. Qed.

Lemma try_step_inv p h : pool_inv p → pool_inv (try_step p h).
Proof.
  intros Hinv. destruct (try_step_cases p h) as [->|(t & Ht & Hcase)]; [done|].
  by eapply pool_inv_step.
Qed.

Lemma try_step_deps p h h' : deps_at (try_step p h) h' = deps_at p h'.
Proof.
  destruct (try_step_cases p h) as [->|(t & Ht & Hcase)]; [done|].
  apply step_case_shape in Hcase as (s & ev & ->). apply set_status_deps.
Qed.

Lemma try_step_length p h : length (tasks (try_step p h)) = length (tasks p).
Proof.
  destruct (try_step_cases p h) as [->|(t & Ht & Hcase)]; [done|].
  apply step_case_shape in Hcase as (s & ev & ->). apply set_status_length.
Qed.

Lemma try_step_kept p h : settled_kept p (try_step p h).
Proof.
  destruct (try_step_cases p h) as [->|(t & Ht & Hcase)]; [by intros d s|].
  pose proof (step_case_not_terminal _ _ _ _ Hcase) as Hnt.
  apply step_case_shape in Hcase as (s & ev & ->).
  by eapply settled_kept_set_status.
Qed.


Lemma settled_kept_settled p p' h :
  settled_kept p p' → settled p h = true → settled p' h = true.
Proof.
  intros Hk. unfold settled.
  destruct (status_of p h) as [s|] eqn:Hs; [|done]. simpl.
  intros Ht. by rewrite (Hk _ _ Hs Ht).
Qed.

Lemma step_at_unfold p h t :
  tasks p !! h = Some t →
  step_at h p =
    match st t with
    | Created =>
        match first_failure p (deps t) with
        | Some e => Some (set_status h (Failed e) (Propagated h) p)
        | None =>
            inputs ← mapM (resolve p) (args t);
            Some (set_status h (Running inputs) (Started h) p)
        end
    | Running inputs =>
        match fn t inputs with
        | inl v => Some (set_status h (Finished v) (Returned h true) p)
        | inr e => Some (set_status h (Failed e) (Returned h false) p)
        end
    | Finished _ | Failed _ => None
    end.
Proof. intros Ht. unfold step_at. by rewrite Ht. Qed.

Lemma set_status_settled h s ev p t :
  tasks p !! h = Some t → terminal s = true →
  settled (set_status h s ev p) h = true.
Proof.
  intros Ht Hs. unfold settled. by rewrite (set_status_status_eq h s ev p t).
Qed.

(** A running task settles at the next turn of a worker to it. *)
Lemma running_settles p h t inputs :
  tasks p !! h = Some t → st t = Running inputs →
  settled (try_step p h) h = true.
Proof.
  intros Ht Hst. unfold try_step.
  rewrite (step_at_unfold p h t Ht), Hst.
  destruct (fn t inputs); simpl; by eapply set_status_settled.
Qed.

(** A task whose dependencies are all settled settles within two turns. *)
Lemma two_turns_settle p h t :
  tasks p !! h = Some t →
  (∀ d, d ∈ deps t → settled p d = true) →
  settled (try_step (try_step p h) h) h = true.
Proof.
  intros Ht Hdeps.
  destruct (st t) as [|inputs|v|e] eqn:Hst.
  - destruct (first_failure p (deps t)) as [e|] eqn:Hff.
    + apply (settled_kept_settled (try_step p h)); [apply try_step_kept|].
      unfold try_step. rewrite (step_at_unfold p h t Ht), Hst, Hff. simpl.
      by eapply set_status_settled.
    + assert (is_Some (mapM (resolve p) (args t))) as [inputs Hin].
      { apply mapM_is_Some_2, Forall_forall. intros [v|d] Ha; [by eexists|].
        apply ref_deps in Ha. simpl.
        pose proof (Hdeps d Ha) as Hd. unfold settled in Hd.
        pose proof (first_failure_None p (deps t) d) as Hnf.
        destruct (status_of p d) as [[| |v|e]|]; try done.
        by destruct (Hnf e Hff Ha). }
      assert (try_step p h = set_status h (Running inputs) (Started h) p)
        as ->.
      { unfold try_step.
        by rewrite (step_at_unfold p h t Ht), Hst, Hff, Hin. }
      eapply (running_settles _ h _ inputs).
      * rewrite set_status_lookup, decide_True, Ht by done. done.
      * done.
  - apply (settled_kept_settled (try_step p h)); [apply try_step_kept|].
    by eapply running_settles.
  - apply (settled_kept_settled (try_step p h)); [apply try_step_kept|].
    apply (settled_kept_settled p); [apply try_step_kept|].
    unfold settled, status_of. by rewrite Ht; simpl; rewrite Hst.
  - apply (settled_kept_settled (try_step p h)); [apply try_step_kept|].
    apply (settled_kept_settled p); [apply try_step_kept|].
    unfold settled, status_of. by rewrite Ht; simpl; rewrite Hst.
Qed.

Lemma run_app (l1 l2 : list handle) p : run (l1 ++ l2) p = run l2 (run l1 p).
Proof. unfold run. apply foldl_app. Qed.

Lemma run_inv schedule : ∀ p, pool_inv p → pool_inv (run schedule p).
Proof.
  induction schedule as [|h schedule IH]; intros p Hp; [done|].
  apply IH, try_step_inv, Hp.
Qed.

Lemma run_deps schedule : ∀ p h, deps_at (run schedule p) h = deps_at p h.
Proof.
  induction schedule as [|h' schedule IH]; intros p h; [done|].
  unfold run in *. simpl. by rewrite IH, try_step_deps.
Qed.

Lemma run_length schedule : ∀ p,
  length (tasks (run schedule p)) = length (tasks p).
Proof.
  induction schedule as [|h' schedule IH]; intros p; [done|].
  unfold run in *. simpl. by rewrite IH, try_step_length.
Qed.

Lemma run_kept schedule : ∀ p, settled_kept p (run schedule p).
Proof.
  induction schedule as [|h' schedule IH]; intros p; [by intros d s|].
  intros d s Hd Hs. apply (IH (try_step p h')); [|done].
  by apply try_step_kept.
Qed.


(** *** Running to completion *)

Lemma twice_app (l1 l2 : list handle) : twice (l1 ++ l2) = twice l1 ++ twice l2.
Proof. unfold twice. apply bind_app. Qed.

(** Within a set [U] of tasks that holds the dependencies of its members,
    turning twice to each member in submission order settles them all. *)
Lemma run_within_settles (U : handle → bool) p :
  pool_inv p →
  (∀ h d, U h = true → d ∈ deps_at p h → U d = true) →
  ∀ n, (n ≤ length (tasks p))%nat →
  ∀ h, (h < n)%nat → U h = true →
  settled (run (twice (List.filter U (seq 0 n))) p) h = true.
Proof.
  intros Hinv Hclosed. induction n as [|n IH]; intros Hn h Hh HU; [lia|].
  rewrite seq_S, List.filter_app, twice_app, run_app. simpl.
  set (p' := run (twice (List.filter U (seq 0 n))) p) in *.
  destruct (U n) eqn:HUn; simpl.
  2:{ apply IH; [lia| |done]. destruct (decide (h = n)); [congruence|lia]. }
  change (settled (try_step (try_step p' n) n) h = true).
  destruct (decide (h = n)) as [->|Hne].
  - destruct (lookup_lt_is_Some_2 (tasks p') n) as [t Ht].
    { unfold p'. rewrite run_length. lia. }
    apply (two_turns_settle p' n t Ht). intros d Hd.
    assert (d ∈ deps_at p n) as Hd'.
    { unfold p' in Ht. rewrite <- (run_deps (twice (List.filter U (seq 0 n)))).
      unfold deps_at. by rewrite Ht. }
    apply IH; [lia| |by eapply Hclosed].
    pose proof (inv_backward _ (run_inv _ _ Hinv) n t Ht) as Hb.
    rewrite Forall_forall in Hb. by apply Hb.
  - apply (settled_kept_settled (try_step p' n)); [apply try_step_kept|].
    apply (settled_kept_settled p'); [apply try_step_kept|].
    apply IH; [lia|lia|done].
Qed.

Lemma all_terminal_Forall (hs : list handle) p :
  all_terminal hs p = true ↔ Forall (λ h, settled p h = true) hs.
Proof.
  unfold all_terminal. rewrite <- Is_true_true, forallb_True.
  apply Forall_proper; [|done]. intros h. apply Is_true_true.
Qed.

Lemma drain_settles_within (U : handle → bool) p (hs : list handle) :
  pool_inv p →
  (∀ h d, U h = true → d ∈ deps_at p h → U d = true) →
  Forall (λ h, (h < length (tasks p))%nat ∧ U h = true) hs →
  all_terminal hs (run (schedule_within U p) p) = true.
Proof.
  intros Hinv Hclosed Hhs. apply all_terminal_Forall.
  eapply Forall_impl; [exact Hhs|]. intros h [Hlt HU]. simpl.
  by apply (run_within_settles U p Hinv Hclosed (length (tasks p))).
Qed.

(** *** [wait] *)

Lemma wait_returns schedule : ∀ (hs : list handle) p,
  all_terminal hs (run schedule p) = true →
  ∃ prefix rest,
    schedule = prefix ++ rest ∧
    wait schedule hs p
      = Some (summarize hs (run prefix p), run prefix p) ∧
    all_terminal hs (run prefix p) = true.
Proof.
  induction schedule as [|h schedule IH]; intros hs p Hall.
  - exists [], []. simpl in *. by rewrite Hall.
  - simpl. destruct (all_terminal hs p) eqn:Hnow.
    + by exists [], (h :: schedule).
    + destruct (IH hs (try_step p h) Hall) as (prefix & rest & -> & Hw & Ht).
      by exists (h :: prefix), rest.
Qed.

Lemma wait_inv schedule : ∀ (hs : list handle) p sm p',
  wait schedule hs p = Some (sm, p') →
  ∃ prefix rest,
    schedule = prefix ++ rest ∧ p' = run prefix p ∧
    sm = summarize hs p' ∧ all_terminal hs p' = true.
Proof.
  induction schedule as [|h schedule IH]; intros hs p sm p'; simpl.
  - destruct (all_terminal hs p) eqn:Hnow; [|done].
    intros [= <- <-]. by exists [], [].
  - destruct (all_terminal hs p) eqn:Hnow.
    + intros [= <- <-]. by exists [], (h :: schedule).
    + intros (prefix & rest & -> & -> & -> & Ht)%IH.
      by exists (h :: prefix), rest.
Qed.

(** *** The summary is what the tasks compute *)

Lemma outcomes_same_code (ts : list task) : ∀ ts' : list task,
  Forall2 same_code ts ts' → outcomes ts = outcomes ts'.
Proof.
  induction ts as [|t ts IH] using rev_ind; intros ts' Hall.
  - by apply Forall2_nil_inv_l in Hall as ->.
  - apply Forall2_app_inv_l in Hall as (k1 & k2 & H1 & H2 & ->).
    apply Forall2_cons_inv_l in H2 as (t' & k3 & [Hfn Hargs] & H3 & ->).
    apply Forall2_nil_inv_l in H3 as ->.
    rewrite !outcomes_snoc, <- (IH k1 H1). f_equal. f_equal.
    by apply eval_task_ext.
Qed.

Lemma same_code_alter (f : task → task) h (ts : list task) :
  (∀ t, same_code t (f t)) → Forall2 same_code ts (alter f h ts).
Proof.
  intros Hf. apply Forall2_alter_r.
  - apply Forall_Forall2_diag, Forall_true. by intros t.
  - intros t t' _ _ [H1 H2]. destruct (Hf t') as [H3 H4].
    split; congruence.
Qed.

Lemma try_step_outcomes p h :
  outcomes (tasks (try_step p h)) = outcomes (tasks p).
Proof.
  destruct (try_step_cases p h) as [->|(t & Ht & Hcase)]; [done|].
  apply step_case_shape in Hcase as (s & ev & ->).
  symmetry. apply outcomes_same_code, same_code_alter. by intros t'.
Qed.

Lemma run_outcomes schedule : ∀ p,
  outcomes (tasks (run schedule p)) = outcomes (tasks p).
Proof.
  induction schedule as [|h schedule IH]; intros p; [done|].
  unfold run in *. simpl. by rewrite IH, try_step_outcomes.
Qed.


Lemma settled_status_outcome p h :
  pool_inv p → settled p h = true →
  (∃ v, status_of p h = Some (Finished v) ∧ outcome (tasks p) h = Some v) ∨
  (∃ e, status_of p h = Some (Failed e) ∧ outcome (tasks p) h = None).
Proof.
  intros Hinv Hs. unfold settled, status_of in *.
  destruct (tasks p !! h) as [t|] eqn:Ht; [|done]. simpl in *.
  pose proof (settled_outcome p Hinv h t Ht) as Ho.
  destruct (st t) as [| |v|e]; [done|done|left|right]; eauto.
Qed.

Lemma omap_ext_Forall {A B : Type} (f g : A → option B) (l : list A) :
  Forall (λ x, f x = g x) l → omap f l = omap g l.
Proof.
  induction 1 as [|x l Hx _ IH]; [done|].
  cbn [omap list_omap]. by rewrite Hx, IH.
Qed.

Lemma filter_ext_Forall {A : Type} (f g : A → bool) (l : list A) :
  Forall (λ x, f x = g x) l → List.filter f l = List.filter g l.
Proof.
  induction 1 as [|x l Hx _ IH]; [done|].
  cbn [List.filter]. by rewrite Hx, IH.
Qed.

Lemma summarize_expected p (hs : list handle) :
  pool_inv p → all_terminal hs p = true →
  summarize hs p = expected hs (tasks p).
Proof.
  intros Hinv Hall. apply all_terminal_Forall in Hall.
  unfold summarize, expected. f_equal.
  - apply omap_ext_Forall. eapply Forall_impl; [exact Hall|].
    intros h Hh. simpl in Hh.
    by destruct (settled_status_outcome p h Hinv Hh)
      as [(v & -> & ->)|(e & -> & ->)].
  - apply filter_ext_Forall. eapply Forall_impl; [exact Hall|].
    intros h Hh. simpl in Hh. unfold failure_of.
    by destruct (settled_status_outcome p h Hinv Hh)
      as [(v & -> & ->)|(e & -> & ->)].
Qed.

(** Whatever the pool does while the caller is blocked, when [wait]
    returns its summary is the one the tasks compute. *)
Lemma wait_expected schedule (hs : list handle) p sm p' :
  pool_inv p → wait schedule hs p = Some (sm, p') →
  sm = expected hs (tasks p) ∧ ∃ prefix, p' = run prefix p.
Proof.
  intros Hinv (prefix & rest & -> & -> & -> & Ht)%wait_inv.
  split; [|by eexists].
  rewrite summarize_expected; [|by apply run_inv|done].
  unfold expected, outcome. by rewrite run_outcomes.
Qed.

(** And it does return once the pool has turned to the tasks it needs. *)
Lemma wait_within (U : handle → bool) prefix (hs : list handle) p :
  pool_inv p →
  (∀ h d, U h = true → d ∈ deps_at p h → U d = true) →
  Forall (λ h, (h < length (tasks p))%nat ∧ U h = true) hs →
  ∃ p', wait (prefix ++ schedule_within U p) hs p
          = Some (expected hs (tasks p), p') ∧
        ∃ turns, p' = run turns p ∧
                 ∀ h, h ∈ turns → h ∈ prefix ∨ U h = true.
Proof.
  intros Hinv Hclosed Hhs.
  assert (all_terminal hs (run (prefix ++ schedule_within U p) p) = true)
    as Hall.
  { rewrite run_app.
    assert (schedule_within U p = schedule_within U (run prefix p)) as ->.
    { unfold schedule_within. by rewrite run_length. }
    apply drain_settles_within; [by apply run_inv| |].
    - intros h d. rewrite run_deps. apply Hclosed.
    - by rewrite run_length. }
  destruct (wait_returns _ _ _ Hall) as (turns & rest & Heq & Hw & Ht).
  exists (run turns p). rewrite Hw. split.
  - f_equal. f_equal. rewrite summarize_expected; [|by apply run_inv|done].
    unfold expected, outcome. by rewrite run_outcomes.
  - exists turns. split; [done|]. intros h Hh.
    assert (h ∈ prefix ++ schedule_within U p) as Hin.
    { rewrite Heq. apply elem_of_app. by left. }
    apply elem_of_app in Hin as [Hin|Hin]; [by left|right].
    unfold schedule_within, twice in Hin.
    apply list_elem_of_bind in Hin as (h' & Hin & Hh').
    apply list_elem_of_In, filter_In in Hh' as [_ HU].
    by repeat (apply elem_of_cons in Hin as [->|Hin]; [done|]);
      apply elem_of_nil in Hin.
Qed.

(** *** Tasks that do not depend on one another *)

Lemma backward_alter (f : task → task) a (ts : list task) :
  (∀ t, args (f t) = args t) → backward ts → backward (alter f a ts).
Proof.
  intros Hf Hb h t'. rewrite list_lookup_alter. case_decide as Heq.
  - subst h. destruct (ts !! a) as [t|] eqn:Ht; [|done]. intros [= <-].
    unfold deps. rewrite Hf. by apply (Hb a t).
  - apply Hb.
Qed.

(** The value of a task does not depend on the function of a task it does
    not depend on. *)
Lemma outcome_independent (ts : list task) a f' h :
  backward ts → h ≠ a → ¬ depends ts h a →
  outcome (alter (with_fn f') a ts) h = outcome ts h.
Proof.
  intros Hb. induction h as [h IH] using lt_wf_ind. intros Hne Hnd.
  assert (backward (alter (with_fn f') a ts)) as Hb'.
  { apply backward_alter; [|done]. by intros t. }
  destruct (ts !! h) as [t|] eqn:Ht.
  - assert (alter (with_fn f') a ts !! h = Some t) as Ht'.
    { by rewrite list_lookup_alter_ne. }
    rewrite (outcome_eval _ h t Hb' Ht'), (outcome_eval _ h t Hb Ht).
    apply eval_task_ext; [done..|]. intros d Hd.
    pose proof (Hb h t Ht) as Hlt. rewrite Forall_forall in Hlt.
    apply (IH d (Hlt d Hd)).
    + intros ->. apply Hnd. by eapply depends_direct.
    + intros Hdep. apply Hnd. by eapply depends_trans.
  - unfold outcome. rewrite !lookup_ge_None_2; [done|..].
    + rewrite outcomes_length. by apply lookup_ge_None.
    + rewrite outcomes_length, length_alter. by apply lookup_ge_None.
Qed.







(** *** Started at most once *)

Lemma times_started_0 h (l : list event) :
  Started h ∉ l → times_started h l = 0%nat.
Proof.
  intros Hn. unfold times_started.
  induction l as [|ev l IH]; [done|].
  apply not_elem_of_cons in Hn as [Hne Hn].
  rewrite filter_cons, decide_False by congruence. by apply IH.
Qed.

Lemma times_started_1 dps h (l : list event) :
  chronological dps l → Started h ∈ l → times_started h l = 1%nat.
Proof.
  unfold times_started. induction l as [|ev l IH]; intros Hl Hin.
  { by apply elem_of_nil in Hin. }
  simpl in Hl. destruct Hl as [Hl Hev]. rewrite filter_cons.
  destruct (decide (ev = Started h)) as [->|Hne].
  - destruct Hev as [Hnew _]. simpl.
    by rewrite (times_started_0 h l Hnew : length _ = 0%nat).
  - apply elem_of_cons in Hin as [Heq|Hin]; [congruence|]. by apply IH.
Qed.

(** *** Dependencies are fixed at submission *)

Lemma depends_ext (ts ts' : list task) c a :
  (∀ h, from_option deps [] (ts !! h) = from_option deps [] (ts' !! h)) →
  depends ts c a → depends ts' c a.
Proof.
  intros Hext Hdep.
  induction Hdep as [c t a Ht Ha|c t b a Ht Hb _ IH];
    pose proof (Hext c) as Hc; rewrite Ht in Hc; simpl in Hc;
    (destruct (ts' !! c) as [t'|] eqn:Ht';
      [|simpl in Hc; rewrite Hc in *;
        by match goal with H : _ ∈ [] |- _ => apply elem_of_nil in H end]);
    simpl in Hc; rewrite Hc in *.
  - by eapply depends_direct.
  - by eapply depends_trans.
Qed.

Lemma depends_run schedule p c a :
  depends (tasks p) c a ↔ depends (tasks (run schedule p)) c a.
Proof.
  split; apply depends_ext; intros h;
    [symmetry|]; apply (run_deps schedule p h).
Qed.



Lemma failed_dependents_not_started p a e c :
  pool_inv p → status_of p a = Some (Failed e) →
  depends (tasks p) c a → Started c ∉ log p.
Proof.
  intros Hinv Ha Hdep Hs.
  destruct (started_depends_finished p c a Hinv Hs Hdep) as [v Hv].
  congruence.
Qed.

Lemma drain_all p prefix (hs : list handle) :
  pool_inv p → Forall (λ h, (h < length (tasks p))%nat) hs →
  ∃ p', wait (prefix ++ drain_schedule p) hs p
          = Some (expected hs (tasks p), p') ∧
        ∃ turns, p' = run turns p.
Proof.
  intros Hinv Hhs.
  destruct (wait_within (λ _, true) prefix hs p Hinv) as (p' & Hw & turns & -> & _).
  - done.
  - eapply Forall_impl; [exact Hhs|]. by intros h Hh.
  - exists (run turns p). split; [done|]. by exists turns.
Qed.

Lemma drain_settled p prefix h :
  pool_inv p → (h < length (tasks p))%nat →
  settled (run (prefix ++ drain_schedule p) p) h = true.
Proof.
  intros Hinv Hh. rewrite run_app.
  assert (drain_schedule p = drain_schedule (run prefix p)) as ->.
  { unfold drain_schedule, schedule_within. by rewrite run_length. }
  apply (run_within_settles (λ _, true) (run prefix p));
    [by apply run_inv|done|done|by rewrite run_length|done].
Qed.

Lemma try_step_code p h h' t :
  tasks p !! h' = Some t →
  ∃ t', tasks (try_step p h) !! h' = Some t' ∧ same_code t t'.
Proof.
  intros Ht. destruct (try_step_cases p h) as [->|(t0 & Ht0 & Hcase)].
  { by exists t. }
  apply step_case_shape in Hcase as (s & ev & ->).
  rewrite set_status_lookup. case_decide as Heq.
  - subst h'. rewrite Ht. by eexists.
  - by exists t.
Qed.

Lemma run_code schedule h' : ∀ p t,
  tasks p !! h' = Some t →
  ∃ t', tasks (run schedule p) !! h' = Some t' ∧ same_code t t'.
Proof.
  induction schedule as [|h schedule IH]; intros p t Ht.
  { by exists t. }
  destruct (try_step_code p h h' t Ht) as (t1 & Ht1 & [Hf1 Ha1]).
  destruct (IH (try_step p h) t1 Ht1) as (t2 & Ht2 & [Hf2 Ha2]).
  exists t2. split; [done|]. split; congruence.
Qed.

(** *** The properties of the façade *)

(** C2. In every reachable pool in which task [a] has failed: no task that
    depends on [a], directly or through other tasks, has been started by a
    worker.  A [wait] on any tasks, whatever the pool does first, returns a
    summary (it is not an error); the summary lists [a] as failed when [a]
    is among the tasks waited for; in the pool it returns, no dependent of
    [a] has been started; and what it reports for a task that does not
    depend on [a] is what that task computes, the same whatever function
    [a] had been given. *)
Theorem failure_stops_dependents p a e :
  reachable p → status_of p a = Some (Failed e) →
  (∀ c, depends (tasks p) c a → Started c ∉ log p) ∧
  ∀ prefix hs, Forall (λ h, (h < length (tasks p))%nat) hs →
    ∃ sm p',
      wait (prefix ++ drain_schedule p) hs p = Some (sm, p') ∧
      (a ∈ hs → a ∈ failed sm) ∧
      (∀ c, depends (tasks p) c a → Started c ∉ log p') ∧
      ∀ h, h ∈ hs → h ≠ a → ¬ depends (tasks p) h a →
        ∀ f' v, (h, v) ∈ finished sm ↔
                outcome (alter (with_fn f') a (tasks p)) h = Some v.
Proof.
  intros Hinv%reachable_inv Ha. split.
  { intros c. by eapply failed_dependents_not_started. }
  intros prefix hs Hhs.
  destruct (drain_all p prefix hs Hinv Hhs) as (p' & Hw & turns & ->).
  exists (expected hs (tasks p)), (run turns p). split; [done|].
  assert (outcome (tasks p) a = None) as Hnone.
  { unfold status_of in Ha. destruct (tasks p !! a) as [t|] eqn:Ht; [|done].
    simpl in Ha. injection Ha as Hst.
    pose proof (settled_outcome p Hinv a t Ht) as Ho. by rewrite Hst in Ho. }
  split; [|split].
  - intros Hin. simpl. apply list_elem_of_In, filter_In.
    split; [by apply list_elem_of_In|]. by apply bool_decide_eq_true.
  - intros c Hdep.
    apply (failed_dependents_not_started (run turns p) a e c).
    + by apply run_inv.
    + by apply (run_kept turns p).
    + by apply depends_run.
  - intros h Hh Hne Hnd f' v.
    rewrite outcome_independent; [|apply (inv_backward p Hinv)|done..].
    simpl. rewrite list_elem_of_omap. split.
    + intros (x & _ & Hx). apply fmap_Some in Hx as (v' & Hv' & Heq).
      by simplify_eq.
    + intros Ho. exists h. split; [done|]. by rewrite Ho.
Qed.

Lemma outcomes_app (ts ts' : list task) :
  ∃ rest, outcomes (ts ++ ts') = outcomes ts ++ rest.
Proof.
  induction ts' as [|t ts' [rest IH]] using rev_ind.
  - exists []. by rewrite !app_nil_r.
  - rewrite app_assoc, outcomes_snoc, IH, <- app_assoc. by eexists.
Qed.

Lemma outcome_app (ts ts' : list task) d :
  (d < length ts)%nat → outcome (ts ++ ts') d = outcome ts d.
Proof.
  intros Hd. unfold outcome. destruct (outcomes_app ts ts') as [rest ->].
  by rewrite lookup_app_l by (by rewrite outcomes_length).
Qed.

(** Once the pool has run to completion, a task whose dependencies all
    produce a value has been started exactly once. *)
Lemma drained_started_once p h t prefix :
  pool_inv p → tasks p !! h = Some t →
  Forall (λ d, is_Some (outcome (tasks p) d)) (deps t) →
  times_started h (log (run (prefix ++ drain_schedule p) p)) = 1%nat.
Proof.
  intros Hinv Ht Hdeps.
  set (p' := run (prefix ++ drain_schedule p) p).
  assert (pool_inv p') as Hinv' by by apply run_inv.
  assert (settled p' h = true) as Hs.
  { apply drain_settled; [done|]. by eapply lookup_lt_Some. }
  destruct (run_code (prefix ++ drain_schedule p) h p t Ht)
    as (t' & Ht' & Hfn & Hargs).
  fold p' in Ht'.
  apply (times_started_1 (deps_at p')); [apply (inv_log p' Hinv')|].
  pose proof (inv_task p' Hinv' h t' Ht') as Hi. unfold task_inv in Hi.
  unfold settled, status_of in Hs. rewrite Ht' in Hs. simpl in Hs.
  destruct (st t') as [|inputs|v|e]; [done|done| |].
  - by destruct Hi as (? & ? & ? & ? & ?).
  - destruct Hi as [(? & ? & ? & ?)|(_ & d & e' & Hd & Hst)]; [done|].
    exfalso. unfold deps in Hd. rewrite <- Hargs in Hd.
    rewrite Forall_forall in Hdeps. destruct (Hdeps d Hd) as [v Hv].
    unfold status_of in Hst.
    destruct (tasks p' !! d) as [td|] eqn:Htd; [|done].
    simpl in Hst. injection Hst as Hst.
    pose proof (settled_outcome p' Hinv' d td Htd) as Ho.
    rewrite Hst in Ho. unfold outcome, p' in Ho.
    rewrite run_outcomes in Ho. unfold outcome in Hv. congruence.
Qed.

(** C4. Submitting the same function with the same arguments twice gives
    two different handles and two tasks of the pool, each created on its
    own.  When the arguments are literals, or handles of tasks that produce
    a value, then whatever the pool does first, once it has run to
    completion a worker has started each of the two tasks exactly once. *)
Theorem submit_twice_runs_twice p f (l : list arg) :
  reachable p →
  Forall (λ d, (d < length (tasks p))%nat ∧ is_Some (outcome (tasks p) d))
    (handles l) →
  let s1 := submit f l p in
  let s2 := submit f l s1.2 in
  s1.1 ≠ s2.1 ∧
  tasks s2.2 !! s1.1 = Some (Task f l Created false) ∧
  tasks s2.2 !! s2.1 = Some (Task f l Created false) ∧
  ∀ prefix,
    let p' := run (prefix ++ drain_schedule s2.2) s2.2 in
    times_started s1.1 (log p') = 1%nat ∧
    times_started s2.1 (log p') = 1%nat.
Proof.
  intros Hp Hl s1 s2.
  assert (Forall (λ d, d < length (tasks p))%nat (handles l)) as Hl1.
  { eapply Forall_impl; [exact Hl|]. by intros d [? _]. }
  assert (reachable s1.2) as Hp1 by by apply reachable_submit.
  assert (reachable s2.2) as Hp2.
  { apply reachable_submit; [done|]. simpl. rewrite length_app.
    eapply Forall_impl; [exact Hl1|]. intros d Hd. simpl in *. lia. }
  assert (tasks s2.2 !! s1.1 = Some (Task f l Created false)) as Ht1.
  { simpl. rewrite lookup_app_l by (rewrite length_app; simpl; lia).
    by apply list_lookup_middle. }
  assert (tasks s2.2 !! s2.1 = Some (Task f l Created false)) as Ht2.
  { simpl. by apply list_lookup_middle. }
  split; [simpl; rewrite length_app; simpl; lia|].
  split; [done|]. split; [done|].
  assert (Forall (λ d, is_Some (outcome (tasks s2.2) d)) (handles l)) as Hd.
  { eapply Forall_impl; [exact Hl|]. intros d [Hlt Hsome]. simpl.
    rewrite <- app_assoc. by rewrite outcome_app. }
  apply reachable_inv in Hp2.
  intros prefix p'. split.
  - by apply (drained_started_once s2.2 s1.1 _ prefix Hp2 Ht1).
  - by apply (drained_started_once s2.2 s2.1 _ prefix Hp2 Ht2).
Qed.


(** *** The caller's references and garbage collection *)

Local Abbreviation client := (@client V E).

Implicit Types (cl : client).








(** *** What the pool retains *)








(** *** The invariant *)








End FacadeFacts.

(** C6. Submit [f(x) = x + 1] with input 1, then [g(y) = y * 2] with the
    handle of the first submission: whatever the pool does first, a [wait]
    on the second handle returns, and its summary gives that task as
    finished with the value 4 and no task as failed. *)
Theorem wait_on_chain_yields_4 (prefix : list Facade.handle) :
  let s1 := Facade.submit Facade.inc [Facade.Lit 1] Facade.init in
  let s2 := Facade.submit Facade.double [Facade.Ref s1.1] s1.2 in
  fst <$> Facade.wait (prefix ++ Facade.drain_schedule s2.2) [s2.1] s2.2
    = Some (Facade.Summary [(s2.1, 4)] []).
Proof.
  intros s1 s2.
  assert (Facade.reachable s2.2) as Hp.
  { apply Facade.reachable_submit; [|by repeat constructor].
    apply Facade.reachable_submit; [|by constructor].
    apply Facade.reachable_init. }
  destruct (drain_all s2.2 prefix [s2.1] (reachable_inv _ Hp))
    as (p' & Hw & _).
  { by repeat constructor. }
  by rewrite Hw.
Qed.

(** *** The façade on the notebook's pipeline *)

Lemma demo_pipeline_reachable : Facade.reachable Facade.demo_pipeline.2.
Proof.
  apply Facade.reachable_detach.
  repeat (apply Facade.reachable_submit; [|by repeat constructor]).
  apply Facade.reachable_init.
Qed.

Lemma demo_failure_reachable : Facade.reachable Facade.demo_failure.
Proof.
  repeat (apply Facade.reachable_submit; [|by repeat constructor]).
  apply Facade.reachable_init.
Qed.

Example demo_pipeline_run :
  let p := Facade.demo_pipeline.2 in
  Facade.log (Facade.run (Facade.drain_schedule p) p)
  = [Facade.Returned 3 true; Facade.Started 3;
     Facade.Returned 2 true; Facade.Started 2;
     Facade.Returned 1 true; Facade.Started 1;
     Facade.Returned 0 true; Facade.Started 0].
Proof. reflexivity. Qed.

(** The specification's second scenario: the first task is reported as
    failed, the dependent one as failed without having been run, the
    sibling as finished. *)
Example demo_failure_run :
  let p := Facade.demo_failure in
  (fst <$> Facade.wait (Facade.drain_schedule p) [0; 1; 2]%nat p
   = Some (Facade.Summary [(2%nat, 2)] [0; 1]%nat)) ∧
  Facade.log (Facade.run (Facade.drain_schedule p) p)
  = [Facade.Returned 2 true; Facade.Started 2; Facade.Propagated 1;
     Facade.Returned 0 false; Facade.Started 0].
Proof. split; reflexivity. Qed.

Lemma chain_runs_in_order_witness :
  let p := Facade.run (Facade.drain_schedule Facade.demo_pipeline.2)
             Facade.demo_pipeline.2 in
  let older := [Facade.Returned 2 true; Facade.Started 2;
                Facade.Returned 1 true; Facade.Started 1;
                Facade.Returned 0 true; Facade.Started 0] in
  Facade.log p = [Facade.Returned 3 true] ++ Facade.Started 3 :: older ∧
  Facade.Returned 1 true ∈ older ∧ Facade.Returned 2 true ∈ older.
Proof.
  intros p older. split; [reflexivity|].
  apply (chain_runs_in_order p 1 2 3
           (Facade.Task Facade.double [Facade.Ref 1%nat] (Facade.Finished 16) false)
           (Facade.Task (λ _, inl 0) [Facade.Ref 2%nat; Facade.Lit 0]
              (Facade.Finished 0) true)
           [Facade.Returned 3 true] older).
  - apply reachable_run, demo_pipeline_reachable.
  - reflexivity.
  - vm_compute. constructor.
  - reflexivity.
  - vm_compute. constructor.
  - reflexivity.
Defined.

Lemma failure_stops_dependents_witness :
  let p := Facade.run [0; 0]%nat Facade.demo_failure in
  Facade.status_of p 0 = Some (Facade.Failed "ValueError"%string) ∧
  ∀ c, Facade.depends (Facade.tasks p) c 0 → Facade.Started c ∉ Facade.log p.
Proof.
  intros p. split; [reflexivity|].
  apply (failure_stops_dependents p 0%nat "ValueError"%string).
  - apply reachable_run, demo_failure_reachable.
  - reflexivity.
Defined.

Lemma submit_twice_runs_twice_witness :
  let s1 := Facade.submit Facade.inc [Facade.Lit 1] Facade.init in
  let s2 := Facade.submit Facade.inc [Facade.Lit 1] s1.2 in
  s1.1 ≠ s2.1 ∧
  ∀ prefix,
    let p' := Facade.run (prefix ++ Facade.drain_schedule s2.2) s2.2 in
    Facade.times_started s1.1 (Facade.log p') = 1%nat ∧
    Facade.times_started s2.1 (Facade.log p') = 1%nat.
Proof.
  intros s1 s2.
  destruct (submit_twice_runs_twice Facade.init Facade.inc [Facade.Lit 1])
    as (Hne & _ & _ & Hrun).
  - apply Facade.reachable_init.
  - vm_compute. constructor.
  - split; [exact Hne|exact Hrun].
Defined.



(** ** The day-of-week kernel against the calendar *)

Section CalendarFacts.

Import Taxi.

Lemma check_days_spec n : ∀ k date,
  check_days n k date = true →
  ∀ j : nat, (j < n)%nat →
    let '(y, m, d) := Nat.iter j next_day date in
    day_of_week_row floor_2_6_float d m y
      = kernel_weekday m ((k + Z.of_nat j) mod 7).
Proof.
  induction n as [|n IH]; intros k date Hcheck j Hj; [lia|].
  simpl in Hcheck. destruct date as [[y m] d].
  apply andb_true_iff in Hcheck as [Hnow Hrest].
  destruct j as [|j].
  - simpl. rewrite Z.add_0_r. by apply Z.eqb_eq.
  - rewrite Nat.iter_succ_r.
    specialize (IH (k + 1) (next_day (y, m, d)) Hrest j ltac:(lia)).
    destruct (Nat.iter j next_day (next_day (y, m, d))) as [[y' m'] d'].
    rewrite IH. do 2 f_equal. lia.
Qed.

(** The hundred years from 1 January 2000 to 31 December 2099. *)
Lemma century_checked : check_days century 0 (2000, 1, 1) = true.
Proof. vm_compute. reflexivity. Qed.

Lemma kernel_on_calendar (k : nat) y m d :
  (k < century)%nat → nth_day k = (y, m, d) →
  day_of_week_row floor_2_6_float d m y
    = kernel_weekday m (Z.of_nat k mod 7).
Proof.
  intros Hk Hdate.
  pose proof (check_days_spec century 0 (2000, 1, 1) century_checked k Hk)
    as Hc.
  unfold nth_day in Hdate. rewrite Hdate in Hc. exact Hc.
Qed.

Lemma weekend_flag (w : Z) :
  0 ≤ w < 7 → (bool_to_int (w <? 2) = 1 ↔ w = 0 ∨ w = 1).
Proof.
  intros Hw. unfold bool_to_int. destruct (Z.ltb_spec w 2); split; lia.
Qed.

(** X1. For every date from March to December of the years 2000 to 2099,
    the value the kernel writes, with [math.floor(m*2.6)] computed in
    float64, is the weekday of the date counted from Saturday (0 Saturday,
    1 Sunday, ... 6 Friday); so the [is_weekend] flag derived from it is 1
    exactly on Saturdays and Sundays. *)
Theorem day_of_week_march_to_december (k : nat) (y m d : Z) :
  (k < century)%nat → nth_day k = (y, m, d) → 3 ≤ m →
  let w := day_of_week_row floor_2_6_float d m y in
  w = Z.of_nat k mod 7 ∧
  (bool_to_int (w <? 2) = 1 ↔ Z.of_nat k mod 7 = 0 ∨ Z.of_nat k mod 7 = 1).
Proof.
  intros Hk Hdate Hm w.
  assert (w = Z.of_nat k mod 7) as Hw.
  { unfold w. rewrite (kernel_on_calendar k y m d Hk Hdate).
    unfold kernel_weekday.
    destruct (Z.eqb_spec m 1); [lia|]. by destruct (Z.eqb_spec m 2); [lia|]. }
  split; [done|]. rewrite Hw. apply weekend_flag, Z.mod_pos_bound. lia.
Qed.

(** X2. For every date in January of the years 2000 to 2099 the kernel
    writes the weekday of the day before, and in February the weekday of
    two days later (the shift it adds for these months is the month number,
    not 12); so [is_weekend] is 1 on the Sundays and Mondays of January and
    on the Thursdays and Fridays of February, and 0 on their other days. *)
Theorem day_of_week_january_february (k : nat) (y d : Z) :
  (k < century)%nat →
  let wd := Z.of_nat k mod 7 in
  (nth_day k = (y, 1, d) →
     let w := day_of_week_row floor_2_6_float d 1 y in
     w = (wd - 1) mod 7 ∧ (bool_to_int (w <? 2) = 1 ↔ wd = 1 ∨ wd = 2)) ∧
  (nth_day k = (y, 2, d) →
     let w := day_of_week_row floor_2_6_float d 2 y in
     w = (wd + 2) mod 7 ∧ (bool_to_int (w <? 2) = 1 ↔ wd = 5 ∨ wd = 6)).
Proof.
  intros Hk wd.
  assert (0 ≤ wd < 7) as Hwd by (apply Z.mod_pos_bound; lia).
  split; intros Hdate w.
  - assert (w = (wd - 1) mod 7) as Hw.
    { unfold w. by rewrite (kernel_on_calendar k y 1 d Hk Hdate). }
    split; [done|]. rewrite Hw.
    rewrite weekend_flag by (apply Z.mod_pos_bound; lia).
    clearbody wd. clear -Hwd. Z.div_mod_to_equations. lia.
  - assert (w = (wd + 2) mod 7) as Hw.
    { unfold w. by rewrite (kernel_on_calendar k y 2 d Hk Hdate). }
    split; [done|]. rewrite Hw.
    rewrite weekend_flag by (apply Z.mod_pos_bound; lia).
    clearbody wd. clear -Hwd. Z.div_mod_to_equations. lia.
Qed.

End CalendarFacts.

Lemma day_of_week_march_to_december_witness :
  Taxi.nth_day 60 = (2000, 3, 1) ∧
  Taxi.day_of_week_row Taxi.floor_2_6_float 1 3 2000 = 60 mod 7.
Proof.
  split; [reflexivity|].
  apply (day_of_week_march_to_december 60 2000 3 1).
  - unfold Taxi.century. lia.
  - reflexivity.
  - lia.
Defined.

(** Saturday 4 January 2014 is day 5117; the kernel gives it 6 and
    [is_weekend] 0. *)
Lemma day_of_week_january_february_witness :
  Taxi.nth_day (Z.to_nat 5117) = (2014, 1, 4) ∧
  5117 mod 7 = 0 ∧
  Taxi.day_of_week_row Taxi.floor_2_6_float 4 1 2014 = 6.
Proof.
  split; [vm_compute; reflexivity|]. split; [reflexivity|].
  destruct (day_of_week_january_february (Z.to_nat 5117) 2014 4)
    as [Hjan _].
  - unfold Taxi.century. lia.
  - destruct Hjan as [Hw _]; [vm_compute; reflexivity|].
    rewrite Hw. reflexivity.
Defined.

(** ** The [diff] column *)

Lemma wrap32_small (z : Z) : - 2 ^ 31 ≤ z < 2 ^ 31 → Taxi.wrap32 z = z.
Proof. intros Hz. unfold Taxi.wrap32. rewrite Z.mod_small; lia. Qed.

Lemma wrap32_sub (a b : Z) :
  Taxi.wrap32 (Taxi.wrap32 a - Taxi.wrap32 b) = Taxi.wrap32 (a - b).
Proof.
  unfold Taxi.wrap32. f_equal.
  rewrite (Z.mod_eq (a + 2 ^ 31) (2 ^ 32)), (Z.mod_eq (b + 2 ^ 31) (2 ^ 32))
    by lia.
  set (qa := (a + 2 ^ 31) / 2 ^ 32). set (qb := (b + 2 ^ 31) / 2 ^ 32).
  replace (a + 2 ^ 31 - 2 ^ 32 * qa - 2 ^ 31
           - (b + 2 ^ 31 - 2 ^ 32 * qb - 2 ^ 31) + 2 ^ 31)
    with (a - b + 2 ^ 31 + (qb - qa) * 2 ^ 32) by lia.
  apply Z_mod_plus_full.
Qed.

(** X3. [diff] is the trip's duration in milliseconds whenever that is
    below 2^31 ms (about 24.8 days) in absolute value, although each of the
    two timestamps is itself cut to its low 32 bits by [astype('int32')]:
    the two truncations cancel in the int32 subtraction. *)
Theorem trip_diff_exact (dropoff pickup : Z) :
  - 2 ^ 31 ≤ dropoff - pickup < 2 ^ 31 →
  Taxi.trip_diff dropoff pickup = dropoff - pickup.
Proof.
  intros Hrange. unfold Taxi.trip_diff.
  by rewrite wrap32_sub, wrap32_small.
Qed.

(** A ten-minute trip on 1 January 2014: the timestamps are far above
    2^31. *)
Lemma trip_diff_exact_witness :
  Taxi.wrap32 1388534400000 ≠ 1388534400000 ∧
  Taxi.trip_diff 1388535000000 1388534400000 = 600000.
Proof.
  split; [by vm_compute|].
  apply (trip_diff_exact 1388535000000 1388534400000). lia.
Defined.

(** X4. Beyond that range [diff] is not the duration: it is the duration
    reduced to a signed 32-bit integer, so a trip of exactly 2^31 ms comes
    out as -2^31. *)
Theorem trip_diff_wraps (dropoff pickup : Z) :
  Taxi.trip_diff dropoff pickup = Taxi.wrap32 (dropoff - pickup) ∧
  - 2 ^ 31 ≤ Taxi.trip_diff dropoff pickup < 2 ^ 31 ∧
  Taxi.trip_diff (pickup + 2 ^ 31) pickup = - 2 ^ 31.
Proof.
  unfold Taxi.trip_diff. rewrite !wrap32_sub. split; [done|]. split.
  - unfold Taxi.wrap32.
    pose proof (Z.mod_pos_bound (dropoff - pickup + 2 ^ 31) (2 ^ 32)). lia.
  - replace (pickup + 2 ^ 31 - pickup) with (2 ^ 31) by lia. reflexivity.
Qed.

(** ** Rows through the partition filter and the split *)

Section RowFacts.

Import Taxi.

Context {row : Type}.

Lemma concat_query (pred : row → bool) (df : list (list row)) :
  concat (query pred df) = List.filter pred (concat df).
Proof.
  unfold query. induction df as [|p df IH]; [done|].
  rewrite fmap_cons. simpl. by rewrite List.filter_app, IH.
Qed.

Lemma concat_drop_empty (df : list (list row)) :
  concat (drop_empty_partitions df) = concat df.
Proof.
  rewrite drop_empty_partitions_filter.
  induction df as [|p df IH]; [done|].
  rewrite filter_cons. destruct p as [|r p].
  - by rewrite decide_False by (simpl; lia).
  - rewrite decide_True by (simpl; lia). simpl. by rewrite IH.
Qed.

(** X5. Dropping the empty partitions changes no data: the rows of the
    result, partition after partition, are the rows of the input in the same
    order; the result has no empty partition, and dropping again changes
    nothing. *)
Theorem drop_empty_partitions_keeps_rows (df : list (list row)) :
  concat (drop_empty_partitions df) = concat df ∧
  Forall (λ p, p ≠ []) (drop_empty_partitions df) ∧
  drop_empty_partitions (drop_empty_partitions df) = drop_empty_partitions df.
Proof.
  split; [apply concat_drop_empty|].
  rewrite !drop_empty_partitions_filter. split.
  - apply Forall_forall. intros p [Hp _]%list_elem_of_filter.
    intros ->. simpl in Hp. lia.
  - induction df as [|p df IH]; [done|].
    rewrite filter_cons. case_decide as Hp; [|done].
    by rewrite filter_cons, decide_True, IH.
Qed.

Lemma filter_split_Permutation (f : row → bool) (l : list row) :
  List.filter f l ++ List.filter (λ r, negb (f r)) l ≡ₚ l.
Proof.
  induction l as [|r l IH]; [done|]. simpl.
  destruct (f r); simpl.
  - by rewrite IH.
  - rewrite <- Permutation_middle. by rewrite IH.
Qed.

(** X6. The split into training and test rows loses and duplicates
    nothing: the rows of [X_train] together with the rows of [X_test] are
    the rows of [taxi_df], each as often as it occurs there; every training
    row has [day < 25] and every test row [day >= 25]. *)
Theorem train_test_split_partitions_rows
    (day : row → Z) (taxi_df : list (list row)) :
  concat (X_train_rows day taxi_df) ++ concat (X_test_rows day taxi_df)
    ≡ₚ concat taxi_df ∧
  Forall (λ r, day r < 25) (concat (X_train_rows day taxi_df)) ∧
  Forall (λ r, 25 ≤ day r) (concat (X_test_rows day taxi_df)).
Proof.
  unfold X_train_rows, X_test_rows.
  rewrite concat_drop_empty, !concat_query. split; [|split].
  - rewrite <- (filter_split_Permutation (λ r, day r <? 25) (concat taxi_df))
      at 3.
    f_equiv.
    rewrite (filter_ext_Forall (λ r, 25 <=? day r) (λ r, negb (day r <? 25)));
      [done|].
    apply Forall_true. intros r. simpl. apply Z.leb_antisym.
  - apply Forall_forall. intros r Hr%list_elem_of_In%filter_In.
    destruct Hr as [_ Hr]. by apply Z.ltb_lt.
  - apply Forall_forall. intros r Hr%list_elem_of_In%filter_In.
    destruct Hr as [_ Hr]. by apply Z.leb_le.
Qed.

End RowFacts.

(** ** [clean] and [add_features] on the frame's column labels *)

Section FrameFacts.

Import Taxi.

Context {elem : Type}.

Local Abbreviation dataframe := (list (string * @column elem)).

Lemma getitem_is_Some (df : dataframe) n :
  is_Some (getitem df n) ↔ n ∈ columns df.
Proof.
  unfold columns. induction df as [|[n0 c0] df IH]; simpl.
  - rewrite elem_of_nil. split; [by intros [? ?]|done].
  - rewrite elem_of_cons. simpl. destruct (decide (n0 = n)) as [->|Hne].
    + split; eauto.
    + rewrite IH. split; [tauto|]. intros [?|?]; [congruence|done].
Qed.

Lemma getitem_setitem_eq (df : dataframe) n c :
  getitem (setitem df n c) n = Some c.
Proof.
  induction df as [|[n0 c0] df IH]; simpl.
  - by rewrite decide_True.
  - destruct (decide (n0 = n)) as [->|Hne]; simpl.
    + by rewrite decide_True.
    + by rewrite decide_False.
Qed.

Lemma getitem_setitem_ne (df : dataframe) k n c :
  k ≠ n → getitem (setitem df k c) n = getitem df n.
Proof.
  intros Hkn. induction df as [|[n0 c0] df IH]; simpl.
  - by rewrite decide_False.
  - destruct (decide (n0 = k)) as [->|Hne]; simpl.
    + by rewrite !decide_False.
    + by rewrite IH.
Qed.

Lemma getitem_filter_ne (df : dataframe) k n :
  k ≠ n → getitem (filter (λ p, p.1 ≠ k) df) n = getitem df n.
Proof.
  intros Hkn. induction df as [|[n0 c0] df IH]; [done|].
  rewrite filter_cons. simpl. destruct (decide (n0 ≠ k)) as [Hne|Heq]; simpl.
  - by rewrite IH.
  - apply dec_stable in Heq. subst n0. by rewrite decide_False.
Qed.

Lemma elem_columns_setitem (df : dataframe) k c x :
  x ∈ columns (setitem df k c) ↔ x ∈ columns df ∨ x = k.
Proof.
  rewrite columns_setitem. destruct (decide (k ∈ columns df)) as [Hin|Hout].
  - split; [tauto|]. intros [?| ->]; done.
  - by rewrite elem_of_app, list_elem_of_singleton.
Qed.

Lemma elem_columns_filter (df : dataframe) k x :
  x ∈ columns (filter (λ p, p.1 ≠ k) df) ↔ x ∈ columns df ∧ x ≠ k.
Proof.
  unfold columns. rewrite !list_elem_of_fmap. split.
  - intros (p & -> & Hin). apply list_elem_of_filter in Hin as [Hp Hin].
    split; [eauto|done].
  - intros [(p & -> & Hin) Hne]. exists p. split; [done|].
    by apply list_elem_of_filter.
Qed.

(** *** The labels after [rename] *)

Lemma elem_columns_rename (mapper : gmap string string) (df : dataframe) x :
  x ∈ columns (rename mapper df)
    ↔ ∃ n, n ∈ columns df ∧ x = default n (mapper !! n).
Proof.
  unfold rename.
  assert (∀ out : dataframe,
    x ∈ columns (foldl
      (λ out p, setitem out (default p.1 (mapper !! p.1)) p.2) out df)
    ↔ x ∈ columns out ∨ ∃ n, n ∈ columns df ∧ x = default n (mapper !! n))
    as Hgen.
  { induction df as [|[n c] df IH]; intros out.
    - simpl. split; [tauto|]. intros [?|(n & Hn & _)]; [done|].
      unfold columns in Hn. simpl in Hn. by apply elem_of_nil in Hn.
    - cbn [foldl]. rewrite IH, elem_columns_setitem. cbn [fst snd]. split.
      + intros [[?| ->]|(n' & Hn' & ->)]; [tauto| |].
        * right. exists n. split; [|done].
          change (columns ((n, c) :: df)) with (n :: columns df).
          apply list_elem_of_here.
        * right. exists n'. split; [|done].
          change (columns ((n, c) :: df)) with (n :: columns df).
          by apply list_elem_of_further.
      + intros [?|(n' & Hn' & ->)]; [tauto|].
        change (columns ((n, c) :: df)) with (n :: columns df) in Hn'.
        apply elem_of_cons in Hn' as [-> |Hn']; [tauto|].
        right. by exists n'. }
  rewrite Hgen. unfold columns at 1. simpl. rewrite elem_of_nil. tauto.
Qed.

Variables strip lower : string → string.

Local Abbreviation strip_lower_map := (Taxi.strip_lower_map strip lower).
Local Abbreviation cleaned_label := (Taxi.cleaned_label strip lower).

Lemma strip_lower_map_lookup (cols : list string) raw :
  raw ∈ cols → strip_lower_map cols !! raw = Some (lower (strip raw)).
Proof.
  unfold Taxi.strip_lower_map.
  assert (∀ tmp : gmap string string,
    foldl (λ tmp col, <[col := lower (strip col)]> tmp) tmp cols !! raw
      = if decide (raw ∈ cols) then Some (lower (strip raw)) else tmp !! raw)
    as Hgen.
  { induction cols as [|col cols IH]; intros tmp.
    - cbn [foldl]. by rewrite decide_False by apply not_elem_of_nil.
    - cbn [foldl]. rewrite IH.
      destruct (decide (raw ∈ cols)) as [Hin|Hout].
      + rewrite decide_True; [done|]. by apply list_elem_of_further.
      + destruct (decide (raw = col)) as [->|Hne].
        * rewrite decide_True by apply list_elem_of_here.
          apply lookup_insert_eq.
        * rewrite decide_False.
          -- by apply lookup_insert_ne.
          -- rewrite elem_of_cons. tauto. }
  intros Hin. rewrite Hgen. by rewrite decide_True.
Qed.

Lemma elem_columns_renamed (remap : gmap string string) (df : dataframe) x :
  x ∈ columns (rename remap (rename (strip_lower_map (columns df)) df))
    ↔ ∃ raw, raw ∈ columns df ∧ x = cleaned_label remap raw.
Proof.
  rewrite elem_columns_rename. unfold Taxi.cleaned_label. split.
  - intros (n & Hn & ->).
    apply elem_columns_rename in Hn as (raw & Hraw & ->).
    exists raw. split; [done|]. by rewrite strip_lower_map_lookup.
  - intros (raw & Hraw & ->). exists (lower (strip raw)). split; [|done].
    apply elem_columns_rename. exists raw. split; [done|].
    by rewrite strip_lower_map_lookup.
Qed.

(** *** [clean] *)

Variable cast : dtype → dtype → elem → elem.
Variable str_elem : string → elem.
Variable int_elem : dtype → Z → elem.

Local Abbreviation clean := (Taxi.clean cast str_elem int_elem strip lower).

(** X7. The labels of the frame [clean] returns, from the raw headers,
    whatever the string methods [strip] and [lower] do: a label is in the
    result exactly if it is a key of [must_haves] and some raw header
    becomes it by [strip], [lower] and one lookup in [remap]; the result
    has no label twice, also when two raw headers become the same label. *)
Theorem clean_column_labels
    (df_part : dataframe) (remap must_haves : gmap string string) :
  ∃ out,
    clean df_part remap must_haves = Some out ∧
    NoDup (columns out) ∧
    ∀ x, x ∈ columns out ↔
      is_Some (must_haves !! x) ∧
      ∃ raw, raw ∈ columns df_part ∧ x = cleaned_label remap raw.
Proof.
  eexists. split; [apply clean_omap|]. rewrite columns_omap_keep. split.
  - apply NoDup_filter, rename_NoDup.
  - intros x. rewrite list_elem_of_filter, elem_columns_renamed. tauto.
Qed.

(** *** [add_features] *)

Variables dt_hour dt_year dt_month dt_day :
  @column elem → option (@column elem).
Variable int32_castable : @column elem → bool.
Variable series_sub : @column elem → @column elem → option (@column elem).
Variable round_hundredth : @column elem → option (@column elem).
Variable haversine_rows :
  @column elem → @column elem → @column elem → @column elem →
  option (@column elem).
Variable day_of_week_rows :
  @column elem → @column elem → @column elem → option (@column elem).
Variable less_than_2 : @column elem → option (@column elem).

Local Abbreviation astype_int32 := (Taxi.astype_int32 cast int32_castable).
Local Abbreviation add_features :=
  (Taxi.add_features cast dt_hour dt_year dt_month dt_day int32_castable
     series_sub round_hundredth haversine_rows day_of_week_rows less_than_2).
Local Abbreviation new_columns :=
  (Taxi.new_columns cast dt_hour dt_year dt_month dt_day int32_castable
     series_sub round_hundredth haversine_rows day_of_week_rows less_than_2).

(** Runs the lookups of [add_features] on a frame whose six input columns
    have been looked up. *)
Ltac run_frame :=
  repeat first
    [ rewrite getitem_setitem_eq
    | rewrite getitem_setitem_ne by discriminate
    | rewrite getitem_filter_ne by discriminate
    | match goal with
      | H : getitem ?d ?n = _ |- context [getitem ?d ?n] => rewrite H
      end
    | progress cbn [mbind option_bind] ].

Ltac run_frame_in H :=
  repeat first
    [ rewrite getitem_setitem_eq in H
    | rewrite getitem_setitem_ne in H by discriminate
    | rewrite getitem_filter_ne in H by discriminate
    | match goal with
      | E : getitem ?d ?n = _ |- _ =>
          match type of H with context [getitem d n] => rewrite E in H end
      end
    | progress cbn [mbind option_bind] in H ].

(** The computation a chain of binds starts with. *)
Ltac head_of t :=
  lazymatch t with
  | mbind _ ?o => head_of o
  | _ => t
  end.

(** The frame [add_features] returns and the frame it leaves to the
    caller, from the columns it computes. *)
Lemma add_features_run (df : dataframe) pd dd plat plon dlat dlon :
  getitem df "pickup_datetime" = Some pd →
  getitem df "dropoff_datetime" = Some dd →
  getitem df "pickup_latitude" = Some plat →
  getitem df "pickup_longitude" = Some plon →
  getitem df "dropoff_latitude" = Some dlat →
  getitem df "dropoff_longitude" = Some dlon →
  add_features df =
    cols ← new_columns pd dd plat plon dlat dlon;
    let passed := assign df (take 9 cols) in
    Some (assign
            (filter (λ p, p.1 ≠ "dropoff_datetime")
               (filter (λ p, p.1 ≠ "pickup_datetime") passed))
            (skipn 9 cols),
          passed).
Proof using Type.
  intros Hpd Hdd Hplat Hplon Hdlat Hdlon.
  unfold Taxi.add_features, Taxi.new_columns, drop, apply_rows_haversine,
    apply_rows_weekday.
  repeat (run_frame;
    lazymatch goal with
    | |- ?lhs = _ =>
        let o := head_of lhs in
        lazymatch o with
        | Some _ => fail
        | _ => destruct o; [|by cbn [mbind option_bind]]
        end
    end).
  run_frame. reflexivity.
Qed.

Lemma add_features_lookups (df : dataframe) r :
  add_features df = Some r →
  ∃ pd dd plat plon dlat dlon,
    getitem df "pickup_datetime" = Some pd ∧
    getitem df "dropoff_datetime" = Some dd ∧
    getitem df "pickup_latitude" = Some plat ∧
    getitem df "pickup_longitude" = Some plon ∧
    getitem df "dropoff_latitude" = Some dlat ∧
    getitem df "dropoff_longitude" = Some dlon.
Proof using Type.
  intros Hr.
  unfold Taxi.add_features, drop, apply_rows_haversine, apply_rows_weekday
    in Hr.
  repeat (run_frame_in Hr;
    lazymatch type of Hr with
    | ?lhs = _ =>
        let o := head_of lhs in
        lazymatch o with
        | Some _ => fail
        | _ => destruct o eqn:?; [|by cbn [mbind option_bind] in Hr]
        end
    end).
  do 6 eexists. repeat split; eassumption.
Qed.

Lemma add_features_Some (df : dataframe) r :
  add_features df = Some r →
  ∃ pd dd plat plon dlat dlon cols,
    getitem df "pickup_datetime" = Some pd ∧
    getitem df "dropoff_datetime" = Some dd ∧
    getitem df "pickup_latitude" = Some plat ∧
    getitem df "pickup_longitude" = Some plon ∧
    getitem df "dropoff_latitude" = Some dlat ∧
    getitem df "dropoff_longitude" = Some dlon ∧
    new_columns pd dd plat plon dlat dlon = Some cols ∧
    r = (assign
           (filter (λ p, p.1 ≠ "dropoff_datetime")
              (filter (λ p, p.1 ≠ "pickup_datetime")
                 (assign df (take 9 cols))))
           (skipn 9 cols),
         assign df (take 9 cols)).
Proof using Type.
  intros Hr.
  destruct (add_features_lookups _ _ Hr)
    as (pd & dd & plat & plon & dlat & dlon & H1 & H2 & H3 & H4 & H5 & H6).
  rewrite (add_features_run _ _ _ _ _ _ _ H1 H2 H3 H4 H5 H6) in Hr.
  destruct (new_columns pd dd plat plon dlat dlon) as [cols|] eqn:Hcols;
    [|done].
  cbn [mbind option_bind] in Hr. injection Hr as <-.
  by exists pd, dd, plat, plon, dlat, dlon, cols.
Qed.

(** The labels of the computed columns. *)
Lemma new_columns_names pd dd plat plon dlat dlon cols :
  new_columns pd dd plat plon dlat dlon = Some cols →
  (take 9 cols).*1 = assigned_columns ∧ (skipn 9 cols).*1 = derived_columns.
Proof using Type.
  unfold Taxi.new_columns. intros Hcols.
  repeat (
    lazymatch type of Hcols with
    | ?lhs = _ =>
        let o := head_of lhs in
        lazymatch o with
        | Some _ => fail
        | _ => destruct o; [|by cbn [mbind option_bind] in Hcols]
        end
    end; cbn [mbind option_bind] in Hcols).
  by injection Hcols as <-.
Qed.

Lemma elem_columns_assign (cols : list (string * @column elem)) :
  ∀ (df : dataframe) x,
    x ∈ columns (assign df cols) ↔ x ∈ columns df ∨ x ∈ cols.*1.
Proof using Type.
  clear -cols. induction cols as [|[n c] cols IH]; intros df x.
  - simpl. rewrite elem_of_nil. tauto.
  - unfold assign in *. cbn [foldl fst snd]. rewrite IH, elem_columns_setitem.
    rewrite fmap_cons, elem_of_cons. simpl. tauto.
Qed.

(** X8. When [add_features] returns a frame: exactly when the frame it
    is given has the two datetime columns and the four coordinate columns
    and no library operation raises on these six columns.  It fails in no
    other way: whatever other columns the frame has, also columns that
    already carry one of the new labels, every later lookup and both drops
    succeed. *)
Theorem add_features_needs_six_columns (df : dataframe) :
  (is_Some (add_features df) ↔
     ∃ pd dd plat plon dlat dlon,
       getitem df "pickup_datetime" = Some pd ∧
       getitem df "dropoff_datetime" = Some dd ∧
       getitem df "pickup_latitude" = Some plat ∧
       getitem df "pickup_longitude" = Some plon ∧
       getitem df "dropoff_latitude" = Some dlat ∧
       getitem df "dropoff_longitude" = Some dlon ∧
       is_Some (new_columns pd dd plat plon dlat dlon)) ∧
  (is_Some (add_features df) →
     Forall (λ n, n ∈ columns df) required_columns).
Proof using Type.
  split; [split|].
  - intros [r Hr].
    destruct (add_features_Some _ _ Hr)
      as (pd & dd & plat & plon & dlat & dlon & cols
          & H1 & H2 & H3 & H4 & H5 & H6 & Hcols & _).
    exists pd, dd, plat, plon, dlat, dlon. by rewrite Hcols.
  - intros (pd & dd & plat & plon & dlat & dlon
            & H1 & H2 & H3 & H4 & H5 & H6 & [cols Hcols]).
    rewrite (add_features_run _ _ _ _ _ _ _ H1 H2 H3 H4 H5 H6), Hcols.
    by eexists.
  - intros [r Hr].
    destruct (add_features_lookups _ _ Hr)
      as (pd & dd & plat & plon & dlat & dlon & H1 & H2 & H3 & H4 & H5 & H6).
    unfold required_columns. rewrite !Forall_cons, Forall_nil.
    rewrite <- !getitem_is_Some, H1, H2, H3, H4, H5, H6. eauto 10.
Qed.

(** X9. The labels after [add_features].  The returned frame has the
    labels of the frame passed in other than the two datetime labels,
    together with the nine labels assigned before the datetime columns are
    dropped and the three assigned after; the frame the caller passed is
    changed by the call: it keeps all its labels and has gained the nine. *)
Theorem add_features_columns (df out passed : dataframe) :
  add_features df = Some (out, passed) →
  (∀ x, x ∈ columns out ↔
     x ∈ columns df ∧ x ∉ datetime_columns
     ∨ x ∈ assigned_columns ∨ x ∈ derived_columns) ∧
  (∀ x, x ∈ columns passed ↔ x ∈ columns df ∨ x ∈ assigned_columns).
Proof using Type.
  clear strip lower str_elem int_elem. intros Hr.
  destruct (add_features_Some _ _ Hr)
    as (pd & dd & plat & plon & dlat & dlon & cols
        & _ & _ & _ & _ & _ & _ & Hcols & [= -> ->]).
  apply new_columns_names in Hcols as [Htake Hdrop].
  split; intros x;
    rewrite ?elem_columns_assign, ?elem_columns_filter, ?elem_columns_assign,
      Htake, ?Hdrop; [|tauto].
  unfold datetime_columns, assigned_columns, derived_columns.
  rewrite ?elem_of_cons, ?elem_of_nil.
  split; [tauto|].
  intros [?|[H|?]]; [tauto| |tauto].
  left. split; [split|]; [tauto| |];
    intros ->; repeat (destruct H as [H|H]; [discriminate H|]); done.
Qed.

Lemma getitem_filter_eq (df : dataframe) k :
  getitem (filter (λ p, p.1 ≠ k) df) k = None.
Proof using Type.
  destruct (getitem (filter (λ p, p.1 ≠ k) df) k) as [c|] eqn:Hc; [|done].
  assert (k ∈ columns (filter (λ p, p.1 ≠ k) df)) as Hin.
  { apply getitem_is_Some. by rewrite Hc. }
  apply elem_columns_filter in Hin as [_ Hne]. done.
Qed.

(** X10. Where the new columns come from.  With [pd] and [dd] the two
    datetime columns of the frame passed in and the four coordinate columns
    as named: [diff] is computed from the two datetimes cast to [int32];
    [h_distance] from the four coordinate columns as passed in, not from
    their rounded copies; [day_of_week] from the day, month and year of the
    pickup datetime, in this order, whatever [day], [month] or [year] column
    the frame had before; [is_weekend] from that [day_of_week].  The
    returned frame has no datetime column left, and every other column of
    the input that is not assigned is returned as it was; in the caller's
    frame every column that is not assigned is as it was. *)
Theorem add_features_values
    (df out passed : dataframe) pd dd plat plon dlat dlon :
  add_features df = Some (out, passed) →
  getitem df "pickup_datetime" = Some pd →
  getitem df "dropoff_datetime" = Some dd →
  getitem df "pickup_latitude" = Some plat →
  getitem df "pickup_longitude" = Some plon →
  getitem df "dropoff_latitude" = Some dlat →
  getitem df "dropoff_longitude" = Some dlon →
  ∃ day month year weekday below,
    dt_day pd = Some day ∧ dt_month pd = Some month ∧
    dt_year pd = Some year ∧
    day_of_week_rows day month year = Some weekday ∧
    less_than_2 weekday = Some below ∧
    getitem out "diff"
      = series_sub (astype cast int32 dd) (astype cast int32 pd) ∧
    getitem out "h_distance" = haversine_rows plat plon dlat dlon ∧
    getitem out "day_of_week" = Some weekday ∧
    getitem out "is_weekend" = Some (astype cast int32 below) ∧
    getitem out "pickup_datetime" = None ∧
    getitem out "dropoff_datetime" = None ∧
    (∀ n, n ∉ datetime_columns ++ assigned_columns ++ derived_columns →
       getitem out n = getitem df n) ∧
    (∀ n, n ∉ assigned_columns → getitem passed n = getitem df n).
Proof using Type.
  clear strip lower str_elem int_elem.
  intros Hr H1 H2 H3 H4 H5 H6.
  rewrite (add_features_run _ _ _ _ _ _ _ H1 H2 H3 H4 H5 H6) in Hr.
  unfold Taxi.new_columns, Taxi.astype_int32 in Hr.
  destruct (dt_hour pd) as [hour|]; [|done].
  destruct (dt_year pd) as [year|]; [|done].
  destruct (dt_month pd) as [month|]; [|done].
  destruct (dt_day pd) as [day|]; [|done].
  cbn [mbind option_bind] in Hr.
  destruct (int32_castable dd); [|done].
  destruct (int32_castable pd); [|done].
  cbn [mbind option_bind] in Hr.
  destruct (series_sub (astype cast int32 dd) (astype cast int32 pd))
    as [diff|]; [|done].
  destruct (round_hundredth plat) as [plat_r|]; [|done].
  destruct (round_hundredth plon) as [plon_r|]; [|done].
  destruct (round_hundredth dlat) as [dlat_r|]; [|done].
  destruct (round_hundredth dlon) as [dlon_r|]; [|done].
  destruct (haversine_rows plat plon dlat dlon) as [h_distance|]; [|done].
  cbn [mbind option_bind] in Hr.
  destruct (day_of_week_rows day month year) as [weekday|] eqn:Hw; [|done].
  cbn [mbind option_bind] in Hr.
  destruct (less_than_2 weekday) as [below|] eqn:Hb; [|done].
  cbn [mbind option_bind] in Hr.
  destruct (int32_castable below); [|done].
  cbn [mbind option_bind firstn skipn assign foldl fst snd] in Hr.
  injection Hr as <- <-.
  exists day, month, year, weekday, below.
  do 5 (split; [done|]).
  repeat split.
  - by run_frame.
  - by run_frame.
  - by run_frame.
  - by run_frame.
  - rewrite !getitem_setitem_ne by discriminate.
    rewrite getitem_filter_ne by discriminate. apply getitem_filter_eq.
  - rewrite !getitem_setitem_ne by discriminate. apply getitem_filter_eq.
  - intros n Hn.
    unfold datetime_columns, assigned_columns, derived_columns in Hn.
    rewrite !not_elem_of_app, !not_elem_of_cons in Hn. destruct_and!.
    rewrite !getitem_setitem_ne by congruence.
    rewrite !getitem_filter_ne by congruence.
    by rewrite !getitem_setitem_ne by congruence.
  - intros n Hn. unfold assigned_columns in Hn.
    rewrite !not_elem_of_cons in Hn. destruct_and!.
    by rewrite !getitem_setitem_ne by congruence.
Qed.

(** X11. [clean] followed by [add_features], with the notebook's [remap]
    and [must_haves]: [clean] returns a frame for every partition.  If
    [add_features] returns a frame on it, each of the six columns it reads
    is what some raw header of the partition becomes by [strip], [lower]
    and [remap]; and if each of the six is, the cleaned frame has the six
    columns ([clean] drops none of them), and [add_features] returns a
    frame exactly if no library operation raises on them. *)
Theorem clean_then_add_features (df_part : dataframe) :
  let from_header := λ n,
    ∃ raw, raw ∈ columns df_part ∧ n = cleaned_label remap raw in
  ∃ cleaned,
    clean df_part remap must_haves = Some cleaned ∧
    (is_Some (add_features cleaned) → Forall from_header required_columns) ∧
    (Forall from_header required_columns →
       ∃ pd dd plat plon dlat dlon,
         getitem cleaned "pickup_datetime" = Some pd ∧
         getitem cleaned "dropoff_datetime" = Some dd ∧
         getitem cleaned "pickup_latitude" = Some plat ∧
         getitem cleaned "pickup_longitude" = Some plon ∧
         getitem cleaned "dropoff_latitude" = Some dlat ∧
         getitem cleaned "dropoff_longitude" = Some dlon ∧
         (is_Some (add_features cleaned) ↔
            is_Some (new_columns pd dd plat plon dlat dlon))).
Proof using Type.
  intros from_header. eexists. split; [apply clean_omap|].
  set (cleaned := omap _ _).
  assert (∀ n, n ∈ required_columns →
    (n ∈ columns cleaned ↔ from_header n)) as Hlabel.
  { intros n Hn. unfold cleaned, from_header.
    rewrite columns_omap_keep, list_elem_of_filter, elem_columns_renamed.
    assert (is_Some (must_haves !! n)) as Hmust; [|tauto].
    unfold required_columns in Hn.
    rewrite !elem_of_cons, elem_of_nil in Hn.
    repeat (destruct Hn as [->|Hn]; [by eexists|]). done. }
  assert (Forall (λ n, n ∈ columns cleaned) required_columns
          ↔ Forall from_header required_columns) as Hall.
  { rewrite !Forall_forall. split; intros H n Hn; by apply Hlabel, H. }
  split.
  - intros [r Hr]. apply Hall.
    destruct (add_features_lookups _ _ Hr)
      as (pd & dd & plat & plon & dlat & dlon & H1 & H2 & H3 & H4 & H5 & H6).
    unfold required_columns. rewrite !Forall_cons, Forall_nil.
    rewrite <- !getitem_is_Some, H1, H2, H3, H4, H5, H6. eauto 10.
  - intros Hfrom%Hall. unfold required_columns in Hfrom.
    rewrite !Forall_cons, Forall_nil, <- !getitem_is_Some in Hfrom.
    destruct Hfrom as ([pd H1] & [dd H2] & [plat H3] & [plon H4]
                       & [dlat H5] & [dlon H6] & _).
    exists pd, dd, plat, plon, dlat, dlon. do 6 (split; [done|]).
    rewrite (add_features_run _ _ _ _ _ _ _ H1 H2 H3 H4 H5 H6).
    destruct (new_columns pd dd plat plon dlat dlon);
      cbn [mbind option_bind]; [split; eauto|done].
Qed.

End FrameFacts.

(** On the one-row frame, with the operations on columns taken as the
    identity or their first argument: the call returns a frame. *)
Lemma add_features_columns_witness :
  ∃ out passed,
    Taxi.add_features (λ _ _ x, x) Some Some Some Some (λ _, true)
      (λ a _, Some a) Some (λ a _ _ _, Some a) (λ a _ _, Some a) Some
      Taxi.one_trip = Some (out, passed) ∧
    "passenger_count" ∈ Taxi.columns out ∧
    ("pickup_datetime" ∉ Taxi.columns out) ∧
    "pickup_datetime" ∈ Taxi.columns passed.
Proof.
  eexists _, _. split; [reflexivity|].
  pose proof (add_features_columns (λ _ _ (x : Z), x) Some Some Some Some
    (λ _, true) (λ a _, Some a) Some (λ a _ _ _, Some a) (λ a _ _, Some a)
    Some Taxi.one_trip _ _ eq_refl) as [Hout Hpassed].
  split; [|split].
  - apply Hout. left. split; apply (bool_decide_unpack _); by vm_compute.
  - intros Hin. apply Hout in Hin as [[_ Hin]|[Hin|Hin]].
    + apply Hin. apply (bool_decide_unpack _). by vm_compute.
    + revert Hin. apply (bool_decide_unpack _). by vm_compute.
    + revert Hin. apply (bool_decide_unpack _). by vm_compute.
  - apply Hpassed. left. apply (bool_decide_unpack _). by vm_compute.
Defined.

Lemma add_features_values_witness :
  ∃ out passed,
    Taxi.add_features (λ _ _ x, x) Some Some Some Some (λ _, true)
      (λ a _, Some a) Some (λ a _ _ _, Some a) (λ a _ _, Some a) Some
      Taxi.one_trip = Some (out, passed) ∧
    Taxi.getitem out "pickup_datetime" = None ∧
    Taxi.getitem out "passenger_count"
      = Taxi.getitem Taxi.one_trip "passenger_count".
Proof.
  eexists _, _. split; [reflexivity|].
  destruct (add_features_values (λ _ _ (x : Z), x) Some Some Some Some
    (λ _, true) (λ a _, Some a) Some (λ a _ _ _, Some a) (λ a _ _, Some a)
    Some Taxi.one_trip _ _ _ _ _ _ _ _
    eq_refl eq_refl eq_refl eq_refl eq_refl eq_refl eq_refl)
    as (? & ? & ? & ? & ? & _ & _ & _ & _ & _ & _ & _ & _ & _ & Hpd & _
        & Hkept & _).
  split; [exact Hpd|]. apply Hkept.
  apply (bool_decide_unpack _). by vm_compute.
Defined.

(** ** The smoothing kernel: launches and memory *)

Section LaunchFacts.

Import Signal.

Context {T : Type}.
Variable add : T → T → T.
Variable floordiv : T → Z → T.

Local Abbreviation stencil := (Signal.stencil add floordiv).
Local Abbreviation smooth := (Signal.smooth add floordiv).

Lemma smooth_item grid uninit (x : array2) i j :
  item (smooth grid uninit x) i j =
    if interior x i j && bool_decide ((i, j) ∈ grid)
    then stencil x i j else uninit i j.
Proof. unfold Signal.smooth. by rewrite smooth_gpu_item. Qed.

(** X12. The result of a launch depends on which thread indices run, not
    on the order in which the threads run nor on how often an index occurs:
    two launches with the same set of indices return the same array. *)
Theorem smooth_thread_order
    (grid grid' : list (Z * Z)) (uninit : Z → Z → T) (x : array2) :
  (∀ t, t ∈ grid ↔ t ∈ grid') →
  shape (smooth grid uninit x) = shape (smooth grid' uninit x) ∧
  ∀ i j, item (smooth grid uninit x) i j = item (smooth grid' uninit x) i j.
Proof.
  intros Hsame. split.
  - unfold Signal.smooth. by rewrite !smooth_gpu_shape.
  - intros i j. rewrite !smooth_item.
    by rewrite (bool_decide_ext _ _ (Hsame (i, j))).
Qed.

(** X13. The kernel reads no element outside the input: two inputs of
    the same shape that agree on the indices inside it give the same
    result, for every launch, whatever lies outside. *)
Theorem smooth_reads_in_bounds
    (grid : list (Z * Z)) (uninit : Z → Z → T) (x x' : array2) :
  shape x = shape x' →
  (∀ i j, in_bounds x i j = true → item x i j = item x' i j) →
  ∀ i j, item (smooth grid uninit x) i j = item (smooth grid uninit x') i j.
Proof.
  intros Hshape Hitems i j. rewrite !smooth_item.
  assert (interior x' i j = interior x i j) as ->.
  { unfold interior. by rewrite Hshape. }
  destruct (interior x i j) eqn:Hint; [|done]. simpl.
  case_bool_decide; [|done].
  assert (∀ di dj, -1 ≤ di ≤ 1 → -1 ≤ dj ≤ 1 →
    item x (i + di) (j + dj) = item x' (i + di) (j + dj)) as Hnear.
  { intros di dj Hdi Hdj. apply Hitems.
    unfold interior in Hint. unfold in_bounds.
    destruct (shape x) as [n m]. lia. }
  unfold Signal.stencil.
  pose proof (Hnear (-1) (-1)) as H1. pose proof (Hnear (-1) 0) as H2.
  pose proof (Hnear (-1) 1) as H3. pose proof (Hnear 0 (-1)) as H4.
  pose proof (Hnear 0 0) as H5. pose proof (Hnear 0 1) as H6.
  pose proof (Hnear 1 (-1)) as H7. pose proof (Hnear 1 0) as H8.
  pose proof (Hnear 1 1) as H9.
  rewrite !Z.add_0_r in *.
  change (i + -1) with (i - 1) in *. change (j + -1) with (j - 1) in *.
  by rewrite H1, H2, H3, H4, H5, H6, H7, H8, H9 by lia.
Qed.

(** X14. An input with fewer than three rows or fewer than three columns
    has no interior: [smooth] returns the allocation as it found it, every
    element uninitialised. *)
Theorem smooth_small_input
    (grid : list (Z * Z)) (uninit : Z → Z → T) (x : array2) :
  (shape x).1 < 3 ∨ (shape x).2 < 3 →
  ∀ i j, item (smooth grid uninit x) i j = uninit i j.
Proof.
  intros Hsmall i j. rewrite smooth_item.
  assert (interior x i j = false) as ->; [|done].
  unfold interior. destruct (shape x) as [n m]. simpl in Hsmall. lia.
Qed.

End LaunchFacts.

Lemma smooth_thread_order_witness :
  Signal.item
    (Signal.smooth Z.add Z.div [(1, 1); (1, 2)] (λ _ _, 0)
       (Signal.Array2 (3, 4) (λ i j, i + j))) 1 2
  = Signal.item
      (Signal.smooth Z.add Z.div [(1, 2); (1, 1); (1, 1)] (λ _ _, 0)
         (Signal.Array2 (3, 4) (λ i j, i + j))) 1 2.
Proof.
  apply (smooth_thread_order Z.add Z.div [(1, 1); (1, 2)]
           [(1, 2); (1, 1); (1, 1)] (λ _ _, 0)
           (Signal.Array2 (3, 4) (λ i j, i + j))).
  intros t. rewrite !elem_of_cons, !elem_of_nil. tauto.
Defined.

Lemma smooth_reads_in_bounds_witness :
  Signal.item
    (Signal.smooth Z.add Z.div [(1, 1)] (λ _ _, 0)
       (Signal.Array2 (3, 3) (λ i j, 1))) 1 1
  = Signal.item
      (Signal.smooth Z.add Z.div [(1, 1)] (λ _ _, 0)
         (Signal.Array2 (3, 3)
            (λ i j, if (0 <=? i) && (i <? 3) && (0 <=? j) && (j <? 3)
                    then 1 else 7))) 1 1.
Proof.
  apply (smooth_reads_in_bounds Z.add Z.div [(1, 1)] (λ _ _, 0)
           (Signal.Array2 (3, 3) (λ i j, 1))
           (Signal.Array2 (3, 3)
              (λ i j, if (0 <=? i) && (i <? 3) && (0 <=? j) && (j <? 3)
                      then 1 else 7))).
  - reflexivity.
  - intros i j Hin. unfold Signal.in_bounds in Hin. simpl in *.
    by rewrite Hin.
Defined.

Lemma smooth_small_input_witness :
  Signal.item
    (Signal.smooth Z.add Z.div [(0, 0); (1, 1)] (λ _ _, 5)
       (Signal.Array2 (2, 1000) (λ i j, i + j))) 1 1 = 5.
Proof.
  apply (smooth_small_input Z.add Z.div [(0, 0); (1, 1)] (λ _ _, 5)
           (Signal.Array2 (2, 1000) (λ i j, i + j))).
  left. simpl. lia.
Defined.

(** ** The outlier filter and the feature columns *)

Section QueryFacts.

Import Taxi.

Lemma in_range_Fin row col low high :
  in_range row (col, low, high) = true →
  ∃ q, row col = Fin q ∧ (inject_Z low < q)%Q ∧ (q < inject_Z high)%Q.
Proof.
  unfold in_range. intros [Hgt Hlt]%andb_true_iff.
  destruct (row col) as [|neg|q]; simpl in *; [done|by destruct neg|].
  exists q. split; [done|].
  apply negb_true_iff in Hgt, Hlt. split.
  - apply Qnot_le_lt. intros Hle. apply Qle_bool_iff in Hle. congruence.
  - apply Qnot_le_lt. intros Hle. apply Qle_bool_iff in Hle. congruence.
Qed.

(** X15. What the filter lets through.  In a row that passes, each of
    the six filtered columns holds a finite value strictly inside its
    bounds: no nan, no infinity, and never the value -1 that [clean] put in
    the place of a null.  So every row that had a null in one of the six
    columns is filtered out. *)
Theorem query_excludes_fill_value (row : string → float_cell) :
  passes_query row = true →
  ∀ col low high, (col, low, high) ∈ query_frags →
    ∃ q, row col = Fin q ∧
      (inject_Z low < q)%Q ∧ (q < inject_Z high)%Q ∧
      ¬ (q == inject_Z (-1))%Q.
Proof.
  intros Hpass col low high Hin.
  unfold passes_query in Hpass. rewrite forallb_forall in Hpass.
  pose proof (Hpass _ (proj1 (list_elem_of_In _ _) Hin)) as Hrange.
  apply in_range_Fin in Hrange as (q & Hq & Hlow & Hhigh).
  exists q. split; [done|]. split; [done|]. split; [done|].
  intros Heq. rewrite Heq in Hlow, Hhigh. clear Hpass Hq Heq.
  unfold query_frags in Hin. rewrite !elem_of_cons, elem_of_nil in Hin.
  unfold Qlt, inject_Z in *. simpl in *.
  repeat (destruct Hin as [[= -> -> ->]|Hin]; [lia|]). done.
Qed.

(** X17. The order of the feature columns is the sorted one, whatever
    the order of the frame's columns: two frames with the same labels, in
    any order, hand their features over in the same order. *)
Theorem feature_columns_order (cols cols' : list string) :
  (∀ c, c ∈ cols ↔ c ∈ cols') →
  feature_columns cols = feature_columns cols'.
Proof.
  intros Hsame. unfold feature_columns, difference.
  apply (Sorted_unique String.le).
  - apply (Sorted_merge_sort String.le).
  - apply (Sorted_merge_sort String.le).
  - rewrite !merge_sort_Permutation.
    apply NoDup_Permutation; [apply NoDup_remove_dups..|].
    intros c. rewrite !elem_of_remove_dups, !list_elem_of_filter, Hsame.
    done.
Qed.

End QueryFacts.

(** A trip inside all bounds passes. *)
Lemma query_excludes_fill_value_witness :
  ∃ q, Taxi.one_row "fare_amount" = Taxi.Fin q ∧
    (inject_Z 0 < q)%Q ∧ (q < inject_Z 500)%Q ∧ ¬ (q == inject_Z (-1))%Q.
Proof.
  apply (query_excludes_fill_value Taxi.one_row); [by vm_compute|].
  apply list_elem_of_here.
Defined.

(** The columns of a cleaned 2014 partition and of a 2015 partition come
    in different orders. *)
Lemma feature_columns_order_witness :
  Taxi.feature_columns ["pickup_datetime"; "fare_amount"; "passenger_count"]
  = Taxi.feature_columns
      ["passenger_count"; "pickup_datetime"; "fare_amount"].
Proof.
  apply feature_columns_order.
  intros c. rewrite !elem_of_cons, !elem_of_nil. tauto.
Defined.

(** ** Stacked and duplicated arrays *)

Section ArrayFacts.

Context {T : Type}.

Lemma length_concat_replicate {A : Type} (k : nat) (l : list A) :
  length (concat (replicate k l)) = (k * length l)%nat.
Proof.
  induction k as [|k IH]; [done|]. simpl. rewrite length_app, IH. lia.
Qed.

Lemma lookup_concat_replicate {A : Type} (k : nat) (l : list A) : ∀ r : nat,
  (r < k * length l)%nat →
  concat (replicate k l) !! r = l !! (r mod length l)%nat.
Proof.
  induction k as [|k IH]; intros r Hr; [simpl in Hr; lia|].
  simpl. destruct (decide (r < length l)%nat) as [Hlt|Hge].
  - rewrite lookup_app_l by done. by rewrite Nat.mod_small.
  - rewrite lookup_app_r by lia. rewrite IH by lia. f_equal.
    replace r with (r - length l + 1 * length l)%nat at 2 by lia.
    by rewrite Nat.Div0.mod_add.
Qed.

Lemma forallb_replicate (f : @Np.matrix T → bool) k m :
  f m = true → forallb f (replicate k m) = true.
Proof. intros Hm. induction k as [|k IH]; [done|]. simpl. by rewrite Hm. Qed.

(** X18. The duplicated training set stays aligned.  For [k > 0] copies
    of a training set with as many rows as targets, both stackings return,
    with [k] times the rows and [k] times the targets, and every row of
    [dup_data] stands at the position of its own target in [dup_train]: row
    [r] is row [r mod n] of [X_train] and target [r] is target [r mod n] of
    [y_train]. *)
Theorem dup_aligned (k : nat) (X_train : @Np.matrix T) (y_train : list T) :
  (0 < k)%nat →
  length (Np.rows X_train) = length y_train →
  ∃ D t,
    Ridge.dup_data k X_train = Some D ∧
    Ridge.dup_train k y_train = Some t ∧
    Np.ncols D = Np.ncols X_train ∧
    length (Np.rows D) = (k * length y_train)%nat ∧
    length t = (k * length y_train)%nat ∧
    ∀ r : nat, (r < k * length y_train)%nat →
      Np.rows D !! r = Np.rows X_train !! (r mod length y_train)%nat ∧
      t !! r = y_train !! (r mod length y_train)%nat.
Proof.
  intros Hk Hlen. destruct k as [|k]; [lia|].
  unfold Ridge.dup_data, Ridge.dup_train, Np.vstack, Np.hstack.
  cbn [replicate].
  rewrite forallb_replicate by apply Nat.eqb_refl.
  eexists _, _. split; [done|]. split; [done|].
  change (X_train :: replicate k X_train) with (replicate (S k) X_train).
  change (y_train :: replicate k y_train) with (replicate (S k) y_train).
  cbn [Np.ncols Np.rows]. rewrite fmap_replicate.
  rewrite !length_concat_replicate, Hlen.
  split; [done|]. split; [done|]. split; [done|].
  intros r Hr.
  rewrite !lookup_concat_replicate by (rewrite ?Hlen; lia). by rewrite Hlen.
Qed.

(** *** Columns as records *)

Lemma column_lookup (m : @Np.matrix T) (i : nat) c :
  Np.column m i = Some c →
  ∀ (r : nat) row, Np.rows m !! r = Some row → c !! r = row !! i.
Proof.
  unfold Np.column. destruct (i <? Np.ncols m)%nat; [|done].
  intros HF%mapM_Some r row Hrow.
  destruct (Forall2_lookup_l _ _ _ _ _ HF Hrow) as (y & Hy & Hi).
  by rewrite Hy, Hi.
Qed.

Lemma column_is_Some (m : @Np.matrix T) (i : nat) :
  Np.well_formed m → (i < Np.ncols m)%nat → is_Some (Np.column m i).
Proof.
  intros Hwf Hi. unfold Np.column.
  rewrite (proj2 (Nat.ltb_lt _ _) Hi).
  apply mapM_is_Some. eapply Forall_impl; [exact Hwf|].
  intros row Hrow. simpl in *. apply lookup_lt_is_Some. lia.
Qed.

Lemma record_names (m : @Np.matrix T) recs :
  Np.record_data m = Some recs →
  recs.*1 = (λ i : nat, "fea" +:+ pretty i) <$> seq 0 (Np.ncols m).
Proof.
  unfold Np.record_data. intros HF%mapM_Some.
  induction HF as [|i rec idx recs Hrec HF IH]; [done|].
  rewrite !fmap_cons, IH. f_equal.
  destruct (Np.column m i); [|done]. by injection Hrec as <-.
Qed.

(** X19. The records a dataframe is built from.  For an array whose
    rows all have the array's number of columns, the generator yields one
    record per column; the names [fea0], [fea1], ... are pairwise distinct;
    and the record of column [i] holds, at position [r], element [i] of row
    [r]: the dataframe is the array, column by column. *)
Theorem record_data_columns (m : @Np.matrix T) :
  Np.well_formed m →
  ∃ recs,
    Np.record_data m = Some recs ∧
    length recs = Np.ncols m ∧
    NoDup recs.*1 ∧
    ∀ i : nat, (i < Np.ncols m)%nat →
      ∃ c, recs !! i = Some ("fea" +:+ pretty i, c) ∧
        length c = length (Np.rows m) ∧
        ∀ (r : nat) row, Np.rows m !! r = Some row → c !! r = row !! i.
Proof.
  intros Hwf.
  destruct (Np.record_data m) as [recs|] eqn:Hrecs.
  - exists recs. split; [done|].
    pose proof (record_names _ _ Hrecs) as Hnames.
    assert (length recs = Np.ncols m) as Hlen.
    { rewrite <- (length_fmap fst), Hnames, length_fmap. apply length_seq. }
    split; [done|]. split.
    + rewrite Hnames. apply NoDup_fmap_2; [|apply NoDup_seq].
      intros i j Hij. apply (inj (String.app "fea")) in Hij.
      by apply (inj pretty) in Hij.
    + intros i Hi. unfold Np.record_data in Hrecs.
      apply mapM_Some in Hrecs.
      assert (seq 0 (Np.ncols m) !! i = Some i) as Hidx.
      { apply lookup_seq. lia. }
      destruct (Forall2_lookup_l _ _ _ _ _ Hrecs Hidx) as (rec & Hrec & Hg).
      destruct (Np.column m i) as [c|] eqn:Hc; [|done].
      injection Hg as <-. exists c. split; [done|]. split.
      * unfold Np.column in Hc. destruct (i <? Np.ncols m)%nat; [|done].
        apply mapM_Some in Hc. symmetry. by eapply Forall2_length.
      * by apply column_lookup.
  - exfalso. unfold Np.record_data in Hrecs.
    assert (is_Some (mapM
      (λ i : nat, c ← Np.column m i; Some ("fea" +:+ pretty i, c))
      (seq 0 (Np.ncols m)))) as [? Hsome]; [|congruence].
    apply mapM_is_Some, Forall_forall. intros i Hi.
    apply elem_of_seq in Hi. simpl.
    destruct (column_is_Some m i Hwf) as [c ->]; [lia|]. by eexists.
Qed.

(** *** Reshaping *)

Lemma reshape_rows_concat (cols : nat) : ∀ (n : nat) (a : list T),
  length a = (n * cols)%nat →
  concat ((λ r : nat, take cols (drop (r * cols) a)) <$> seq 0 n) = a.
Proof.
  induction n as [|n IH]; intros a Ha.
  - simpl in *. by destruct a.
  - cbn [seq]. rewrite fmap_cons. cbn [concat].
    rewrite <- fmap_S_seq, <- list_fmap_compose.
    rewrite (list_fmap_ext _
      (λ r : nat, take cols (drop (r * cols) (drop cols a))) (seq 0 n)).
    + rewrite IH by (rewrite length_drop; lia).
      simpl. by rewrite drop_0, take_drop.
    + intros i r _. simpl. rewrite drop_drop. done.
Qed.

Lemma reshape_spec (a : list T) (n cols : nat) m :
  Np.reshape a n cols = Some m →
  length a = (n * cols)%nat ∧
  Np.ncols m = cols ∧ length (Np.rows m) = n ∧
  Np.well_formed m ∧ concat (Np.rows m) = a.
Proof.
  unfold Np.reshape. case_decide as Ha; [|done]. intros [= <-].
  split; [done|]. cbn [Np.ncols Np.rows]. split; [done|].
  split; [by rewrite length_fmap, length_seq|]. split.
  - unfold Np.well_formed. cbn [Np.ncols Np.rows].
    apply Forall_fmap, Forall_forall. intros r Hr%elem_of_seq. simpl.
    rewrite length_take, length_drop. nia.
  - by apply reshape_rows_concat.
Qed.

End ArrayFacts.

Lemma dup_aligned_witness :
  ∃ D t,
    Ridge.dup_data 3 (Np.Matrix 2 [[1; 2]; [3; 4]]) = Some D ∧
    Ridge.dup_train 3 [10; 20] = Some t ∧
    Np.rows D !! 5%nat = Some [3; 4] ∧ t !! 5%nat = Some 20.
Proof.
  destruct (dup_aligned 3 (Np.Matrix 2 [[1; 2]; [3; 4]]) [10; 20])
    as (D & t & HD & Ht & _ & _ & _ & Hrow); [lia|reflexivity|].
  exists D, t. split; [done|]. split; [done|].
  apply (Hrow 5%nat). simpl. lia.
Defined.

Lemma record_data_columns_witness :
  ∃ recs,
    Np.record_data (Np.Matrix 2 [[1; 2]; [3; 4]; [5; 6]]) = Some recs ∧
    recs !! 1%nat = Some ("fea1", [2; 4; 6]).
Proof.
  destruct (record_data_columns (Np.Matrix 2 [[1; 2]; [3; 4]; [5; 6]]))
    as (recs & Hrecs & _ & _ & _).
  { unfold Np.well_formed. simpl. by repeat constructor. }
  exists recs. split; [done|].
  revert Hrecs. vm_compute. by intros [= <-].
Defined.

(** ** Loading the images *)

Section LoadFacts.

Variable read_gz : string → option (list Byte.byte).

Local Abbreviation load_mnist := (Umap.load_mnist read_gz).
Local Abbreviation labels_path path kind :=
  (Umap.path_join path (kind +:+ "-labels-idx1-ubyte.gz")).
Local Abbreviation images_path path kind :=
  (Umap.path_join path (kind +:+ "-images-idx3-ubyte.gz")).

Lemma frombuffer_Some {T : Type} (buf : list T) (offset : nat) a :
  Np.frombuffer buf offset = Some a ↔
    (offset ≤ length buf)%nat ∧ a = drop offset buf.
Proof.
  unfold Np.frombuffer. destruct (Nat.leb_spec offset (length buf)).
  - split; [by intros [= <-]|by intros [_ ->]].
  - split; [done|]. intros [? _]. lia.
Qed.

(** X20. What [load_mnist] returns.  The labels are the label file
    without its first 8 bytes; the images are the image file without its
    first 16 bytes, cut into rows of 784 pixels, one row per label. *)
Theorem load_mnist_result (path kind : string) images labels :
  load_mnist path kind = Some (images, labels) →
  ∃ lb im,
    read_gz (labels_path path kind) = Some lb ∧
    read_gz (images_path path kind) = Some im ∧
    labels = drop 8 lb ∧
    concat (Np.rows images) = drop 16 im ∧
    Np.ncols images = 784%nat ∧
    Np.well_formed images ∧
    length (Np.rows images) = length labels.
Proof.
  unfold Umap.load_mnist. intros Hload.
  destruct (read_gz (labels_path path kind)) as [lb|]; [|done].
  cbn [mbind option_bind] in Hload.
  destruct (Np.frombuffer lb 8) as [labels'|] eqn:Hlb; [|done].
  cbn [mbind option_bind] in Hload.
  destruct (read_gz (images_path path kind)) as [im|]; [|done].
  cbn [mbind option_bind] in Hload.
  destruct (Np.frombuffer im 16) as [flat|] eqn:Him; [|done].
  cbn [mbind option_bind] in Hload.
  destruct (Np.reshape flat (length labels') 784) as [m|] eqn:Hm; [|done].
  injection Hload as -> ->.
  apply frombuffer_Some in Hlb as [_ ->].
  apply frombuffer_Some in Him as [_ ->].
  apply reshape_spec in Hm as (_ & Hcols & Hrows & Hwf & Hflat).
  by exists lb, im.
Qed.

(** X21. When [load_mnist] returns: both files can be read, the label
    file has at least 8 bytes, the image file at least 16, and what follows
    the 16 bytes is 784 bytes for every byte that follows the 8.  In every
    other case it raises. *)
Theorem load_mnist_succeeds_iff (path kind : string) :
  is_Some (load_mnist path kind) ↔
  ∃ lb im,
    read_gz (labels_path path kind) = Some lb ∧
    read_gz (images_path path kind) = Some im ∧
    (8 ≤ length lb)%nat ∧ (16 ≤ length im)%nat ∧
    (length im - 16 = (length lb - 8) * 784)%nat.
Proof.
  unfold Umap.load_mnist. split.
  - intros [r Hload].
    destruct (read_gz (labels_path path kind)) as [lb|]; [|done].
    cbn [mbind option_bind] in Hload.
    destruct (Np.frombuffer lb 8) as [labels|] eqn:Hlb; [|done].
    cbn [mbind option_bind] in Hload.
    destruct (read_gz (images_path path kind)) as [im|]; [|done].
    cbn [mbind option_bind] in Hload.
    destruct (Np.frombuffer im 16) as [flat|] eqn:Him; [|done].
    cbn [mbind option_bind] in Hload.
    destruct (Np.reshape flat (length labels) 784) as [m|] eqn:Hm; [|done].
    apply frombuffer_Some in Hlb as [Hlb ->].
    apply frombuffer_Some in Him as [Him ->].
    apply reshape_spec in Hm as (Hsize & _).
    rewrite !length_drop in Hsize. by exists lb, im.
  - intros (lb & im & -> & -> & Hlb & Him & Hsize).
    cbn [mbind option_bind].
    rewrite (proj2 (frombuffer_Some lb 8 _) (conj Hlb eq_refl)).
    cbn [mbind option_bind].
    rewrite (proj2 (frombuffer_Some im 16 _) (conj Him eq_refl)).
    cbn [mbind option_bind]. unfold Np.reshape.
    rewrite decide_True by (rewrite !length_drop; lia). by eexists.
Qed.

End LoadFacts.

(** X22. The headers are never looked at: two sets of files that differ
    only in the first 8 bytes of the label file and the first 16 bytes of
    the image file (the magic numbers and the declared counts and sizes)
    load to the same images and labels. *)
Theorem load_mnist_ignores_headers
    (read_gz read_gz' : string → option (list Byte.byte))
    (path kind : string) (hl hl' pl hi hi' pi : list Byte.byte) :
  length hl = 8%nat → length hl' = 8%nat →
  length hi = 16%nat → length hi' = 16%nat →
  read_gz (Umap.path_join path (kind +:+ "-labels-idx1-ubyte.gz"))
    = Some (hl ++ pl) →
  read_gz' (Umap.path_join path (kind +:+ "-labels-idx1-ubyte.gz"))
    = Some (hl' ++ pl) →
  read_gz (Umap.path_join path (kind +:+ "-images-idx3-ubyte.gz"))
    = Some (hi ++ pi) →
  read_gz' (Umap.path_join path (kind +:+ "-images-idx3-ubyte.gz"))
    = Some (hi' ++ pi) →
  Umap.load_mnist read_gz path kind = Umap.load_mnist read_gz' path kind.
Proof.
  intros Hhl Hhl' Hhi Hhi' Hl Hl' Hi Hi'. unfold Umap.load_mnist.
  rewrite Hl, Hl', Hi, Hi'. cbn [mbind option_bind].
  assert (∀ (h p : list Byte.byte) (k : nat),
    length h = k → Np.frombuffer (h ++ p) k = Some p) as Hbuf.
  { intros h p k Hk. apply frombuffer_Some.
    rewrite length_app, drop_app_length' by done. split; [lia|done]. }
  by rewrite !Hbuf by done.
Qed.

Lemma load_mnist_result_witness :
  ∃ images labels,
    Umap.load_mnist Umap.one_image "data" "train" = Some (images, labels) ∧
    labels = [Byte.x07] ∧ length (Np.rows images) = 1%nat.
Proof.
  destruct (Umap.load_mnist Umap.one_image "data" "train")
    as [[images labels]|] eqn:Hload; [|by vm_compute in Hload].
  exists images, labels. split; [done|].
  destruct (load_mnist_result _ _ _ _ _ Hload)
    as (lb & im & Hlb & _ & -> & _ & _ & _ & ->).
  vm_compute in Hlb. by injection Hlb as <-.
Defined.

(** The same image under a header of other bytes. *)
Lemma load_mnist_ignores_headers_witness :
  Umap.load_mnist Umap.one_image "data" "train"
  = Umap.load_mnist
      (λ p, if decide (p = "data/train-labels-idx1-ubyte.gz")
            then Some (replicate 8 Byte.xff ++ [Byte.x07])
            else if decide (p = "data/train-images-idx3-ubyte.gz")
            then Some (replicate 16 Byte.xff ++ replicate 784 Byte.x80)
            else None)
      "data" "train".
Proof.
  by apply (load_mnist_ignores_headers _ _ "data" "train"
    (replicate 8 Byte.x00) (replicate 8 Byte.xff) [Byte.x07]
    (replicate 16 Byte.x00) (replicate 16 Byte.xff)
    (replicate 784 Byte.x80)).
Defined.

(** ** The data and the targets *)

Section DataFacts.

Variable read_gz : string → option (list Byte.byte).

Lemma load_mnist_shape (path kind : string) images labels :
  Umap.load_mnist read_gz path kind = Some (images, labels) →
  Np.ncols images = 784%nat ∧ Np.well_formed images ∧
  length (Np.rows images) = length labels.
Proof.
  unfold Umap.load_mnist. intros Hload.
  destruct (read_gz (Umap.path_join path (kind +:+ "-labels-idx1-ubyte.gz")))
    as [lb|]; [|done].
  cbn [mbind option_bind] in Hload.
  destruct (Np.frombuffer lb 8) as [labels'|]; [|done].
  cbn [mbind option_bind] in Hload.
  destruct (read_gz (Umap.path_join path (kind +:+ "-images-idx3-ubyte.gz")))
    as [im|]; [|done].
  cbn [mbind option_bind] in Hload.
  destruct (Np.frombuffer im 16) as [flat|]; [|done].
  cbn [mbind option_bind] in Hload.
  destruct (Np.reshape flat (length labels') 784) as [m|] eqn:Hm; [|done].
  injection Hload as -> ->.
  by apply reshape_spec in Hm as (_ & Hcols & Hrows & Hwf & _).
Qed.

(** X23. The data and the targets stay aligned.  For a training and a
    test set that [load_mnist] returned, both stackings return; [data] has
    784 columns and one row for every target; its rows are the training
    rows followed by the test rows, pixel by pixel, and the targets are the
    training labels followed by the test labels. *)
Theorem data_target_aligned
    (path kind kind' : string) train train_labels test test_labels :
  Umap.load_mnist read_gz path kind = Some (train, train_labels) →
  Umap.load_mnist read_gz path kind' = Some (test, test_labels) →
  ∃ d t,
    Umap.data train test = Some d ∧
    Umap.target train_labels test_labels = Some t ∧
    Np.ncols d = 784%nat ∧ Np.well_formed d ∧
    length (Np.rows d) = length t ∧
    t = train_labels ++ test_labels ∧
    Np.rows d =
      (λ r : list Byte.byte, Umap.pixel <$> r)
        <$> (Np.rows train ++ Np.rows test).
Proof.
  intros (Hc & Hwf & Hn)%load_mnist_shape (Hc' & Hwf' & Hn')%load_mnist_shape.
  unfold Umap.data, Umap.target, Np.vstack, Np.hstack.
  cbn [forallb]. rewrite Hc, Hc'. cbn [Nat.eqb andb mbind option_bind].
  eexists _, _. split; [done|]. split; [done|].
  cbn [Np.ncols Np.rows fmap list_fmap concat]. rewrite !app_nil_r.
  split; [done|]. split; [|split; [|done]].
  - unfold Np.well_formed. cbn [Np.ncols Np.rows].
    apply Forall_fmap, Forall_app. unfold Np.well_formed in Hwf, Hwf'.
    rewrite Hc in Hwf. rewrite Hc' in Hwf'.
    split; (eapply Forall_impl; [eassumption|]);
      intros r Hr; simpl; by rewrite length_fmap.
  - rewrite length_fmap, !length_app. lia.
Qed.

End DataFacts.

Lemma data_target_aligned_witness :
  ∃ train train_labels,
    Umap.load_mnist Umap.one_image "data" "train"
      = Some (train, train_labels) ∧
    ∃ d t,
      Umap.data train train = Some d ∧
      Umap.target train_labels train_labels = Some t ∧
      length (Np.rows d) = length t.
Proof.
  destruct (Umap.load_mnist Umap.one_image "data" "train")
    as [[train train_labels]|] eqn:Hload; [|by vm_compute in Hload].
  exists train, train_labels. split; [done|].
  destruct (data_target_aligned _ _ _ _ _ _ _ _ Hload Hload)
    as (d & t & Hd & Ht & _ & _ & Hlen & _).
  by exists d, t.
Defined.

(** X24. The pixels of [data]: every byte becomes a float between 0 and
    1, and two different bytes become two different floats. *)
Theorem pixel_unit_interval (b b' : Byte.byte) :
  PrimFloat.leb 0 (Umap.pixel b) = true ∧
  PrimFloat.leb (Umap.pixel b) 1 = true ∧
  (Umap.pixel b = Umap.pixel b' ↔ b = b').
Proof.
  split; [by destruct b; vm_compute|]. split; [by destruct b; vm_compute|].
  split; [|by intros ->].
  set (back := λ x : float,
    Byte.of_N (Z.to_N (default 0 (Taxi.float_floor
      (PrimFloat.add (PrimFloat.mul x 255) 0x1p-1%float))))).
  assert (∀ c, back (Umap.pixel c) = Some c) as Hback.
  { intros c. by destruct c; vm_compute. }
  intros Heq. pose proof (Hback b) as Hb. rewrite Heq, Hback in Hb.
  by injection Hb.
Qed.

(** ** The names of the saved files *)

Lemma string_app_length (s t : string) :
  String.length (s +:+ t) = (String.length s + String.length t)%nat.
Proof. induction s as [|a s IH]; [done|]. simpl. by rewrite IH. Qed.

Lemma string_app_inj_r (t : string) : ∀ s s' : string,
  s +:+ t = s' +:+ t → s = s'.
Proof.
  induction s as [|a s IH]; intros [|a' s'] Heq; [done| | |].
  - apply (f_equal String.length) in Heq.
    rewrite !string_app_length in Heq. simpl in Heq. lia.
  - apply (f_equal String.length) in Heq.
    rewrite !string_app_length in Heq. simpl in Heq. lia.
  - change (String a s +:+ t) with (String a (s +:+ t)) in Heq.
    change (String a' s' +:+ t) with (String a' (s' +:+ t)) in Heq.
    injection Heq as -> Heq. f_equal. by apply IH.
Qed.

Lemma save_filename_inj (i j : Z) :
  Umap.save_filename i = Umap.save_filename j → i = j.
Proof.
  unfold Umap.save_filename. intros Heq.
  apply (inj (String.app "file-")) in Heq.
  apply string_app_inj_r in Heq. by apply (inj pretty) in Heq.
Qed.

(** X25. The rounds of the [for] loop save to pairwise different files,
    one per round. *)
Theorem for_loop_filenames_distinct (n : nat) :
  NoDup (Umap.for_loop_filenames n) ∧
  length (Umap.for_loop_filenames n) = n.
Proof.
  unfold Umap.for_loop_filenames. split.
  - apply NoDup_fmap_2_strong; [|apply NoDup_seqZ].
    intros i j _ _. apply save_filename_inj.
  - rewrite length_fmap, length_seqZ. lia.
Qed.
